(** * A shallow embedding of the CaDiCaL solver core ([src/solver.hpp])

    The header [solver.hpp] declares the solver state and defines, inline,
    the literal helpers [vidx], [vlit], [var], [watches], [watch_literal],
    [satisfied], [val] and [fixed].  Those are embedded from the source.
    The operations the header only declares ([assign], [propagate],
    [backtrack], [analyze], [decide], [restart], [reduce], [search]) live in
    translation units that are not part of the sources at hand; they are
    modelled from the specification and every such definition says so. *)

From stdpp Require Import base option list.
From Stdlib Require Import ZArith Lia.

Open Scope Z_scope.

(** ** Machine integers *)

Definition INT_MIN : Z := - 2 ^ 31.
Definition INT_MAX : Z := 2 ^ 31 - 1.

(** Conversion to [unsigned] and arithmetic on [unsigned] wrap modulo 2^32;
    conversion to [size_t] wraps modulo 2^64. *)
Definition wrap32 (z : Z) : Z := z mod 2 ^ 32.
Definition wrap64 (z : Z) : Z := z mod 2 ^ 64.

Definition b2z (b : bool) : Z := if b then 1 else 0.

(** An array or vector read at a machine index: anything outside the
    allocated range is an error. *)
Definition zlookup {A : Type} (l : list A) (i : Z) : option A :=
  if i <? 0 then None else l !! Z.to_nat i.

(** An array or vector write at a machine index, with the same range check. *)
Definition zupdate {A : Type} (l : list A) (i : Z) (x : A) : option (list A) :=
  if (0 <=? i) && (i <? Z.of_nat (length l)) then Some (<[Z.to_nat i := x]> l)
  else None.

(** A clause handle: the position of the clause in the solver's ordered
    collection [clauses] (the header's [Clause *]). *)
Abbreviation handle := nat (only parsing).

(** ** Types of the included headers

    [var.hpp], [level.hpp], [watch.hpp], [clause.hpp], [queue.hpp] and
    [stats.hpp] are not among the sources; the records below carry the
    members the specification's data model gives them. *)

(** Modelled from the spec: the mark states of clause minimization kept in
    struct [Var] of [var.hpp]. *)
Inductive Mark : Type := Unmarked | Removable | Poison.

(** Modelled from the spec: struct [Var] of [var.hpp], the per-variable
    metadata: decision level, reason clause (none for decisions and root
    units), VMTF bumped time stamp with intrusive prev/next links (0 is the
    null link, variable indices start at 1), and the transient marks of
    conflict analysis. *)
Record Var : Type := mkVar {
  v_level : Z;
  v_reason : option handle;
  v_bumped : Z;
  v_prev : Z;
  v_next : Z;
  v_seen : bool;
  v_mark : Mark
}.

(** Modelled from the spec: struct [Level] of [level.hpp], one entry of the
    control stack: the trail position at which the level began and the VMTF
    search pointer at that moment. *)
Record Level : Type := mkLevel {
  l_trail : Z;
  l_search : Z
}.

(** Modelled from the spec: struct [Watch] of [watch.hpp], a pair of a
    blocking literal and a clause handle. *)
Record Watch : Type := mkWatch {
  w_blit : Z;
  w_clause : handle
}.

(** Modelled from the spec: struct [Clause] of [clause.hpp]: the ordered
    literals (the first two slots are the watched ones) and the redundant
    flag, glue, usage score, garbage flag and reason flag. *)
Record Clause : Type := mkClause {
  c_literals : list Z;
  c_redundant : bool;
  c_glue : Z;
  c_resolved : Z;
  c_garbage : bool;
  c_reason : bool
}.

(** Modelled from the spec: struct [Queue] of [queue.hpp], the variable
    move to front list: first and last variable, the search cursor and the
    time stamp counter. *)
Record Queue : Type := mkQueue {
  q_first : Z;
  q_last : Z;
  q_search : Z;
  q_bumped : Z
}.

(** Modelled from the spec: the counters of struct [Stats] of [stats.hpp]
    that the core maintains. *)
Record Stats : Type := mkStats {
  st_fixed : Z;
  st_conflicts : Z;
  st_decisions : Z;
  st_restarts : Z;
  st_reductions : Z
}.

(** The two anonymous structs [limits] and [inc] of the header; the
    [double] member [inc.unit] and the moving averages [fast_glue_avg],
    [slow_glue_avg] and [jump_avg] are floating point and stay outside the
    embedding, as do the proof sink, the options and the profiling members. *)
Record Limits : Type := mkLimits {
  lim_reduce_conflicts : Z;
  lim_reduce_resolved : Z;
  lim_reduce_fixed : Z;
  lim_restart_conflicts : Z
}.

Record Inc : Type := mkInc {
  inc_reduce : Z;
  inc_blocking : Z
}.

(** Modelled from the spec: struct [Options] of [options.hpp], with the
    integer and Boolean keys the core reads; the margins and the decay
    factors of the moving averages are [double]s and are left out. *)
Record Options : Type := mkOptions {
  opt_reduce_interval : Z;
  opt_reduce_inc : Z;
  opt_restart_interval : Z;
  opt_minimize_depth : Z;
  opt_small_glue : Z;
  opt_phase : bool;
  opt_reuse_trail : bool
}.

(** ** The solver state: the data members of [class Solver] *)

Record Solver : Type := mkSolver {
  max_var : Z;                    (* maximum variable index *)
  vtab : list Var;                (* variable table *)
  vals : list Z;                  (* current partial assignment *)
  phases : list Z;                (* saved last assignment *)
  wtab : list (list Watch);       (* table of watches for all literals *)
  queue : Queue;                  (* variable move to front decision queue *)
  unsat : bool;                   (* empty clause found or learned *)
  level : Z;                      (* decision level *)
  control : list Level;           (* 'level + 1 == levels.size ()' *)
  trail : list Z;                 (* assigned literals *)
  propagated : Z;                 (* next position on trail to propagate *)
  clause : list Z;                (* temporary clause in parsing & learning *)
  clauses : list Clause;          (* ordered collection of all clauses *)
  iterating : bool;               (* report top-level assigned variables *)
  seen : list Z;                  (* seen & bumped literals in 'analyze' *)
  levels : list Z;                (* decision levels of 1st UIP clause *)
  minimized : list Z;             (* marked removable or poison *)
  resolved : list handle;         (* large clauses in 'analyze' *)
  conflict : option handle;       (* set in 'propagation', reset in 'analyze' *)
  clashing_unit : bool;           (* set in 'parse_dimacs' *)
  limits : Limits;
  inc : Inc;
  opts : Options;
  stats : Stats
}.


(** Assignments to single members. *)

Definition set_vtab (x : list Var) (s : Solver) : Solver :=
  mkSolver (max_var s) x (vals s) (phases s) (wtab s) (queue s) (unsat s)
    (level s) (control s) (trail s) (propagated s) (clause s) (clauses s)
    (iterating s) (seen s) (levels s) (minimized s) (resolved s)
    (conflict s) (clashing_unit s) (limits s) (inc s) (opts s) (stats s).

Definition set_vals (x : list Z) (s : Solver) : Solver :=
  mkSolver (max_var s) (vtab s) x (phases s) (wtab s) (queue s) (unsat s)
    (level s) (control s) (trail s) (propagated s) (clause s) (clauses s)
    (iterating s) (seen s) (levels s) (minimized s) (resolved s)
    (conflict s) (clashing_unit s) (limits s) (inc s) (opts s) (stats s).

Definition set_phases (x : list Z) (s : Solver) : Solver :=
  mkSolver (max_var s) (vtab s) (vals s) x (wtab s) (queue s) (unsat s)
    (level s) (control s) (trail s) (propagated s) (clause s) (clauses s)
    (iterating s) (seen s) (levels s) (minimized s) (resolved s)
    (conflict s) (clashing_unit s) (limits s) (inc s) (opts s) (stats s).

Definition set_wtab (x : list (list Watch)) (s : Solver) : Solver :=
  mkSolver (max_var s) (vtab s) (vals s) (phases s) x (queue s) (unsat s)
    (level s) (control s) (trail s) (propagated s) (clause s) (clauses s)
    (iterating s) (seen s) (levels s) (minimized s) (resolved s)
    (conflict s) (clashing_unit s) (limits s) (inc s) (opts s) (stats s).

Definition set_queue (x : Queue) (s : Solver) : Solver :=
  mkSolver (max_var s) (vtab s) (vals s) (phases s) (wtab s) x (unsat s)
    (level s) (control s) (trail s) (propagated s) (clause s) (clauses s)
    (iterating s) (seen s) (levels s) (minimized s) (resolved s)
    (conflict s) (clashing_unit s) (limits s) (inc s) (opts s) (stats s).

Definition set_unsat (x : bool) (s : Solver) : Solver :=
  mkSolver (max_var s) (vtab s) (vals s) (phases s) (wtab s) (queue s) x
    (level s) (control s) (trail s) (propagated s) (clause s) (clauses s)
    (iterating s) (seen s) (levels s) (minimized s) (resolved s)
    (conflict s) (clashing_unit s) (limits s) (inc s) (opts s) (stats s).

Definition set_level (x : Z) (s : Solver) : Solver :=
  mkSolver (max_var s) (vtab s) (vals s) (phases s) (wtab s) (queue s)
    (unsat s) x (control s) (trail s) (propagated s) (clause s) (clauses s)
    (iterating s) (seen s) (levels s) (minimized s) (resolved s)
    (conflict s) (clashing_unit s) (limits s) (inc s) (opts s) (stats s).

Definition set_control (x : list Level) (s : Solver) : Solver :=
  mkSolver (max_var s) (vtab s) (vals s) (phases s) (wtab s) (queue s)
    (unsat s) (level s) x (trail s) (propagated s) (clause s) (clauses s)
    (iterating s) (seen s) (levels s) (minimized s) (resolved s)
    (conflict s) (clashing_unit s) (limits s) (inc s) (opts s) (stats s).

Definition set_trail (x : list Z) (s : Solver) : Solver :=
  mkSolver (max_var s) (vtab s) (vals s) (phases s) (wtab s) (queue s)
    (unsat s) (level s) (control s) x (propagated s) (clause s) (clauses s)
    (iterating s) (seen s) (levels s) (minimized s) (resolved s)
    (conflict s) (clashing_unit s) (limits s) (inc s) (opts s) (stats s).

Definition set_propagated (x : Z) (s : Solver) : Solver :=
  mkSolver (max_var s) (vtab s) (vals s) (phases s) (wtab s) (queue s)
    (unsat s) (level s) (control s) (trail s) x (clause s) (clauses s)
    (iterating s) (seen s) (levels s) (minimized s) (resolved s)
    (conflict s) (clashing_unit s) (limits s) (inc s) (opts s) (stats s).

Definition set_clause (x : list Z) (s : Solver) : Solver :=
  mkSolver (max_var s) (vtab s) (vals s) (phases s) (wtab s) (queue s)
    (unsat s) (level s) (control s) (trail s) (propagated s) x (clauses s)
    (iterating s) (seen s) (levels s) (minimized s) (resolved s)
    (conflict s) (clashing_unit s) (limits s) (inc s) (opts s) (stats s).

Definition set_clauses (x : list Clause) (s : Solver) : Solver :=
  mkSolver (max_var s) (vtab s) (vals s) (phases s) (wtab s) (queue s)
    (unsat s) (level s) (control s) (trail s) (propagated s) (clause s) x
    (iterating s) (seen s) (levels s) (minimized s) (resolved s)
    (conflict s) (clashing_unit s) (limits s) (inc s) (opts s) (stats s).

Definition set_iterating (x : bool) (s : Solver) : Solver :=
  mkSolver (max_var s) (vtab s) (vals s) (phases s) (wtab s) (queue s)
    (unsat s) (level s) (control s) (trail s) (propagated s) (clause s)
    (clauses s) x (seen s) (levels s) (minimized s) (resolved s)
    (conflict s) (clashing_unit s) (limits s) (inc s) (opts s) (stats s).

Definition set_seen (x : list Z) (s : Solver) : Solver :=
  mkSolver (max_var s) (vtab s) (vals s) (phases s) (wtab s) (queue s)
    (unsat s) (level s) (control s) (trail s) (propagated s) (clause s)
    (clauses s) (iterating s) x (levels s) (minimized s) (resolved s)
    (conflict s) (clashing_unit s) (limits s) (inc s) (opts s) (stats s).

Definition set_levels (x : list Z) (s : Solver) : Solver :=
  mkSolver (max_var s) (vtab s) (vals s) (phases s) (wtab s) (queue s)
    (unsat s) (level s) (control s) (trail s) (propagated s) (clause s)
    (clauses s) (iterating s) (seen s) x (minimized s) (resolved s)
    (conflict s) (clashing_unit s) (limits s) (inc s) (opts s) (stats s).

Definition set_minimized (x : list Z) (s : Solver) : Solver :=
  mkSolver (max_var s) (vtab s) (vals s) (phases s) (wtab s) (queue s)
    (unsat s) (level s) (control s) (trail s) (propagated s) (clause s)
    (clauses s) (iterating s) (seen s) (levels s) x (resolved s)
    (conflict s) (clashing_unit s) (limits s) (inc s) (opts s) (stats s).

Definition set_resolved (x : list handle) (s : Solver) : Solver :=
  mkSolver (max_var s) (vtab s) (vals s) (phases s) (wtab s) (queue s)
    (unsat s) (level s) (control s) (trail s) (propagated s) (clause s)
    (clauses s) (iterating s) (seen s) (levels s) (minimized s) x
    (conflict s) (clashing_unit s) (limits s) (inc s) (opts s) (stats s).

Definition set_conflict (x : option handle) (s : Solver) : Solver :=
  mkSolver (max_var s) (vtab s) (vals s) (phases s) (wtab s) (queue s)
    (unsat s) (level s) (control s) (trail s) (propagated s) (clause s)
    (clauses s) (iterating s) (seen s) (levels s) (minimized s) (resolved s)
    x (clashing_unit s) (limits s) (inc s) (opts s) (stats s).

Definition set_limits (x : Limits) (s : Solver) : Solver :=
  mkSolver (max_var s) (vtab s) (vals s) (phases s) (wtab s) (queue s)
    (unsat s) (level s) (control s) (trail s) (propagated s) (clause s)
    (clauses s) (iterating s) (seen s) (levels s) (minimized s) (resolved s)
    (conflict s) (clashing_unit s) x (inc s) (opts s) (stats s).

Definition set_inc (x : Inc) (s : Solver) : Solver :=
  mkSolver (max_var s) (vtab s) (vals s) (phases s) (wtab s) (queue s)
    (unsat s) (level s) (control s) (trail s) (propagated s) (clause s)
    (clauses s) (iterating s) (seen s) (levels s) (minimized s) (resolved s)
    (conflict s) (clashing_unit s) (limits s) x (opts s) (stats s).

Definition set_stats (x : Stats) (s : Solver) : Solver :=
  mkSolver (max_var s) (vtab s) (vals s) (phases s) (wtab s) (queue s)
    (unsat s) (level s) (control s) (trail s) (propagated s) (clause s)
    (clauses s) (iterating s) (seen s) (levels s) (minimized s) (resolved s)
    (conflict s) (clashing_unit s) (limits s) (inc s) (opts s) x.

(** ** The inline helpers of the header (embedded from the source)

    An assertion that fails and an access outside of a table are the
    result [None]. *)

Section Helpers.

Variable s : Solver.

(** [int vidx (int lit) const]: three assertions around [abs]. *)
Definition vidx (lit : Z) : option Z :=
  if lit =? 0 then None                       (* assert (lit) *)
  else if lit =? INT_MIN then None            (* assert (lit != INT_MIN) *)
  else
    let idx := Z.abs lit in
    if idx <=? max_var s then Some idx        (* assert (idx <= max_var) *)
    else None.

(** [unsigned vlit (int lit)]:
    [(lit < 0) + 2u * (unsigned) vidx (lit)], in [unsigned] arithmetic. *)
Definition vlit (lit : Z) : option Z :=
  idx ← vidx lit;
  Some (wrap32 (b2z (lit <? 0) + wrap32 (2 * wrap32 idx))).

(** [Var & var (int lit)]: [vtab [vidx (lit)]]. *)
Definition var (lit : Z) : option Var :=
  idx ← vidx lit; zlookup (vtab s) idx.

(** [Watches & watches (int lit)]: [wtab [vlit (lit)]]. *)
Definition watches (lit : Z) : option (list Watch) :=
  i ← vlit lit; zlookup (wtab s) i.

(** [bool satisfied () const]: [trail.size () == (size_t) max_var]. *)
Definition satisfied : bool :=
  Z.of_nat (length (trail s)) =? wrap64 (max_var s).

(** [int val (int lit)]: -1 = false, 0 = unassigned, 1 = true. *)
Definition val (lit : Z) : option Z :=
  idx ← vidx lit;
  res ← zlookup (vals s) idx;
  Some (if lit <? 0 then - res else res).

(** [int fixed (int lit)]: as [val] but restricted to the root level.
    The conjunction [res && vtab[idx].level] reads the variable table
    only when [res] is not zero. *)
Definition fixed (lit : Z) : option Z :=
  idx ← vidx lit;
  res ← zlookup (vals s) idx;
  res' ← (if res =? 0 then Some res
          else v ← zlookup (vtab s) idx;
               Some (if v_level v =? 0 then res else 0));
  Some (if lit <? 0 then - res' else res').

End Helpers.

(** [void watch_literal (int lit, int blit, Clause * c)]:
    [watches (lit).push_back (Watch (blit, c))]. *)
Definition watch_literal (lit blit : Z) (c : handle) (s : Solver)
  : option Solver :=
  i ← vlit s lit;
  ws ← zlookup (wtab s) i;
  wtab' ← zupdate (wtab s) i (ws ++ [mkWatch blit c]);
  Some (set_wtab wtab' s).

(** ** Well-formedness of the tables

    [init_variables] (not among the sources) allocates the tables; the
    helpers index [vals], [phases] and [vtab] by variable (1..max_var) and
    [wtab] by [vlit] (2..2*max_var+1).  [max_var] is an [int] counting
    variables. *)

Definition max_var_ok (s : Solver) : Prop := 0 <= max_var s <= INT_MAX.

Definition tables_ok (s : Solver) : Prop :=
  max_var_ok s ∧
  max_var s < Z.of_nat (length (vals s)) ∧
  max_var s < Z.of_nat (length (phases s)) ∧
  max_var s < Z.of_nat (length (vtab s)) ∧
  2 * max_var s + 1 < Z.of_nat (length (wtab s)).

(** The value table holds -1 (false), 0 (unassigned) or 1 (true). *)
Definition vals_ok (s : Solver) : Prop :=
  Forall (λ v, v = -1 ∨ v = 0 ∨ v = 1) (vals s).

(** The precondition of the literal helpers. *)
Definition lit_ok (s : Solver) (l : Z) : Prop :=
  l ≠ 0 ∧ l ≠ INT_MIN ∧ Z.abs l <= max_var s.


(** ** Assignment and backtracking

    [assign], [unassign] and [backtrack] are declared in the header and
    defined in [propagate.cpp] and [backtrack.cpp], which are not among the
    sources. *)

Definition var_assigned (lvl : Z) (r : option handle) (v : Var) : Var :=
  mkVar lvl r (v_bumped v) (v_prev v) (v_next v) (v_seen v) (v_mark v).

Definition stats_inc_fixed (st : Stats) : Stats :=
  mkStats (st_fixed st + 1) (st_conflicts st) (st_decisions st)
          (st_restarts st) (st_reductions st).

(** Modelled from the spec: [assign (lit, reason)] of [propagate.cpp].
    It requires [val (lit)] to be unassigned, sets the value, records the
    current level, the reason and the phase, appends the literal to the
    trail and, at level 0, increments the counter of fixed variables. *)
Definition assign (lit : Z) (reason : option handle) (s : Solver)
  : option Solver :=
  idx ← vidx s lit;
  cur ← val s lit;
  if negb (cur =? 0) then None else
  v ← zlookup (vtab s) idx;
  let sign := if lit <? 0 then -1 else 1 in
  vals' ← zupdate (vals s) idx sign;
  phases' ← zupdate (phases s) idx sign;
  vtab' ← zupdate (vtab s) idx (var_assigned (level s) reason v);
  let st := if level s =? 0 then stats_inc_fixed (stats s) else stats s in
  Some (set_stats st (set_trail (trail s ++ [lit])
         (set_vtab vtab' (set_phases phases' (set_vals vals' s))))).

Definition queue_set_search (idx : Z) (q : Queue) : Queue :=
  mkQueue (q_first q) (q_last q) idx (q_bumped q).

(** Modelled from the spec: [unassign (lit)] of [backtrack.cpp].  It clears
    the value of the variable and keeps its phase; if the variable's time
    stamp is newer than that of the variable under the search cursor of
    the queue, the cursor moves to the variable. *)
Definition unassign (lit : Z) (s : Solver) : option Solver :=
  idx ← vidx s lit;
  v ← zlookup (vtab s) idx;
  c ← zlookup (vtab s) (q_search (queue s));
  vals' ← zupdate (vals s) idx 0;
  let q := if v_bumped c <? v_bumped v
           then queue_set_search idx (queue s) else queue s in
  Some (set_queue q (set_vals vals' s)).

(** Modelled from the spec: the loop of [backtrack]: [unassign] applied to
    a run of literals, first to last. *)
Fixpoint unassign_all (lits : list Z) (s : Solver) : option Solver :=
  match lits with
  | [] => Some s
  | lit :: rest => s1 ← unassign lit s; unassign_all rest s1
  end.

(** Modelled from the spec: the boundary of the target level in
    [backtrack], the trail position above which literals are removed:
    the position at which level [target + 1] began, or the end of the
    trail when [target] is the current level. *)
Definition backtrack_boundary (target : Z) (s : Solver) : option Z :=
  if target =? level s then Some (Z.of_nat (length (trail s)))
  else L ← zlookup (control s) (target + 1); Some (l_trail L).

(** Modelled from the spec: [backtrack (target_level)] of [backtrack.cpp].
    The target has to be one of the levels 0 .. [level].  Every literal of
    the trail above the boundary of the target level is unassigned, from
    the top of the trail down; trail and control stack are truncated,
    [propagated] is reset to the new end of the trail and [conflict] is
    cleared. *)
Definition backtrack (target : Z) (s : Solver) : option Solver :=
  if (target <? 0) || (level s <? target) then None else
  b ← backtrack_boundary target s;
  if (b <? 0) || (Z.of_nat (length (trail s)) <? b) then None else
  let keep := Z.to_nat b in
  s1 ← unassign_all (reverse (drop keep (trail s))) s;
  Some (set_conflict None
         (set_propagated b
           (set_level target
             (set_control (take (Z.to_nat (target + 1)) (control s1))
               (set_trail (take keep (trail s1)) s1))))).

(** ** Propagation ([propagate.cpp], not among the sources) *)

Definition clause_set_literals (lits : list Z) (c : Clause) : Clause :=
  mkClause lits (c_redundant c) (c_glue c) (c_resolved c) (c_garbage c)
           (c_reason c).

(** Store new literals into the clause with handle [h]. *)
Definition store_literals (h : handle) (lits : list Z) (s : Solver) : Solver :=
  set_clauses (alter (clause_set_literals lits) h (clauses s)) s.

(** Modelled from the spec: step 4 of the propagator, the scan of
    [C[2..]] for a literal [k] with [val (k) ≠ false]; the result is the
    position of [k] in [C[2..]] together with [k]. *)
Fixpoint find_replacement (s : Solver) (lits : list Z) (pos : nat)
  : option (option (nat * Z)) :=
  match lits with
  | [] => Some None
  | k :: rest =>
      v ← val s k;
      if v <? 0 then find_replacement s rest (S pos) else Some (Some (pos, k))
  end.

(** Modelled from the spec: the scan of the watches of [¬l] for a newly
    assigned literal [l], steps 1 to 5 of the propagator.  [nl] is [¬l].
    The result is [false] on a conflict, the watches that stay in the list
    of [¬l], and the new state. *)
Fixpoint propagate_watches (nl : Z) (ws : list Watch) (s : Solver)
  : option (bool * list Watch * Solver) :=
  match ws with
  | [] => Some (true, [], s)
  | w :: rest =>
      b ← val s (w_blit w);
      if 0 <? b then
        (* 1: the blocking literal is true, the watch stays unchanged *)
        '(ok, kept, s') ← propagate_watches nl rest s;
        Some (ok, w :: kept, s')
      else
        c ← clauses s !! w_clause w;
        if c_garbage c then
          (* 2: a garbage clause, the watch is dropped *)
          propagate_watches nl rest s
        else
          match c_literals c with
          | x0 :: x1 :: tl =>
              (* 2: ensure C[0] is the other watch and C[1] is ¬l *)
              let c0 := if x0 =? nl then x1 else x0 in
              let c1 := if x0 =? nl then x0 else x1 in
              let s0 := store_literals (w_clause w) (c0 :: c1 :: tl) s in
              u ← val s0 c0;
              if 0 <? u then
                (* 3: the other watch is true and becomes the blocking
                   literal *)
                '(ok, kept, s') ← propagate_watches nl rest s0;
                Some (ok, mkWatch c0 (w_clause w) :: kept, s')
              else
                r ← find_replacement s0 tl 0;
                match r with
                | Some (i, k) =>
                    (* 4: k replaces C[1] and is watched from now on, this
                       watch is dropped *)
                    let s1 := store_literals (w_clause w)
                                (c0 :: k :: <[i := c1]> tl) s0 in
                    s2 ← watch_literal k c0 (w_clause w) s1;
                    propagate_watches nl rest s2
                | None =>
                    if u <? 0 then
                      (* 5: all literals are false, a conflict; the watch
                         stays and the scan stops *)
                      Some (false, w :: rest,
                            set_conflict (Some (w_clause w)) s0)
                    else
                      (* 5: C[0] is unit, assigned with reason C *)
                      s1 ← assign c0 (Some (w_clause w)) s0;
                      '(ok, kept, s') ← propagate_watches nl rest s1;
                      Some (ok, w :: kept, s')
                end
          | _ => None
          end
  end.

(** Modelled from the spec: the body of the loop of [propagate] for one
    literal: the watches of [¬lit] are scanned and the list is replaced by
    the watches that were kept. *)
Definition propagate_literal (lit : Z) (s : Solver) : option (bool * Solver) :=
  i ← vlit s (- lit);
  ws ← zlookup (wtab s) i;
  '(ok, kept, s1) ← propagate_watches (- lit) ws s;
  wtab' ← zupdate (wtab s1) i kept;
  Some (ok, set_wtab wtab' s1).

(** Modelled from the spec: the loop of [propagate]: while [propagated] is
    below the end of the trail, the literal at [propagated] is taken,
    [propagated] moves on and the watches of the literal are scanned; a
    conflict ends the loop with [false]. *)
Fixpoint propagate_loop (fuel : nat) (s : Solver) : option (bool * Solver) :=
  if propagated s <? Z.of_nat (length (trail s)) then
    match fuel with
    | O => None
    | S fuel' =>
        lit ← zlookup (trail s) (propagated s);
        match propagate_literal lit (set_propagated (propagated s + 1) s) with
        | Some (true, s1) => propagate_loop fuel' s1
        | Some (false, s1) => Some (false, s1)
        | None => None
        end
    end
  else Some (true, s).

(** Every round of the loop takes one literal from the part of the trail
    not yet propagated, and that part only grows by assigning a variable
    that was unassigned: the unassigned variables and the pending literals
    bound the number of rounds. *)
Definition unassigned_count (s : Solver) : nat :=
  length (filter (λ v, v = 0) (vals s)).

Definition propagate_fuel (s : Solver) : nat :=
  (unassigned_count s +
   (length (trail s) - Z.to_nat (propagated s)))%nat.

(** Modelled from the spec: [bool propagate ()] of [propagate.cpp].  It
    advances [propagated] through the trail until it equals
    [trail.size ()]; it returns true on clean exhaustion and false on a
    conflict. *)
Definition propagate (s : Solver) : option (bool * Solver) :=
  propagate_loop (propagate_fuel s) s.

(** ** The variable move to front queue ([queue.hpp], not among the sources) *)

Definition var_set_links (prev next : Z) (v : Var) : Var :=
  mkVar (v_level v) (v_reason v) (v_bumped v) prev next (v_seen v) (v_mark v).

Definition var_set_bumped (b : Z) (v : Var) : Var :=
  mkVar (v_level v) (v_reason v) b (v_prev v) (v_next v) (v_seen v) (v_mark v).

Definition var_set_seen (b : bool) (v : Var) : Var :=
  mkVar (v_level v) (v_reason v) (v_bumped v) (v_prev v) (v_next v) b
        (v_mark v).

Definition var_set_mark (m : Mark) (v : Var) : Var :=
  mkVar (v_level v) (v_reason v) (v_bumped v) (v_prev v) (v_next v)
        (v_seen v) m.

Definition var_set_reason (r : option handle) (v : Var) : Var :=
  mkVar (v_level v) r (v_bumped v) (v_prev v) (v_next v) (v_seen v)
        (v_mark v).

(** An update of one entry of the variable table. *)
Definition update_var (idx : Z) (f : Var → Var) (s : Solver) : option Solver :=
  v ← zlookup (vtab s) idx;
  vtab' ← zupdate (vtab s) idx (f v);
  Some (set_vtab vtab' s).

(** Modelled from the spec: the first half of [bump]: unlink the variable
    [idx] from the doubly linked list. *)
Definition dequeue (idx : Z) (s : Solver) : option Solver :=
  v ← zlookup (vtab s) idx;
  s1 ← (if v_prev v =? 0
        then Some (set_queue (mkQueue (v_next v) (q_last (queue s))
                                (q_search (queue s)) (q_bumped (queue s))) s)
        else update_var (v_prev v)
               (λ p, var_set_links (v_prev p) (v_next v) p) s);
  if v_next v =? 0
  then Some (set_queue (mkQueue (q_first (queue s1)) (v_prev v)
                          (q_search (queue s1)) (q_bumped (queue s1))) s1)
  else update_var (v_next v) (λ n, var_set_links (v_prev v) (v_next n) n) s1.

(** Modelled from the spec: the second half of [bump]: link the variable
    [idx] at the head, the end of the newest time stamps. *)
Definition enqueue (idx : Z) (s : Solver) : option Solver :=
  let last := q_last (queue s) in
  s1 ← update_var idx (var_set_links last 0) s;
  s2 ← (if last =? 0
        then Some (set_queue (mkQueue idx (q_last (queue s1))
                                (q_search (queue s1)) (q_bumped (queue s1))) s1)
        else update_var last (λ p, var_set_links (v_prev p) idx p) s1);
  Some (set_queue (mkQueue (q_first (queue s2)) idx (q_search (queue s2))
                     (q_bumped (queue s2))) s2).

(** Modelled from the spec: [bump (v)]: unlink [v], give it the next time
    stamp and relink it at the head. *)
Definition bump (idx : Z) (s : Solver) : option Solver :=
  s1 ← dequeue idx s;
  let b := q_bumped (queue s1) + 1 in
  s2 ← update_var idx (var_set_bumped b) s1;
  s3 ← enqueue idx s2;
  Some (set_queue (mkQueue (q_first (queue s3)) (q_last (queue s3))
                     (q_search (queue s3)) b) s3).

(** Modelled from the spec: the walk of the cursor towards older time
    stamps, past assigned variables; the list has at most [max_var]
    members. *)
Fixpoint next_unassigned (fuel : nat) (idx : Z) (s : Solver) : option Z :=
  match fuel with
  | O => None
  | S fuel' =>
      x ← val s idx;
      if x =? 0 then Some idx
      else v ← zlookup (vtab s) idx; next_unassigned fuel' (v_prev v) s
  end.

(** Modelled from the spec: [next_decision_variable ()] of [decide.cpp]:
    the cursor walks backward until it is at an unassigned variable. *)
Definition next_decision_variable (s : Solver) : option (Z * Solver) :=
  idx ← next_unassigned (Z.to_nat (max_var s)) (q_search (queue s)) s;
  Some (idx, set_queue (queue_set_search idx (queue s)) s).

Definition stats_inc_decisions (st : Stats) : Stats :=
  mkStats (st_fixed st) (st_conflicts st) (st_decisions st + 1)
          (st_restarts st) (st_reductions st).

(** Modelled from the spec: the opening of a decision level in [decide]:
    the control stack gets an entry with the current end of the trail
    and the search cursor. *)
Definition new_level (s : Solver) : Solver :=
  set_control (control s ++ [mkLevel (Z.of_nat (length (trail s)))
                                     (q_search (queue s))])
    (set_level (level s + 1) s).

(** Modelled from the spec: [decide ()] of [decide.cpp]: the next decision
    variable is assigned, at a new decision level and without a reason, to
    its saved phase. *)
Definition decide (s : Solver) : option Solver :=
  '(idx, s1) ← next_decision_variable s;
  ph ← zlookup (phases s1) idx;
  let lit := if ph <? 0 then - idx else idx in
  assign lit None (set_stats (stats_inc_decisions (stats s1)) (new_level s1)).

(** ** Conflict analysis ([analyze.cpp], not among the sources) *)

(** Modelled from the spec: the level set of the analysis, kept in the
    member [levels]: a level is added unless it is a member already. *)
Definition add_level (l : Z) (ls : list Z) : list Z :=
  if bool_decide (l ∈ ls) then ls else ls ++ [l].

(** Modelled from the spec: step 2 of the analysis for one literal [q] of
    the clause being resolved.  A variable seen before is left alone;
    otherwise it is marked seen and bumped, and either counted as open
    (the result [true]) when its level is the current decision level, or
    its literal joins the learned clause and its level the level set. *)
Definition analyze_literal (q : Z) (s : Solver) : option (bool * Solver) :=
  idx ← vidx s q;
  v ← zlookup (vtab s) idx;
  if v_seen v then Some (false, s) else
  s1 ← update_var idx (var_set_seen true) s;
  s2 ← bump idx (set_seen (seen s1 ++ [q]) s1);
  if v_level v =? level s then Some (true, s2)
  else Some (false, set_levels (add_level (v_level v) (levels s2))
                      (set_clause (clause s2 ++ [q]) s2)).

(** Modelled from the spec: step 2 for all literals of a clause; the
    result counts the literals that became open. *)
Fixpoint resolve_literals (lits : list Z) (s : Solver) : option (Z * Solver) :=
  match lits with
  | [] => Some (0, s)
  | q :: rest =>
      '(b, s1) ← analyze_literal q s;
      '(n, s2) ← resolve_literals rest s1;
      Some (b2z b + n, s2)
  end.

(** Modelled from the spec: [resolve_clause]: the literals of the clause
    with handle [h] are analyzed; a learned clause is remembered in
    [resolved]. *)
Definition resolve_clause (h : handle) (s : Solver) : option (Z * Solver) :=
  c ← clauses s !! h;
  resolve_literals (c_literals c)
    (if c_redundant c then set_resolved (resolved s ++ [h]) s else s).

(** Modelled from the spec: step 3 of the analysis.  [rtrail] is the part
    of the trail still to walk, top first.  Unseen variables are skipped;
    at a seen literal [p] the counter [open] is decremented; at 0 the
    literal is the UIP, otherwise the reason of [p] is resolved. *)
Fixpoint analyze_loop (rtrail : list Z) (open : Z) (s : Solver)
  : option (Z * Solver) :=
  match rtrail with
  | [] => None
  | p :: rest =>
      v ← var s p;
      if negb (v_seen v) then analyze_loop rest open s
      else if open - 1 =? 0 then Some (p, s)
      else
        h ← v_reason v;
        '(n, s1) ← resolve_clause h s;
        analyze_loop rest (open - 1 + n) s1
  end.

(** Modelled from the spec: step 4, the backjump level: the maximum of the
    levels of the given literals, 0 if there is none. *)
Fixpoint max_level (lits : list Z) (s : Solver) : option Z :=
  match lits with
  | [] => Some 0
  | l :: rest => v ← var s l; m ← max_level rest s; Some (Z.max (v_level v) m)
  end.

(** Modelled from the spec: step 5, [minimize_literal]: the depth limited
    search over reasons with the marks removable and poison.  [top] tells
    that [lit] is a literal of the learned clause itself; [fuel] is the
    depth that remains. *)
Fixpoint minimize_literal (fuel : nat) (top : bool) (lit : Z) (s : Solver)
  : option (bool * Solver) :=
  v ← var s lit;
  if v_level v =? 0 then Some (true, s) else
  match v_mark v with
  | Removable => Some (true, s)
  | Poison => Some (false, s)
  | Unmarked =>
      if negb top && v_seen v then Some (true, s) else
      match v_reason v, fuel with
      | None, _ => Some (false, s)
      | Some _, O => Some (false, s)
      | Some h, S fuel' =>
          c ← clauses s !! h;
          '(res, s1) ←
            (fix others (lits : list Z) (s : Solver) : option (bool * Solver) :=
               match lits with
               | [] => Some (true, s)
               | o :: rest =>
                   if Z.abs o =? Z.abs lit then others rest s
                   else
                     '(r, s1) ← minimize_literal fuel' false o s;
                     if r : bool then others rest s1 else Some (false, s1)
               end) (c_literals c) s;
          s2 ← update_var (Z.abs lit)
                 (var_set_mark (if res : bool then Removable else Poison)) s1;
          Some (res, set_minimized (minimized s2 ++ [lit]) s2)
      end
  end.

(** Modelled from the spec: step 5, [minimize_clause]: the literals of the
    learned clause other than the first that are found removable are
    dropped. *)
Fixpoint minimize_literals (lits : list Z) (s : Solver)
  : option (list Z * Solver) :=
  match lits with
  | [] => Some ([], s)
  | l :: rest =>
      '(r, s1) ← minimize_literal (Z.to_nat (opt_minimize_depth (opts s)))
                   true l s;
      '(kept, s2) ← minimize_literals rest s1;
      Some (if r : bool then kept else l :: kept, s2)
  end.

(** The same update of the variables of a list of literals. *)
Fixpoint update_vars (lits : list Z) (f : Var → Var) (s : Solver)
  : option Solver :=
  match lits with
  | [] => Some s
  | l :: rest => s1 ← update_var (Z.abs l) f s; update_vars rest f s1
  end.

(** Modelled from the spec: step 5, [minimize_clause]: the first literal
    stays, the others are minimized, and the marks set on the way are
    cleared. *)
Definition minimize_clause (s : Solver) : option Solver :=
  match clause s with
  | [] => Some s
  | first :: rest =>
      '(kept, s1) ← minimize_literals rest s;
      s2 ← update_vars (minimized s1) (var_set_mark Unmarked) s1;
      Some (set_minimized [] (set_clause (first :: kept) s2))
  end.

(** Modelled from the spec: step 6, the distinct decision levels among the
    given literals, gathered into a level set. *)
Fixpoint collect_levels (lits : list Z) (acc : list Z) (s : Solver)
  : option (list Z) :=
  match lits with
  | [] => Some acc
  | l :: rest => v ← var s l; collect_levels rest (add_level (v_level v) acc) s
  end.

(** Modelled from the spec: step 7, [clear_levels] and the reset of the
    seen marks. *)
Definition clear_seen_and_levels (s : Solver) : option Solver :=
  s1 ← update_vars (seen s) (var_set_seen false) s;
  Some (set_resolved [] (set_levels [] (set_seen [] s1))).

(** Modelled from the spec: the outcome of steps 1 to 6: the UIP, the
    backjump level and the glue; the learned clause is in the member
    [clause] of the state. *)
Record Learned : Type := mkLearned {
  ln_uip : Z;
  ln_jump : Z;
  ln_glue : Z
}.

(** Modelled from the spec: steps 1 to 6 of the analysis.  It starts from
    the conflict with an empty learned clause and walks the trail
    backward from its top; the negated UIP becomes the first literal; the
    backjump level is the maximum level of the other literals; the
    clause is minimized; the glue is the number of distinct levels among
    the literals of the clause. *)
Definition analyze_learn (s : Solver) : option (Learned * Solver) :=
  h ← conflict s;
  '(n, s1) ← resolve_clause h (set_levels [] (set_clause [] s));
  '(uip, s2) ← analyze_loop (reverse (trail s1)) n s1;
  jump ← max_level (clause s2) s2;
  s3 ← minimize_clause (set_clause (- uip :: clause s2) s2);
  ls ← collect_levels (clause s3) [] s3;
  Some (mkLearned uip jump (Z.of_nat (length ls)), set_levels ls s3).

Definition stats_inc_conflicts (st : Stats) : Stats :=
  mkStats (st_fixed st) (st_conflicts st + 1) (st_decisions st)
          (st_restarts st) (st_reductions st).

(** Modelled from the spec: [new_clause (red, glue)] of [clause.cpp]: the
    temporary [clause] is allocated in the clause store; the handle of the
    new clause is its position at the end of the collection. *)
Definition new_clause (red : bool) (glue : Z) (s : Solver) : handle * Solver :=
  (length (clauses s),
   set_clauses (clauses s ++ [mkClause (clause s) red glue 0 false false]) s).

(** Modelled from the spec: [new_learned_clause (glue)] of [clause.cpp]. *)
Definition new_learned_clause (glue : Z) (s : Solver) : handle * Solver :=
  new_clause true glue s.

(** Modelled from the spec: [watch_clause] of [clause.cpp]: a clause is
    watched by its first two literals, each the blocking literal of the
    other. *)
Definition watch_clause (h : handle) (s : Solver) : option Solver :=
  c ← clauses s !! h;
  match c_literals c with
  | l0 :: l1 :: _ =>
      s1 ← watch_literal l0 l1 h s; watch_literal l1 l0 h s1
  | _ => None
  end.

(** Modelled from the spec: [learn_empty_clause] sets [unsat]. *)
Definition learn_empty_clause (s : Solver) : Solver := set_unsat true s.

(** Modelled from the spec: [learn_unit_clause]: a unit is recorded as a
    root assignment: backjump to level 0, assign with null reason. *)
Definition learn_unit_clause (lit : Z) (s : Solver) : option Solver :=
  s1 ← backtrack 0 s;
  s2 ← assign lit None s1;
  Some (set_iterating true s2).

(** Modelled from the spec: [analyze ()] of [analyze.cpp].  After steps 1
    to 7 the learned clause is installed: an empty clause sets [unsat], a
    unit becomes a root assignment, a longer clause is allocated with its
    glue, watched, and after the backjump its first literal is assigned
    with the clause as reason.  [conflict] is reset. *)
Definition analyze (s : Solver) : option Solver :=
  '(ln, s1) ← analyze_learn s;
  s2 ← clear_seen_and_levels s1;
  let s3 := set_conflict None
              (set_stats (stats_inc_conflicts (stats s2)) s2) in
  s4 ← match clause s3 with
       | [] => Some (learn_empty_clause s3)
       | [u] => learn_unit_clause u s3
       | _ :: _ :: _ =>
           let '(h, s4) := new_learned_clause (ln_glue ln) s3 in
           s5 ← watch_clause h s4;
           s6 ← backtrack (ln_jump ln) s5;
           assign (- ln_uip ln) (Some h) s6
       end;
  Some (set_clause [] s4).

(** ** Restarts ([restart.cpp], not among the sources) *)

Definition stats_inc_restarts (st : Stats) : Stats :=
  mkStats (st_fixed st) (st_conflicts st) (st_decisions st)
          (st_restarts st + 1) (st_reductions st).

(** Modelled from the spec: the scan of [reuse_trail] over the levels from
    [k + 1] on: the levels whose decision variable is preferred to the
    variable with time stamp [b]. *)
Fixpoint reuse_trail_from (ctrl : list Level) (k b : Z) (s : Solver)
  : option Z :=
  match ctrl with
  | [] => Some k
  | L :: rest =>
      d ← zlookup (trail s) (l_trail L);
      v ← var s d;
      if b <? v_bumped v then reuse_trail_from rest (k + 1) b s else Some k
  end.

(** Modelled from the spec: [reuse_trail ()] of [restart.cpp]: the deepest
    level [k] such that the next decision variable is not more preferred
    than any variable decided at the levels up to [k]; 0 without reuse. *)
Definition reuse_trail (s : Solver) : option Z :=
  if opt_reuse_trail (opts s) then
    '(idx, _) ← next_decision_variable s;
    v ← zlookup (vtab s) idx;
    reuse_trail_from (tail (control s)) 0 (v_bumped v) s
  else Some 0.

Definition limits_set_restart (x : Z) (l : Limits) : Limits :=
  mkLimits (lim_reduce_conflicts l) (lim_reduce_resolved l)
           (lim_reduce_fixed l) x.

(** Modelled from the spec: [restart ()] of [restart.cpp]: backtrack to the
    level [reuse_trail ()] gives and move the restart limit on by the
    configured interval. *)
Definition restart (s : Solver) : option Solver :=
  k ← reuse_trail s;
  s1 ← backtrack k s;
  Some (set_limits (limits_set_restart
                      (st_conflicts (stats s1) + opt_restart_interval (opts s1))
                      (limits s1))
         (set_stats (stats_inc_restarts (stats s1)) s1)).

(** ** Reduction of the clause data base ([reduce.cpp], not among the
    sources) *)

Definition clause_set_flags (garbage reason : bool) (c : Clause) : Clause :=
  mkClause (c_literals c) (c_redundant c) (c_glue c) (c_resolved c)
           garbage reason.

Definition clause_mark_garbage (c : Clause) : Clause :=
  clause_set_flags true (c_reason c) c.

Definition mark_garbage (h : handle) (s : Solver) : Solver :=
  set_clauses (alter clause_mark_garbage h (clauses s)) s.

(** The handles of the clauses that are the reason of a literal on the
    trail. *)
Definition reason_handles (s : Solver) : list handle :=
  omap (λ l, v ← var s l; v_reason v) (trail s).

(** Modelled from the spec: [protect_reasons]: every clause referenced as
    a reason on the trail gets its reason flag and loses its garbage
    flag. *)
Definition protect_reasons (s : Solver) : Solver :=
  set_clauses (foldr (alter (clause_set_flags false true)) (clauses s)
                 (reason_handles s)) s.

(** Modelled from the spec: [unprotect_reasons]: the reason flags set for
    the reduction are cleared. *)
Definition unprotect_reasons (s : Solver) : Solver :=
  set_clauses ((λ c, clause_set_flags (c_garbage c) false c) <$> clauses s) s.

(** Modelled from the spec: [clause_contains_fixed_literal]: 1 if a
    literal is true at the root level, otherwise -1 if a literal is false
    at the root level, otherwise 0. *)
Fixpoint clause_contains_fixed_literal (lits : list Z) (s : Solver)
  : option Z :=
  match lits with
  | [] => Some 0
  | l :: rest =>
      f ← fixed s l;
      r ← clause_contains_fixed_literal rest s;
      Some (if 0 <? f then 1 else if 0 <? r then 1
            else if f <? 0 then -1 else r)
  end.

(** Modelled from the spec: [flush_falsified_literals]: the literals that
    are false at the root level are removed. *)
Fixpoint flush_falsified_literals (lits : list Z) (s : Solver)
  : option (list Z) :=
  match lits with
  | [] => Some []
  | l :: rest =>
      f ← fixed s l;
      r ← flush_falsified_literals rest s;
      Some (if f <? 0 then r else l :: r)
  end.

(** Modelled from the spec: step 2 of the reduction for one clause.  A
    clause with a literal true at the root is marked garbage; otherwise
    its literals false at the root are removed; what shrinks to one
    literal becomes a root assignment, what shrinks to none sets
    [unsat]. *)
Definition flush_clause (h : handle) (s : Solver) : option Solver :=
  c ← clauses s !! h;
  if c_garbage c then Some s else
  f ← clause_contains_fixed_literal (c_literals c) s;
  if 0 <? f then Some (mark_garbage h s)
  else if f <? 0 then
    lits ← flush_falsified_literals (c_literals c) s;
    match lits with
    | [] => Some (set_unsat true (mark_garbage h s))
    | [u] => learn_unit_clause u (mark_garbage h s)
    | _ :: _ :: _ => Some (store_literals h lits s)
    end
  else Some s.

(** Step 2 for the clauses with the given handles, in order. *)
Fixpoint flush_clauses (hs : list handle) (s : Solver) : option Solver :=
  match hs with
  | [] => Some s
  | h :: rest => s1 ← flush_clause h s; flush_clauses rest s1
  end.

(** Modelled from the spec: step 2 of the reduction,
    [mark_satisfied_clauses_as_garbage], over all clauses of the store. *)
Definition mark_satisfied_clauses_as_garbage (s : Solver) : option Solver :=
  flush_clauses (seq 0 (length (clauses s))) s.

(** Modelled from the spec: the order of step 3: smaller glue first,
    among equal glue the higher usage score first. *)
Definition clause_better (a b : Clause) : bool :=
  (c_glue a <? c_glue b) ||
  ((c_glue a =? c_glue b) && (c_resolved b <=? c_resolved a)).

(** Sorting by insertion in that order. *)
Fixpoint insert_sorted (x : handle * Clause) (l : list (handle * Clause))
  : list (handle * Clause) :=
  match l with
  | [] => [x]
  | y :: rest =>
      if clause_better x.2 y.2 then x :: l else y :: insert_sorted x rest
  end.

Definition sort_clauses (l : list (handle * Clause)) : list (handle * Clause) :=
  foldr insert_sorted [] l.

(** The learned clauses that are not garbage, with their handles. *)
Definition reduce_candidates (cs : list Clause) : list (handle * Clause) :=
  filter (λ hc, c_redundant hc.2 = true ∧ c_garbage hc.2 = false)
         (zip (seq 0 (length cs)) cs).

(** Modelled from the spec: step 3,
    [mark_useless_redundant_clauses_as_garbage]: the learned clauses are
    sorted, the better half is kept, and of the rest every clause is
    marked garbage that has a glue above the small glue threshold and is
    not a reason. *)
Definition mark_useless_redundant_clauses_as_garbage (s : Solver) : Solver :=
  let sorted := sort_clauses (reduce_candidates (clauses s)) in
  let n := length sorted in
  let useless :=
    filter (λ hc, opt_small_glue (opts s) < c_glue hc.2 ∧ c_reason hc.2 = false)
           (drop (n - n / 2)%nat sorted) in
  set_clauses (foldr (λ hc, alter clause_mark_garbage hc.1) (clauses s) useless)
    s.

(** A watch of a clause that is in the store and not garbage. *)
Definition watch_live (cs : list Clause) (w : Watch) : bool :=
  match cs !! w_clause w with
  | Some c => negb (c_garbage c)
  | None => false
  end.

(** Modelled from the spec: step 4, [flush_watches]: the watches of
    garbage clauses are dropped. *)
Definition flush_watches (s : Solver) : Solver :=
  set_wtab ((λ ws, filter (λ w, watch_live (clauses s) w = true) ws)
              <$> wtab s) s.

(** Modelled from the spec: the rewriting of handles in step 5: the handle
    of a clause after compaction is the number of clauses before it that
    stay; a garbage clause has none. *)
Definition new_handle (cs : list Clause) (h : handle) : option handle :=
  c ← cs !! h;
  if c_garbage c then None
  else Some (length (filter (λ c, c_garbage c = false) (take h cs))).

Definition rewrite_handle (cs : list Clause) (r : option handle)
  : option handle :=
  match r with
  | Some h => new_handle cs h
  | None => None
  end.

Definition rewrite_watches (cs : list Clause) (ws : list Watch) : list Watch :=
  omap (λ w, match new_handle cs (w_clause w) with
             | Some h => Some (mkWatch (w_blit w) h)
             | None => None
             end) ws.

Definition rewrite_reason (cs : list Clause) (v : Var) : Var :=
  var_set_reason (rewrite_handle cs (v_reason v)) v.

(** Modelled from the spec: step 5, [garbage_collection]: the garbage
    clauses are dropped from the store and every handle that survives (in
    watches, reasons and [conflict]) is rewritten. *)
Definition garbage_collection (s : Solver) : Solver :=
  let cs := clauses s in
  set_conflict (rewrite_handle cs (conflict s))
    (set_wtab (rewrite_watches cs <$> wtab s)
      (set_vtab (rewrite_reason cs <$> vtab s)
        (set_clauses (filter (λ c, c_garbage c = false) cs) s))).

(** [watch_clause] for the clauses with the given handles that are not
    garbage and have two literals. *)
Fixpoint watch_clauses (hs : list handle) (s : Solver) : option Solver :=
  match hs with
  | [] => Some s
  | h :: rest =>
      c ← clauses s !! h;
      if c_garbage c || (length (c_literals c) <? 2)%nat
      then watch_clauses rest s
      else s1 ← watch_clause h s; watch_clauses rest s1
  end.

(** Modelled from the spec: step 6, [setup_watches]: the full rebuild of
    the watch lists from the clauses that are left. *)
Definition setup_watches (s : Solver) : option Solver :=
  watch_clauses (seq 0 (length (clauses s)))
    (set_wtab (replicate (length (wtab s)) []) s).

Definition stats_inc_reductions (st : Stats) : Stats :=
  mkStats (st_fixed st) (st_conflicts st) (st_decisions st)
          (st_restarts st) (st_reductions st + 1).

Definition limits_set_reduce (x : Z) (l : Limits) : Limits :=
  mkLimits x (lim_reduce_resolved l) (lim_reduce_fixed l)
           (lim_restart_conflicts l).

(** Modelled from the spec: [reducing ()]: the conflicts have reached the
    reduce limit. *)
Definition reducing (s : Solver) : bool :=
  lim_reduce_conflicts (limits s) <=? st_conflicts (stats s).

(** Modelled from the spec: the increment of the reduce limit: it moves on
    by an interval that grows arithmetically. *)
Definition update_reduce_limit (s : Solver) : Solver :=
  let i := inc_reduce (inc s) + opt_reduce_inc (opts s) in
  set_stats (stats_inc_reductions (stats s))
    (set_limits (limits_set_reduce (st_conflicts (stats s) + i) (limits s))
      (set_inc (mkInc i (inc_blocking (inc s))) s)).

(** Modelled from the spec: [reduce ()] of [reduce.cpp]: steps 1 to 6, and
    the increment of the reduce limit. *)
Definition reduce (s : Solver) : option Solver :=
  s1 ← mark_satisfied_clauses_as_garbage (protect_reasons s);
  s2 ← setup_watches
         (garbage_collection
            (flush_watches (mark_useless_redundant_clauses_as_garbage s1)));
  Some (update_reduce_limit (unprotect_reasons s2)).

(** ** The search loop ([solver.cpp], not among the sources) *)

(** The results of [search] and [solve] as exit codes. *)
Definition SATISFIABLE : Z := 10.
Definition UNSATISFIABLE : Z := 20.
Definition UNKNOWN : Z := 0.

Section Search.

(** [restarting ()] compares the moving averages of the glue, which are
    floating point, and the termination request comes from a signal
    handler; both are parameters of the loop. *)
Variable restarting : Solver → bool.
Variable terminate_requested : Solver → bool.

(** The outcome of one round of the loop: a result, or the state for the
    next round. *)
Inductive Round : Type :=
| Return (res : Z) (s : Solver)
| Continue (s : Solver).

(** Modelled from the spec: one round of the CDCL loop of [search ()]. *)
Definition search_round (s : Solver) : option Round :=
  '(ok, s1) ← propagate s;
  if negb ok then
    if level s1 =? 0 then Some (Return UNSATISFIABLE (set_unsat true s1))
    else s2 ← analyze s1; Some (Continue s2)
  else if unsat s1 then Some (Return UNSATISFIABLE s1)
  else if satisfied s1 then Some (Return SATISFIABLE s1)
  else if terminate_requested s1 then Some (Return UNKNOWN s1)
  else if restarting s1 then s2 ← restart s1; Some (Continue s2)
  else if reducing s1 then s2 ← reduce s1; Some (Continue s2)
  else s2 ← decide s1; Some (Continue s2).

(** Modelled from the spec: [int search ()]: the loop runs until a round
    returns; [fuel] bounds the number of rounds. *)
Fixpoint search (fuel : nat) (s : Solver) : option (Z * Solver) :=
  match fuel with
  | O => None
  | S fuel' =>
      match search_round s with
      | Some (Return res s') => Some (res, s')
      | Some (Continue s') => search fuel' s'
      | None => None
      end
  end.

End Search.


(** ** Ingestion of the formula *)

(** Modelled from the spec: [add_new_original_clause ()] of [clause.cpp]
    for the literals the parser forwards: the empty clause sets [unsat]; a
    unit is materialized as a root assignment, and a unit that is already
    false is a clashing unit; a longer clause is allocated and
    watched. *)
Definition add_new_original_clause (lits : list Z) (s : Solver)
  : option Solver :=
  match lits with
  | [] => Some (learn_empty_clause s)
  | [u] =>
      x ← val s u;
      if x =? 0 then assign u None s
      else if x <? 0 then
        Some (mkSolver (max_var s) (vtab s) (vals s) (phases s) (wtab s)
                (queue s) (unsat s) (level s) (control s) (trail s)
                (propagated s) (clause s) (clauses s) (iterating s) (seen s)
                (levels s) (minimized s) (resolved s) (conflict s) true
                (limits s) (inc s) (opts s) (stats s))
      else Some s
  | _ :: _ :: _ =>
      let '(h, s1) := new_clause false 0 (set_clause lits s) in
      s2 ← watch_clause h s1;
      Some (set_clause [] s2)
  end.

(** The ingestion of a list of clauses, in order. *)
Fixpoint add_clauses (cs : list (list Z)) (s : Solver) : option Solver :=
  match cs with
  | [] => Some s
  | c :: rest => s1 ← add_new_original_clause c s; add_clauses rest s1
  end.

(** Modelled from the spec: the state [Solver ()] and [init_variables ()]
    (both not among the sources) leave before the first clause is read,
    over [n] variables: every variable unassigned with a negative saved
    phase and linked into the queue in index order, tables with a slot
    per variable and per literal, one control entry for the root level,
    no clause. *)
Definition init_var (n : Z) (idx : Z) : Var :=
  mkVar 0 None idx (idx - 1) (if idx =? n then 0 else idx + 1) false Unmarked.

Definition init_solver (n : nat) (o : Options) : Solver :=
  mkSolver (Z.of_nat n)
    ((λ i, init_var (Z.of_nat n) (Z.of_nat i)) <$> seq 0 (S n))
    (replicate (S n) 0) (replicate (S n) (-1))
    (replicate (2 * S n) [])
    (mkQueue (if n is O then 0 else 1) (Z.of_nat n) (Z.of_nat n) (Z.of_nat n))
    false 0 [mkLevel 0 (Z.of_nat n)] [] 0 [] [] false [] [] [] [] None false
    (mkLimits (opt_reduce_interval o) 0 0 (opt_restart_interval o))
    (mkInc (opt_reduce_interval o) 0) o (mkStats 0 0 0 0 0).

(** Modelled from the spec: the defaults of the options of [options.hpp]
    that the search reads. *)
Definition default_options : Options := mkOptions 2000 300 100 1000 2 false true.

(** Modelled from the spec: [int solve ()] of [solver.cpp]: a clashing
    unit is translated to immediate UNSAT, otherwise the search runs. *)
Definition solve (restarting terminate_requested : Solver → bool)
    (fuel : nat) (s : Solver) : option (Z * Solver) :=
  if clashing_unit s then Some (UNSATISFIABLE, learn_empty_clause s)
  else search restarting terminate_requested fuel s.

(** ** The steps of the solver *)

(** One step: an operation of the search loop, or the ingestion of a
    clause at the root level, that does not fail. *)
Inductive solver_step : Solver → Solver → Prop :=
| step_add_clause lits s s' :
    level s = 0 → add_new_original_clause lits s = Some s' → solver_step s s'
| step_propagate b s s' : propagate s = Some (b, s') → solver_step s s'
| step_analyze s s' : analyze s = Some s' → solver_step s s'
| step_backtrack k s s' : backtrack k s = Some s' → solver_step s s'
| step_restart s s' : restart s = Some s' → solver_step s s'
| step_reduce s s' : reduce s = Some s' → solver_step s s'
| step_decide s s' : decide s = Some s' → solver_step s s'.

(** The state before the first clause is read: the root level with its
    control entry and an empty trail. *)
Definition initial (s : Solver) : Prop :=
  level s = 0 ∧ trail s = [] ∧ ∃ q, control s = [mkLevel 0 q].

(** The states between two operations. *)
Inductive reachable : Solver → Prop :=
| reach_initial s : initial s → reachable s
| reach_step s s' : reachable s → solver_step s s' → reachable s'.

(** ** Invariants of the trail and the control stack *)

(** The decision level recorded for the variable of a literal. *)
Definition lit_level (s : Solver) (l : Z) : option Z :=
  v ← var s l; Some (v_level v).

(** The search cursor of the queue points into the variable table. *)
Definition cursor_ok (s : Solver) : Prop :=
  is_Some (zlookup (vtab s) (q_search (queue s))).

(** [starts_level s p k]: the trail position [p] is where level [k]
    began: the literals at and after [p] are those of level [k] or
    higher. *)
Definition starts_level (s : Solver) (p k : Z) : Prop :=
  ∀ (i : nat) (l : Z), trail s !! i = Some l →
    ∃ lv, lit_level s l = Some lv ∧ (p <= Z.of_nat i ↔ k <= lv).

(** The state of trail and control stack between two operations: one
    control entry per level with the root entry at position 0, the
    entries in trail order and each at the position where its level
    began; the literals of the trail are assigned, at levels up to the
    current one, and no variable is twice on the trail. *)
Record control_ok (s : Solver) : Prop := mk_control_ok {
  ck_size : Z.of_nat (length (control s)) = level s + 1;
  ck_root : ∃ L, control s !! 0%nat = Some L ∧ l_trail L = 0;
  ck_bound : ∀ (k : nat) L, control s !! k = Some L →
    0 <= l_trail L <= Z.of_nat (length (trail s));
  ck_sorted : ∀ (j k : nat) Lj Lk, (j ≤ k)%nat →
    control s !! j = Some Lj → control s !! k = Some Lk →
    l_trail Lj <= l_trail Lk;
  ck_starts : ∀ (k : nat) L, control s !! k = Some L →
    starts_level s (l_trail L) (Z.of_nat k);
  ck_levels : ∀ l, l ∈ trail s →
    ∃ lv, lit_level s l = Some lv ∧ lv <= level s;
  ck_assigned : ∀ l, l ∈ trail s →
    ∃ x, zlookup (vals s) (Z.abs l) = Some x ∧ x ≠ 0;
  ck_nodup : NoDup (Z.abs <$> trail s)
}.

(** ** Well-formedness of clauses and watches

    What the propagator dereferences: the literals of the clauses, of the
    trail and of the watches index the tables, and a watch refers to a
    clause of the store that, unless it is garbage, has its two watched
    slots. *)

Definition watch_ok (s : Solver) (w : Watch) : Prop :=
  lit_ok s (w_blit w) ∧
  ∃ c, clauses s !! w_clause w = Some c ∧
       (c_garbage c = false → (2 ≤ length (c_literals c))%nat).

Record prop_ok (s : Solver) : Prop := mk_prop_ok {
  po_tables : tables_ok s;
  po_clauses : Forall (λ c, Forall (lit_ok s) (c_literals c)) (clauses s);
  po_watches : Forall (Forall (watch_ok s)) (wtab s);
  po_trail : Forall (lit_ok s) (trail s)
}.

(** ** The part of the state the trail invariants and the monotone
    members depend on *)

Definition core (s : Solver)
  : Z * list Z * list Z * Z * list Z * list Z * bool * Z :=
  (max_var s, vals s, v_level <$> vtab s, level s, l_trail <$> control s,
   trail s, unsat s, st_fixed (stats s)).

(** Every operation is a sequence of steps of five kinds: a change
    outside of the core, an assignment, a backtrack, the opening of a
    decision level, and the raising of [unsat]. *)
Inductive evolves : Solver → Solver → Prop :=
| ev_frame s s' : core s' = core s → evolves s s'
| ev_assign lit r s s' : assign lit r s = Some s' → evolves s s'
| ev_backtrack k s s' : backtrack k s = Some s' → evolves s s'
| ev_new_level s : evolves s (new_level s)
| ev_unsat s : evolves s (set_unsat true s)
| ev_trans s1 s2 s3 : evolves s1 s2 → evolves s2 s3 → evolves s1 s3.

(** The part of the state that conflict analysis and the queue leave
    alone: they change the marks, links and time stamps of variables, the
    queue, the temporary clause and the work lists, and nothing else. *)
Definition rigid (s : Solver) :=
  (max_var s, vals s, phases s, length (vtab s), v_level <$> vtab s,
   v_reason <$> vtab s, wtab s, unsat s, level s, control s, trail s,
   propagated s, clauses s, conflict s, st_fixed (stats s)).

(** ** Well-formedness over the whole search

    Every clause of the store has its two watched slots, and
    [propagated] points into the trail or to its end. *)

Definition store_ok (s : Solver) : Prop :=
  Forall (λ c, (2 ≤ length (c_literals c))%nat) (clauses s).

Definition propagated_ok (s : Solver) : Prop :=
  0 <= propagated s <= Z.of_nat (length (trail s)).

Record wf (s : Solver) : Prop := mk_wf {
  wf_prop : prop_ok s;
  wf_store : store_ok s;
  wf_propagated : propagated_ok s
}.

(** The literals of the temporary clause index the tables. *)
Definition clause_ok (s : Solver) : Prop := Forall (lit_ok s) (clause s).

(** What well-formedness depends on. *)
Definition shape (s : Solver) :=
  (max_var s, length (vals s), length (phases s), length (vtab s), wtab s,
   c_literals <$> clauses s, trail s, propagated s).

(** The state at the head of the loop of [search]: well-formed, without
    a pending conflict, and, once [unsat] is raised, at the root level or
    propagated to the end of the trail. *)
Record loop_ok (s : Solver) : Prop := mk_loop_ok {
  lo_wf : wf s;
  lo_conflict : conflict s = None;
  lo_unsat : unsat s = true →
    level s = 0 ∨ propagated s = Z.of_nat (length (trail s))
}.

(** The invariant of the reduction: well-formed, no pending conflict, and
    at the root level or propagated to the end of the trail. *)
Definition reduce_ok (s : Solver) : Prop :=
  wf s ∧ conflict s = None ∧
  (level s = 0 ∨ propagated s = Z.of_nat (length (trail s))).

Section SearchStates.

Variable restarting : Solver → bool.
Variable terminate_requested : Solver → bool.

(** The states at the head of the loop: [search] is entered at the root
    level in a well-formed state without a pending conflict, and every
    round that does not return hands its state to the next round. *)
Inductive search_state : Solver → Prop :=
| ss_enter s :
    wf s → conflict s = None → level s = 0 → search_state s
| ss_round s s' :
    search_state s → search_round restarting terminate_requested s = Some (Continue s') → search_state s'.

End SearchStates.

(** ** Example states *)

(** A value out of a computation that is known to succeed. *)
Definition get (d : Solver) (o : option Solver) : Solver := default d o.

(** The formula of scenario S3 of the specification,
    (1 ∨ 2) ∧ (¬1 ∨ 3) ∧ (¬2 ∨ 4) ∧ (¬3 ∨ ¬4), over four variables. *)
Definition s3_clauses : list (list Z) :=
  [[1; 2]; [-1; 3]; [-2; 4]; [-3; -4]].

Definition s3_root : Solver :=
  get (init_solver 4 default_options)
      (add_clauses s3_clauses (init_solver 4 default_options)).

(** After the first decision. *)
Definition s3_decided : Solver := get s3_root (decide s3_root).

(** After the propagation of the first decision. *)
Definition s3_level1 : Solver :=
  get s3_decided (p ← propagate s3_decided; Some p.2).

(** A formula whose first conflict is learned from:
    (4 ∨ 3 ∨ 1) ∧ (4 ∨ 3 ∨ ¬1).  The decisions ¬4 and ¬3 force 1 by the
    first clause and falsify the second. *)
Definition uip_clauses : list (list Z) := [[4; 3; 1]; [4; 3; -1]].

Definition uip_root : Solver :=
  get (init_solver 4 default_options)
      (add_clauses uip_clauses (init_solver 4 default_options)).

Definition uip_level1 : Solver :=
  get uip_root (s ← decide uip_root; p ← propagate s; Some p.2).

Definition uip_decided : Solver := get uip_level1 (decide uip_level1).

(** The state with the conflict at level 2. *)
Definition uip_conflict : Solver :=
  get uip_decided (p ← propagate uip_decided; Some p.2).

(** The state after the analysis of that conflict. *)
Definition uip_learned : Solver := get uip_conflict (analyze uip_conflict).

(** A formula with the empty clause: [unsat] is raised before the search
    begins. *)
Definition empty_clause_root : Solver :=
  get (init_solver 1 default_options)
      (add_clauses [[]] (init_solver 1 default_options)).

(** The parameters of the loop that never ask for a restart or for
    termination. *)
Definition never (s : Solver) : bool := false.

(** ** The remaining inline helpers of the header (embedded from the source) *)

(** [int active_variables () const]: [max_var - stats.fixed], a difference
    of two [int]s. *)
Definition active_variables (s : Solver) : Z :=
  max_var s - st_fixed (stats s).

(** A [Var *] as [var2idx] compares it with [vtab]: the null pointer, or
    the address [vtab + off] with [off] counting elements. *)
Inductive VarPtr : Type := var_null | var_at (off : Z).

(** [int var2idx (Var * v) const]: three assertions, then [v - vtab]. *)
Definition var2idx (s : Solver) (v : VarPtr) : option Z :=
  match v with
  | var_null => None                            (* assert (v) *)
  | var_at off =>
      if 0 <? off then                          (* assert (vtab < v) *)
        if off <=? max_var s then Some off      (* assert (v <= vtab + max_var) *)
        else None
      else None
  end.

(** The variable indices [1 .. max_var]. *)
Definition variables (s : Solver) : list Z :=
  Z.of_nat <$> seq 1 (Z.to_nat (max_var s)).

(** ** Further example states *)

(** The state of scenario S3 after the first propagation, with one more
    watch pushed for the literal -2. *)
Definition s3_rewatched : Solver :=
  get s3_level1 (watch_literal (-2) 4 2%nat s3_level1).

(** Two variables fixed at the root level by a unit clause and its
    propagation, one variable left: (1) ∧ (¬1 ∨ 2) over three variables. *)
Definition unit_root : Solver :=
  get (init_solver 3 default_options)
      (s ← add_clauses [[1]; [-1; 2]] (init_solver 3 default_options);
       p ← propagate s; Some p.2).

(** ** The invariants of the watches

    The invariants of the data model of the specification that the
    propagator relies on to find a conflict: every literal of the trail is
    true, a clause has no literal twice, and a clause in the watch list of
    a literal has that literal in one of its two watched positions and is
    in that list once. *)

(** Every literal of the clause is false. *)
Definition falsified (s : Solver) (c : Clause) : Prop :=
  Forall (λ k, val s k = Some (-1)) (c_literals c).

Definition trail_true (s : Solver) : Prop :=
  Forall (λ l, val s l = Some 1) (trail s).

Definition clauses_nodup (s : Solver) : Prop :=
  Forall (λ c, NoDup (c_literals c)) (clauses s).

(** The clause of a watch in the list of [lit], unless it is garbage, has
    [lit] in its first or second position. *)
Definition watches_lit (s : Solver) (lit : Z) (w : Watch) : Prop :=
  ∀ c, clauses s !! w_clause w = Some c → c_garbage c = false →
       ∃ x0 x1 tl, c_literals c = x0 :: x1 :: tl ∧ (x0 = lit ∨ x1 = lit).

Definition watch_list_ok (s : Solver) (lit : Z) (ws : list Watch) : Prop :=
  NoDup (w_clause <$> ws) ∧ Forall (watches_lit s lit) ws.

Definition watched_ok (s : Solver) : Prop :=
  ∀ lit ws, watches s lit = Some ws → watch_list_ok s lit ws.

Record watch_inv (s : Solver) : Prop := mk_watch_inv {
  wi_max_var : max_var_ok s;
  wi_vals : vals_ok s;
  wi_trail : trail_true s;
  wi_nodup : clauses_nodup s;
  wi_watched : watched_ok s
}.

(** A state the propagator can be called in. *)
Record stable (s : Solver) : Prop := mk_stable {
  sb_prop : prop_ok s;
  sb_watch : watch_inv s
}.

(** The invariant in the middle of the scan of the watches of the false
    literal [nl], of which [ws] are still to be visited: the list of [nl]
    in the table is not looked at until the scan has written it back. *)
Record scan_inv (s : Solver) (nl : Z) (ws : list Watch) : Prop := mk_scan_inv {
  si_max_var : max_var_ok s;
  si_vals : vals_ok s;
  si_trail : trail_true s;
  si_nodup : clauses_nodup s;
  si_false : val s nl = Some (-1);
  si_list : watch_list_ok s nl ws;
  si_others : ∀ m wl, m ≠ nl → watches s m = Some wl → watch_list_ok s m wl
}.

(** What the scan of the watches [ws] of [nl] from the state [s] gives:
    only clauses watched in [ws] are written, the watches kept are watches
    of clauses of [ws], and either the invariant holds again or [conflict]
    is a clause all of whose literals are false. *)
Definition scan_res (s : Solver) (nl : Z) (ws : list Watch)
    (ok : bool) (kept : list Watch) (s' : Solver) : Prop :=
  (∀ h, h ∉ (w_clause <$> ws) → clauses s' !! h = clauses s !! h) ∧
  (∀ w, w ∈ kept → w_clause w ∈ (w_clause <$> ws)) ∧
  (if ok then scan_inv s' nl kept
   else ∃ h c, conflict s' = Some h ∧ clauses s' !! h = Some c ∧
               falsified s' c).

(** The value of [conflict] at a call survives the call when no conflict
    is found. *)
Definition restore_conflict (x : option handle) (ok : bool) (s : Solver)
  : Solver :=
  if ok then set_conflict x s else s.

(** The conflict a call of [propagate] finds: what the call leaves in
    [conflict] when the member is empty at the call. *)
Definition conflict_found (s : Solver) : option (option handle) :=
  r ← propagate (set_conflict None s); Some (conflict r.2).
(** * Properties *)

(** Case analysis on a lookup in, or the membership of, a list that is
    given by its elements. *)
Ltac lookup_cases H :=
  repeat match type of H with
         | (_ :: _) !! ?i = Some _ => destruct i as [| i]; simpl in H
         | [] !! _ = Some _ => discriminate H
         | Some _ = Some _ => injection H as <-
         end.

Ltac elem_cases H :=
  repeat match type of H with
         | _ ∈ _ :: _ => apply elem_of_cons in H as [-> | H]
         | _ ∈ [] => by apply elem_of_nil in H
         end.

(** A term of an example state replaced by its value. *)
Ltac norm_in t H := let c := eval vm_compute in t in change t with c in H.
Ltac norm t := let c := eval vm_compute in t in change t with c.

(** ** The literal helpers *)

Section HelperFacts.

Variable s : Solver.

Lemma zlookup_Some {A} (l : list A) i x :
  zlookup l i = Some x ↔ 0 <= i ∧ l !! Z.to_nat i = Some x.
Proof.
  unfold zlookup. destruct (Z.ltb_spec i 0).
  - split; [discriminate | intros [? _]; lia].
  - split; [intros; split; [lia | done] | intros [_ ?]; done].
Qed.

Lemma zlookup_is_Some {A} (l : list A) i :
  is_Some (zlookup l i) ↔ 0 <= i < Z.of_nat (length l).
Proof.
  unfold zlookup. destruct (Z.ltb_spec i 0).
  - split; [intros [? ?]; discriminate | lia].
  - rewrite lookup_lt_is_Some. lia.
Qed.

Lemma vidx_Some l idx :
  vidx s l = Some idx ↔ lit_ok s l ∧ idx = Z.abs l.
Proof.
  unfold vidx, lit_ok.
  destruct (Z.eqb_spec l 0); [split; [discriminate | tauto] |].
  destruct (Z.eqb_spec l INT_MIN); [split; [discriminate | tauto] |].
  destruct (Z.leb_spec (Z.abs l) (max_var s)).
  - split; [intros [= <-]; tauto | intros [_ ->]; done].
  - split; [discriminate | lia].
Qed.

Lemma vidx_lit_ok l : lit_ok s l → vidx s l = Some (Z.abs l).
Proof. intros H. apply vidx_Some; done. Qed.

Lemma vidx_neg l : max_var_ok s → lit_ok s l → lit_ok s (- l).
Proof.
  unfold lit_ok, max_var_ok, INT_MIN, INT_MAX. intros ? (? & ? & ?).
  rewrite Z.abs_opp. lia.
Qed.

Lemma vlit_lit_ok l :
  max_var_ok s → lit_ok s l →
  vlit s l = Some (2 * Z.abs l + b2z (l <? 0)).
Proof.
  intros Hm Hl. unfold vlit. rewrite (vidx_lit_ok _ Hl). simpl.
  f_equal. destruct Hl as (? & ? & ?).
  unfold max_var_ok, INT_MAX in Hm. unfold wrap32.
  assert (0 <= b2z (l <? 0) <= 1) by (unfold b2z; destruct (l <? 0); lia).
  rewrite (Z.mod_small (Z.abs l)) by lia.
  rewrite (Z.mod_small (2 * Z.abs l)) by lia.
  rewrite Z.mod_small by lia. lia.
Qed.

End HelperFacts.

(** C2. For a literal [l] within range, [val] reads the value table at
    index [|l|]; the value read is one of -1, 0, 1, it is negated exactly
    when [l < 0], and [val (-l) = - val l]. *)
Theorem val_reads_and_negates (s : Solver) (l : Z) :
  tables_ok s → vals_ok s → lit_ok s l →
  ∃ r, zlookup (vals s) (Z.abs l) = Some r ∧
       val s l = Some (if l <? 0 then - r else r) ∧
       (∃ x, val s l = Some x ∧ (x = -1 ∨ x = 0 ∨ x = 1) ∧
             val s (- l) = Some (- x)).
Proof.
  intros (Hm & Hv & _) Hok Hl.
  assert (Hs : is_Some (zlookup (vals s) (Z.abs l))).
  { apply zlookup_is_Some. destruct Hl as (? & ? & ?). lia. }
  destruct Hs as [r Hr]. exists r. split; [done |].
  assert (Hval : ∀ k, lit_ok s k → Z.abs k = Z.abs l →
                      val s k = Some (if k <? 0 then - r else r)).
  { intros k Hk Habs. unfold val. rewrite (vidx_lit_ok _ _ Hk). simpl.
    rewrite Habs, Hr. done. }
  split; [apply Hval; done |].
  exists (if l <? 0 then - r else r). split; [apply Hval; done |].
  assert (Hr3 : r = -1 ∨ r = 0 ∨ r = 1).
  { apply zlookup_Some in Hr as [_ Hr].
    eapply (proj1 (Forall_lookup _ _) Hok); done. }
  split.
  - destruct (l <? 0); lia.
  - rewrite (Hval (- l)); [| apply vidx_neg; done | apply Z.abs_opp].
    f_equal. destruct Hl as (? & _).
    destruct (Z.ltb_spec l 0), (Z.ltb_spec (- l) 0); lia.
Qed.

(** C3. For a literal [l] within range, the index [vlit] computes for the
    literal-indexed arrays is [2 * |l| + 1] if [l < 0] and [2 * |l|] if
    [l > 0]; [watches] reads the watch table at that index. *)
Theorem vlit_encoding (s : Solver) (l : Z) :
  max_var_ok s → lit_ok s l →
  vlit s l = Some (if l <? 0 then 2 * Z.abs l + 1 else 2 * Z.abs l) ∧
  watches s l =
    zlookup (wtab s) (if l <? 0 then 2 * Z.abs l + 1 else 2 * Z.abs l).
Proof.
  intros Hm Hl.
  assert (E : vlit s l = Some (if l <? 0 then 2 * Z.abs l + 1 else 2 * Z.abs l)).
  { rewrite vlit_lit_ok by done. f_equal. unfold b2z. destruct (l <? 0); lia. }
  split; [done |]. unfold watches. rewrite E. done.
Qed.

(** C4. [satisfied ()] is true exactly when the trail holds [max_var]
    literals. *)
Theorem satisfied_iff_trail_full (s : Solver) :
  max_var_ok s →
  satisfied s = true ↔ Z.of_nat (length (trail s)) = max_var s.
Proof.
  unfold max_var_ok, INT_MAX, satisfied, wrap64. intros Hm.
  rewrite Z.mod_small by lia. apply Z.eqb_eq.
Qed.

(** C9. The assertions of [vidx] hold exactly for the literals [l] with
    [l != 0], [l != INT_MIN] and [|l| <= max_var]; for such a literal
    [val], [fixed], [var] and [watches] pass every assertion and read
    their tables within bounds. *)
Theorem helpers_in_bounds (s : Solver) (l : Z) :
  tables_ok s →
  (is_Some (vidx s l) ↔ l ≠ 0 ∧ l ≠ INT_MIN ∧ Z.abs l <= max_var s) ∧
  (l ≠ 0 → l ≠ INT_MIN → Z.abs l <= max_var s →
   is_Some (val s l) ∧ is_Some (fixed s l) ∧
   is_Some (var s l) ∧ is_Some (watches s l)).
Proof.
  intros (Hm & Hvals & _ & Hvtab & Hwtab). split.
  - split.
    + intros [idx H]. apply vidx_Some in H as [H _]. exact H.
    + intros H. exists (Z.abs l). apply vidx_Some. done.
  - intros H0 Hmin Hle.
    assert (Hl : lit_ok s l) by done.
    assert (Hv : is_Some (zlookup (vals s) (Z.abs l)))
      by (apply zlookup_is_Some; lia).
    assert (Ht : is_Some (zlookup (vtab s) (Z.abs l)))
      by (apply zlookup_is_Some; lia).
    destruct Hv as [r Hr], Ht as [v Hv].
    repeat split.
    + unfold val. rewrite (vidx_lit_ok _ _ Hl). simpl. rewrite Hr. done.
    + unfold fixed. rewrite (vidx_lit_ok _ _ Hl). simpl. rewrite Hr. simpl.
      destruct (r =? 0); [done |]. rewrite Hv. done.
    + unfold var. rewrite (vidx_lit_ok _ _ Hl). simpl. rewrite Hv. done.
    + unfold watches. rewrite vlit_lit_ok by done. simpl.
      apply zlookup_is_Some. unfold b2z. destruct (l <? 0); lia.
Qed.

(** C10. For a literal [l] within range, [fixed l] is [val l] when the
    variable [|l|] is assigned and its level is 0, and 0 otherwise; so a
    nonzero [fixed l] equals [val l] and tells that the level is 0. *)
Theorem fixed_is_root_val (s : Solver) (l : Z) :
  tables_ok s → lit_ok s l →
  ∃ v x f, var s l = Some v ∧ val s l = Some x ∧ fixed s l = Some f ∧
    f = (if negb (x =? 0) && (v_level v =? 0) then x else 0) ∧
    (f ≠ 0 → f = x ∧ v_level v = 0).
Proof.
  intros (Hm & Hvals & _ & Hvtab & _) Hl.
  assert (Hle : 0 <= Z.abs l <= max_var s) by (destruct Hl as (? & ? & ?); lia).
  assert (Hr : is_Some (zlookup (vals s) (Z.abs l)))
    by (apply zlookup_is_Some; lia).
  assert (Hv : is_Some (zlookup (vtab s) (Z.abs l)))
    by (apply zlookup_is_Some; lia).
  destruct Hr as [r Hr], Hv as [v Hv].
  exists v, (if l <? 0 then - r else r).
  unfold var, val, fixed. rewrite (vidx_lit_ok _ _ Hl). simpl.
  rewrite Hr, Hv. simpl.
  destruct (Z.eqb_spec r 0) as [-> | Hr0]; simpl.
  - exists 0. replace (if l <? 0 then - 0 else 0) with 0 by (destruct (l <? 0); done).
    simpl. repeat split; done.
  - destruct (Z.eqb_spec (v_level v) 0) as [E | E]; simpl.
    + eexists; repeat split; try done.
      destruct (l <? 0), (Z.eqb_spec (- r) 0), (Z.eqb_spec r 0); simpl; lia.
    + exists 0. replace (if l <? 0 then - 0 else 0) with 0 by (destruct (l <? 0); done).
      repeat split; try done.
      destruct (negb _); done.
Qed.

(** ** The helpers on an example state *)

Lemma s3_level1_tables_ok : tables_ok s3_level1.
Proof. vm_compute. repeat split; discriminate. Qed.

Lemma s3_level1_vals_ok : vals_ok s3_level1.
Proof.
  unfold vals_ok. norm (vals s3_level1).
  repeat first [apply Forall_nil_2 | apply Forall_cons_2; [lia |]].
Qed.

Lemma s3_level1_lit_ok : lit_ok s3_level1 (-2).
Proof. vm_compute. repeat split; discriminate. Qed.

Lemma val_reads_and_negates_witness :
  ∃ r, zlookup (vals s3_level1) (Z.abs (-2)) = Some r ∧
       val s3_level1 (-2) = Some (if -2 <? 0 then - r else r) ∧
       (∃ x, val s3_level1 (-2) = Some x ∧ (x = -1 ∨ x = 0 ∨ x = 1) ∧
             val s3_level1 (- -2) = Some (- x)).
Proof.
  apply (val_reads_and_negates s3_level1 (-2)).
  - exact s3_level1_tables_ok.
  - exact s3_level1_vals_ok.
  - exact s3_level1_lit_ok.
Defined.

Lemma vlit_encoding_witness :
  vlit s3_level1 (-2) = Some 5 ∧
  watches s3_level1 (-2) = zlookup (wtab s3_level1) 5.
Proof.
  apply (vlit_encoding s3_level1 (-2)).
  - vm_compute. split; discriminate.
  - exact s3_level1_lit_ok.
Defined.

Lemma satisfied_iff_trail_full_witness :
  satisfied s3_level1 = true ↔
  Z.of_nat (length (trail s3_level1)) = max_var s3_level1.
Proof.
  apply (satisfied_iff_trail_full s3_level1).
  vm_compute. split; discriminate.
Defined.

Lemma helpers_in_bounds_witness :
  (is_Some (vidx s3_level1 (-2)) ↔
   -2 ≠ 0 ∧ -2 ≠ INT_MIN ∧ Z.abs (-2) <= max_var s3_level1) ∧
  (-2 ≠ 0 → -2 ≠ INT_MIN → Z.abs (-2) <= max_var s3_level1 →
   is_Some (val s3_level1 (-2)) ∧ is_Some (fixed s3_level1 (-2)) ∧
   is_Some (var s3_level1 (-2)) ∧ is_Some (watches s3_level1 (-2))).
Proof.
  apply (helpers_in_bounds s3_level1 (-2)).
  exact s3_level1_tables_ok.
Defined.

Lemma fixed_is_root_val_witness :
  ∃ v x f, var s3_level1 (-2) = Some v ∧ val s3_level1 (-2) = Some x ∧
    fixed s3_level1 (-2) = Some f ∧
    f = (if negb (x =? 0) && (v_level v =? 0) then x else 0) ∧
    (f ≠ 0 → f = x ∧ v_level v = 0).
Proof.
  apply (fixed_is_root_val s3_level1 (-2)).
  - exact s3_level1_tables_ok.
  - exact s3_level1_lit_ok.
Defined.
(** ** Backtracking *)

Lemma zupdate_Some {A} (l : list A) i x l' :
  zupdate l i x = Some l' ↔
  0 <= i < Z.of_nat (length l) ∧ l' = <[Z.to_nat i := x]> l.
Proof.
  unfold zupdate.
  destruct (Z.leb_spec 0 i), (Z.ltb_spec i (Z.of_nat (length l))); simpl;
    (split; [intros [= <-] || discriminate | intros [? ->]]);
    try done; try lia.
Qed.

Lemma zupdate_length {A} (l : list A) i x l' :
  zupdate l i x = Some l' → length l' = length l.
Proof. intros [_ ->]%zupdate_Some. apply length_insert. Qed.

Lemma zupdate_is_Some {A} (l : list A) i x :
  0 <= i < Z.of_nat (length l) → zupdate l i x = Some (<[Z.to_nat i := x]> l).
Proof. intros. apply zupdate_Some. done. Qed.

Lemma zlookup_zupdate_eq {A} (l : list A) i x l' :
  zupdate l i x = Some l' → zlookup l' i = Some x.
Proof.
  intros [? ->]%zupdate_Some. apply zlookup_Some. split; [lia |].
  apply list_lookup_insert_eq. lia.
Qed.

Lemma zlookup_zupdate_ne {A} (l : list A) i j x l' :
  zupdate l i x = Some l' → i ≠ j → zlookup l' j = zlookup l j.
Proof.
  intros [? ->]%zupdate_Some Hne. unfold zlookup.
  destruct (j <? 0) eqn:E; [done |].
  apply list_lookup_insert_ne. apply Z.ltb_ge in E. lia.
Qed.

(** What [unassign] changes: the value of the variable and the cursor. *)
Lemma unassign_Some lit s s' :
  unassign lit s = Some s' →
  ∃ q', lit_ok s lit ∧ Z.abs lit < Z.of_nat (length (vals s)) ∧
        s' = set_queue q' (set_vals (<[Z.to_nat (Z.abs lit) := 0]> (vals s)) s) ∧
        is_Some (zlookup (vtab s) (q_search q')).
Proof.
  unfold unassign. intros H.
  apply bind_Some in H as (idx & Hidx & H).
  apply bind_Some in H as (v & Hv & H).
  apply bind_Some in H as (c & Hc & H).
  apply bind_Some in H as (vals' & Hvals & H).
  apply vidx_Some in Hidx as [Hl ->].
  apply zupdate_Some in Hvals as [Hr ->].
  injection H as <-.
  eexists. split; [done |]. split; [lia |]. split; [reflexivity |].
  destruct (v_bumped c <? v_bumped v); simpl; eauto.
Qed.

Lemma unassign_total lit s :
  lit_ok s lit → Z.abs lit < Z.of_nat (length (vals s)) →
  Z.abs lit < Z.of_nat (length (vtab s)) → cursor_ok s →
  is_Some (unassign lit s).
Proof.
  intros Hl Hv Ht [c Hc]. unfold unassign.
  rewrite (vidx_lit_ok _ _ Hl). simpl.
  assert (Hx : is_Some (zlookup (vtab s) (Z.abs lit)))
    by (apply zlookup_is_Some; lia).
  destruct Hx as [v ->]. simpl. rewrite Hc. simpl.
  rewrite zupdate_is_Some by lia. simpl. done.
Qed.

(** The effect of a run of [unassign]: the values of the literals of the
    run are cleared, all other values stay. *)
Lemma unassign_all_Some lits s s' :
  unassign_all lits s = Some s' →
  ∃ q' vals',
    s' = set_queue q' (set_vals vals' s) ∧
    length vals' = length (vals s) ∧
    (∀ l, l ∈ lits → zlookup vals' (Z.abs l) = Some 0) ∧
    (∀ i, (∀ l, l ∈ lits → Z.abs l ≠ i) → zlookup vals' i = zlookup (vals s) i) ∧
    (cursor_ok s → cursor_ok s').
Proof.
  revert s. induction lits as [| lit rest IH]; intros s H; simpl in H.
  - injection H as <-. exists (queue s), (vals s).
    split; [by destruct s |]. split; [done |].
    split; [intros l Hl; by apply elem_of_nil in Hl |]. done.
  - apply bind_Some in H as (s1 & H1 & H).
    apply unassign_Some in H1 as (q1 & Hl & Hlen & -> & Hq1).
    apply IH in H as (q' & vals' & -> & Hlen' & Hclr & Hoth & Hcur).
    simpl in *. exists q', vals'. split; [reflexivity |].
    split; [by rewrite Hlen', length_insert |].
    split; [| split].
    + intros l [-> | Hin]%elem_of_cons; [| by apply Hclr].
      destruct (base.decide (Z.abs lit ∈ (Z.abs <$> rest))) as [Hd | Hd].
      * apply list_elem_of_fmap in Hd as (l' & Heq & Hl').
        rewrite Heq. by apply Hclr.
      * rewrite Hoth.
        -- apply zlookup_Some. split; [lia |].
           apply list_lookup_insert_eq. lia.
        -- intros l' Hl' Heq. apply Hd. rewrite <- Heq.
           apply list_elem_of_fmap. eauto.
    + intros i Hi. rewrite Hoth.
      * unfold zlookup. destruct (i <? 0) eqn:E; [done |].
        apply Z.ltb_ge in E. apply list_lookup_insert_ne.
        specialize (Hi lit (list_elem_of_here _ _)). lia.
      * intros l' Hl'. apply Hi. by apply list_elem_of_further.
    + intros _. apply Hcur. exact Hq1.
Qed.

Lemma unassign_all_total lits s :
  (∀ l, l ∈ lits → lit_ok s l ∧ Z.abs l < Z.of_nat (length (vals s)) ∧
                   Z.abs l < Z.of_nat (length (vtab s))) →
  cursor_ok s → is_Some (unassign_all lits s).
Proof.
  revert s. induction lits as [| lit rest IH]; intros s Hall Hc; simpl.
  - done.
  - destruct (Hall lit (list_elem_of_here _ _)) as (Hl & Hv & Ht).
    destruct (unassign_total lit s Hl Hv Ht Hc) as [s1 H1]. rewrite H1. simpl.
    apply unassign_Some in H1 as (q1 & _ & _ & -> & Hq1).
    apply IH.
    + intros l Hin. destruct (Hall l (list_elem_of_further _ _ _ Hin)) as (? & ? & ?).
      simpl. rewrite length_insert. done.
    + exact Hq1.
Qed.

Lemma lit_level_Some s l lv :
  lit_level s l = Some lv ↔
  lit_ok s l ∧ ∃ v, zlookup (vtab s) (Z.abs l) = Some v ∧ v_level v = lv.
Proof.
  unfold lit_level, var. split.
  - intros H. apply bind_Some in H as (v & H & [= <-]).
    apply bind_Some in H as (idx & [Hl ->]%vidx_Some & H). eauto.
  - intros (Hl & v & Hv & <-). rewrite (vidx_lit_ok _ _ Hl). simpl.
    rewrite Hv. done.
Qed.

Lemma elem_of_drop_1 {A} (x : A) n l : x ∈ drop n l → x ∈ l.
Proof.
  intros H. rewrite <- (take_drop n l). apply elem_of_app. by right.
Qed.

(** What [backtrack] changes. *)
Lemma backtrack_Some k s s' :
  backtrack k s = Some s' →
  ∃ b q' vals',
    0 <= k <= level s ∧ backtrack_boundary k s = Some b ∧
    0 <= b <= Z.of_nat (length (trail s)) ∧
    s' = set_conflict None (set_propagated b (set_level k
           (set_control (take (Z.to_nat (k + 1)) (control s))
             (set_trail (take (Z.to_nat b) (trail s))
               (set_queue q' (set_vals vals' s)))))) ∧
    length vals' = length (vals s) ∧
    (∀ l, l ∈ drop (Z.to_nat b) (trail s) → zlookup vals' (Z.abs l) = Some 0) ∧
    (∀ i, (∀ l, l ∈ drop (Z.to_nat b) (trail s) → Z.abs l ≠ i) →
          zlookup vals' i = zlookup (vals s) i) ∧
    (cursor_ok s → cursor_ok s').
Proof.
  unfold backtrack. intros H.
  destruct (Z.ltb_spec k 0) as [? | Hk0]; [done |].
  destruct (Z.ltb_spec (level s) k) as [? | Hk1]; [done |]. simpl in H.
  apply bind_Some in H as (b & Hb & H).
  destruct (Z.ltb_spec b 0) as [? | Hb0]; [done |].
  destruct (Z.ltb_spec (Z.of_nat (length (trail s))) b) as [? | Hb1]; [done |].
  simpl in H.
  apply bind_Some in H as (s1 & H1 & [= <-]).
  apply unassign_all_Some in H1 as (q' & vals' & -> & Hlen & Hclr & Hoth & Hcur).
  exists b, q', vals'. simpl.
  split; [lia |]. split; [done |]. split; [lia |]. split; [reflexivity |].
  split; [done |].
  split; [intros l Hl; apply Hclr; by apply elem_of_reverse |].
  split; [intros i Hi; apply Hoth; intros l Hl; apply Hi; by apply elem_of_reverse |].
  exact Hcur.
Qed.

Lemma backtrack_boundary_ok k s :
  control_ok s → 0 <= k <= level s →
  ∃ b, backtrack_boundary k s = Some b ∧
       0 <= b <= Z.of_nat (length (trail s)) ∧
       (∀ (i : nat) l, trail s !! i = Some l → Z.of_nat i < b →
          ∃ lv, lit_level s l = Some lv ∧ lv <= k) ∧
       (∀ (j : nat) L, control s !! j = Some L → Z.of_nat j <= k →
          l_trail L <= b).
Proof.
  intros Hck Hk. unfold backtrack_boundary.
  destruct (Z.eqb_spec k (level s)) as [-> | Hne].
  - eexists. split; [done |]. split; [lia |]. split.
    + intros i l Hi _. apply (ck_levels _ Hck). by eapply list_elem_of_lookup_2.
    + intros j L Hj _. apply (ck_bound _ Hck) in Hj. lia.
  - assert (HL : is_Some (control s !! Z.to_nat (k + 1))).
    { apply lookup_lt_is_Some. pose proof (ck_size _ Hck). lia. }
    destruct HL as [L HL].
    assert (E : zlookup (control s) (k + 1) = Some L)
      by (apply zlookup_Some; split; [lia | done]).
    rewrite E. simpl. exists (l_trail L). split; [done |].
    split; [apply (ck_bound _ Hck) in HL; lia |]. split.
    + intros i l Hi Hlt.
      destruct (ck_starts _ Hck _ _ HL i l Hi) as (lv & Hlv & Hiff).
      exists lv. split; [done |]. lia.
    + intros j Lj Hj Hle.
      eapply (ck_sorted _ Hck j (Z.to_nat (k + 1))); [lia | done | done].
Qed.

Lemma control_ok_lit s l :
  control_ok s → l ∈ trail s →
  lit_ok s l ∧ Z.abs l < Z.of_nat (length (vals s)) ∧
  Z.abs l < Z.of_nat (length (vtab s)).
Proof.
  intros Hck Hl.
  destruct (ck_levels _ Hck l Hl) as (lv & Hlv & _).
  apply lit_level_Some in Hlv as (Hok & v & Hv & _).
  destruct (ck_assigned _ Hck l Hl) as (x & Hx & _).
  split; [done |].
  assert (is_Some (zlookup (vals s) (Z.abs l))) as ?%zlookup_is_Some by eauto.
  assert (is_Some (zlookup (vtab s) (Z.abs l))) as ?%zlookup_is_Some by eauto.
  lia.
Qed.

Lemma backtrack_total k s :
  control_ok s → cursor_ok s → 0 <= k <= level s → is_Some (backtrack k s).
Proof.
  intros Hck Hcur Hk. unfold backtrack.
  destruct (Z.ltb_spec k 0); [lia |].
  destruct (Z.ltb_spec (level s) k); [lia |]. simpl.
  destruct (backtrack_boundary_ok k s Hck Hk) as (b & -> & Hb & _). simpl.
  destruct (Z.ltb_spec b 0); [lia |].
  destruct (Z.ltb_spec (Z.of_nat (length (trail s))) b); [lia |]. simpl.
  destruct (unassign_all_total (reverse (drop (Z.to_nat b) (trail s))) s) as [s1 ->];
    [| done | done].
  intros l Hl. rewrite elem_of_reverse in Hl. apply control_ok_lit; [done |].
  eapply elem_of_drop_1; exact Hl.
Qed.

(** The variables of the part of the trail that is kept differ from those
    of the part that is removed. *)
Lemma nodup_take_drop (t : list Z) n l l' :
  NoDup (Z.abs <$> t) → l ∈ take n t → l' ∈ drop n t → Z.abs l' ≠ Z.abs l.
Proof.
  intros Hnd Hl Hl' Heq.
  rewrite <- (take_drop n t), fmap_app in Hnd.
  apply NoDup_app in Hnd as (_ & Hdis & _).
  apply (Hdis (Z.abs l)).
  - apply list_elem_of_fmap. eauto.
  - apply list_elem_of_fmap. eauto.
Qed.

Lemma elem_of_take_1 {A} (x : A) n l : x ∈ take n l → x ∈ l.
Proof.
  intros H. rewrite <- (take_drop n l). apply elem_of_app. by left.
Qed.

(** [backtrack] keeps the control stack and the trail in step. *)
Lemma backtrack_control_ok k s s' :
  control_ok s → backtrack k s = Some s' → control_ok s'.
Proof.
  intros Hck H.
  apply backtrack_Some in H
    as (b & q' & vals' & Hk & Hb & Hbr & -> & Hlen & Hclr & Hoth & _).
  destruct (backtrack_boundary_ok k s Hck Hk) as (b' & Hb' & _ & Hlow & Hctl).
  rewrite Hb in Hb'. injection Hb' as <-.
  pose proof (ck_size _ Hck) as Hsz.
  assert (Hctl' : ∀ (j : nat) L,
            take (Z.to_nat (k + 1)) (control s) !! j = Some L →
            control s !! j = Some L ∧ Z.of_nat j <= k).
  { intros j L Hj. apply lookup_take_Some in Hj as [Hj ?]. split; [done | lia]. }
  assert (Htr : ∀ (i : nat) l,
            take (Z.to_nat b) (trail s) !! i = Some l →
            trail s !! i = Some l ∧ Z.of_nat i < b).
  { intros i l Hi. apply lookup_take_Some in Hi as [Hi ?]. split; [done | lia]. }
  constructor; simpl.
  - rewrite length_take. lia.
  - destruct (ck_root _ Hck) as (L & HL & H0). exists L. split; [| done].
    rewrite lookup_take_lt by lia. done.
  - intros j L [Hj Hle]%Hctl'. rewrite length_take.
    pose proof (Hctl j L Hj Hle). apply (ck_bound _ Hck) in Hj. lia.
  - intros i j Li Lj Hij [Hi _]%Hctl' [Hj _]%Hctl'.
    by eapply (ck_sorted _ Hck i j).
  - intros j L [Hj _]%Hctl' i l [Hi _]%Htr.
    exact (ck_starts _ Hck j L Hj i l Hi).
  - intros l Hl. apply list_elem_of_lookup in Hl as [i Hi].
    apply Htr in Hi as [Hi Hlt]. exact (Hlow i l Hi Hlt).
  - intros l Hl.
    destruct (ck_assigned _ Hck l (elem_of_take_1 _ _ _ Hl)) as (x & Hx & Hx0).
    exists x. split; [| done]. rewrite Hoth; [done |].
    intros l' Hl'. by eapply nodup_take_drop; [apply (ck_nodup _ Hck) | |].
  - rewrite fmap_take. eapply sublist_NoDup; [| apply sublist_take].
    apply (ck_nodup _ Hck).
Qed.

(** C5. [backtrack (k)] with [0 <= k <= level], called in a state whose
    trail and control stack are in step, succeeds; afterwards no literal
    of the trail has a level above [k], every literal removed from the
    trail is unassigned, the saved phases are as before, [propagated] is
    the size of the new trail and [conflict] is null. *)
Theorem backtrack_effect (s : Solver) (k : Z) :
  control_ok s → cursor_ok s → 0 <= k <= level s →
  ∃ s' removed,
    backtrack k s = Some s' ∧
    trail s = trail s' ++ removed ∧
    (∀ l, l ∈ trail s' → ∃ lv, lit_level s' l = Some lv ∧ lv <= k) ∧
    (∀ l, l ∈ removed → val s' l = Some 0) ∧
    phases s' = phases s ∧
    propagated s' = Z.of_nat (length (trail s')) ∧
    conflict s' = None.
Proof.
  intros Hck Hcur Hk.
  destruct (backtrack_total k s Hck Hcur Hk) as [s' Hs'].
  pose proof (backtrack_control_ok k s s' Hck Hs') as Hck'.
  pose proof Hs' as H.
  apply backtrack_Some in H
    as (b & q' & vals' & _ & Hb & Hbr & -> & Hlen & Hclr & _ & _).
  eexists. exists (drop (Z.to_nat b) (trail s)). split; [exact Hs' |]. simpl.
  split; [by rewrite take_drop |].
  split; [| split; [| split; [done | split; [| done]]]].
  - intros l Hl. destruct (ck_levels _ Hck' l Hl) as (lv & Hlv & Hle).
    exists lv. split; [exact Hlv | exact Hle].
  - intros l Hl. unfold val.
    destruct (control_ok_lit s l Hck (elem_of_drop_1 _ _ _ Hl)) as (Hok & _).
    rewrite (vidx_lit_ok _ l) by exact Hok. simpl.
    rewrite (Hclr l Hl). simpl. by destruct (l <? 0).
  - rewrite length_take. lia.
Qed.

(** ** Assignment *)

(** What [assign] changes. *)
Lemma assign_Some lit r s s' :
  assign lit r s = Some s' →
  ∃ v,
    lit_ok s lit ∧ zlookup (vals s) (Z.abs lit) = Some 0 ∧
    zlookup (vtab s) (Z.abs lit) = Some v ∧
    0 <= Z.abs lit < Z.of_nat (length (phases s)) ∧
    s' = set_stats (if level s =? 0 then stats_inc_fixed (stats s) else stats s)
           (set_trail (trail s ++ [lit])
             (set_vtab (<[Z.to_nat (Z.abs lit) := var_assigned (level s) r v]> (vtab s))
               (set_phases (<[Z.to_nat (Z.abs lit) := if lit <? 0 then -1 else 1]> (phases s))
                 (set_vals (<[Z.to_nat (Z.abs lit) := if lit <? 0 then -1 else 1]> (vals s)) s)))).
Proof.
  unfold assign. intros H.
  apply bind_Some in H as (idx & Hidx & H).
  apply vidx_Some in Hidx as [Hl ->].
  apply bind_Some in H as (cur & Hcur & H).
  destruct (Z.eqb_spec cur 0) as [-> | ?]; [simpl in H | done].
  apply bind_Some in H as (v & Hv & H).
  apply bind_Some in H as (vals' & Hvals & H).
  apply bind_Some in H as (phases' & Hphases & H).
  apply bind_Some in H as (vtab' & Hvtab & H).
  apply zupdate_Some in Hvals as [? ->].
  apply zupdate_Some in Hphases as [? ->].
  apply zupdate_Some in Hvtab as [? ->].
  injection H as <-. exists v.
  split; [done |]. split; [| split; [done | split; [lia | reflexivity]]].
  unfold val in Hcur. rewrite (vidx_lit_ok _ _ Hl) in Hcur. simpl in Hcur.
  apply bind_Some in Hcur as (res & Hres & [= Hz]).
  rewrite Hres. f_equal. destruct (lit <? 0); lia.
Qed.

Lemma val_Some s l x :
  val s l = Some x ↔
  lit_ok s l ∧ ∃ r, zlookup (vals s) (Z.abs l) = Some r ∧
                    x = if l <? 0 then - r else r.
Proof.
  unfold val. split.
  - intros H. apply bind_Some in H as (idx & Hidx & H).
    apply vidx_Some in Hidx as [Hl ->].
    apply bind_Some in H as (r & Hr & [= <-]). eauto.
  - intros (Hl & r & Hr & ->). rewrite (vidx_lit_ok _ _ Hl). simpl.
    rewrite Hr. done.
Qed.

Lemma val_is_Some s l :
  tables_ok s → lit_ok s l → is_Some (val s l).
Proof.
  intros (Hm & Hv & _) Hl.
  assert (Hs : is_Some (zlookup (vals s) (Z.abs l))).
  { apply zlookup_is_Some. destruct Hl as (? & ? & ?). lia. }
  destruct Hs as [r Hr]. eexists. apply val_Some. eauto.
Qed.

Lemma assign_total lit r s :
  tables_ok s → val s lit = Some 0 → is_Some (assign lit r s).
Proof.
  intros (Hm & Hv & Hp & Ht & _) Hval. unfold assign.
  pose proof Hval as (Hl & res & Hres & Hz)%val_Some.
  rewrite (vidx_lit_ok _ _ Hl). simpl. rewrite Hval. simpl.
  assert (Hr : 0 <= Z.abs lit <= max_var s) by (destruct Hl as (? & ? & ?); lia).
  assert (Hx : is_Some (zlookup (vtab s) (Z.abs lit)))
    by (apply zlookup_is_Some; lia).
  destruct Hx as [v ->]. simpl.
  rewrite !zupdate_is_Some by lia. simpl. eauto.
Qed.

(** An assignment takes one variable out of the unassigned ones. *)
Lemma unassigned_insert (vs : list Z) (i : nat) (x : Z) :
  vs !! i = Some 0 → x ≠ 0 →
  S (length (filter (λ v, v = 0) (<[i := x]> vs))) =
  length (filter (λ v, v = 0) vs).
Proof.
  revert i. induction vs as [| y vs IH]; intros i Hi Hx; [done |].
  destruct i as [| i]; simpl in *.
  - injection Hi as ->. rewrite filter_cons_False by done.
    rewrite filter_cons_True by done. done.
  - destruct (base.decide (y = 0)).
    + rewrite !filter_cons_True by done. simpl. f_equal. by apply IH.
    + rewrite !filter_cons_False by done. by apply IH.
Qed.

Lemma assign_unassigned_count lit r s s' :
  assign lit r s = Some s' →
  S (unassigned_count s') = unassigned_count s ∧
  trail s' = trail s ++ [lit].
Proof.
  intros (v & Hl & Hz & _ & _ & ->)%assign_Some. simpl. split; [| done].
  unfold unassigned_count. simpl. apply unassigned_insert.
  - by apply zlookup_Some in Hz as [_ Hz].
  - destruct (lit <? 0); lia.
Qed.

(** ** Propagation: the scan of the watches never fails *)

(** Well-formedness looks at the tables, the clauses, the watches and the
    trail only. *)
Lemma watch_ok_ext s s' w :
  max_var s' = max_var s → clauses s' = clauses s →
  watch_ok s w → watch_ok s' w.
Proof.
  intros Hm Hc (Hb & c & Hc' & Hlen). unfold watch_ok, lit_ok in *.
  rewrite Hm, Hc. eauto.
Qed.

Lemma tables_ok_ext s s' :
  max_var s' = max_var s → length (vals s') = length (vals s) →
  length (phases s') = length (phases s) → length (vtab s') = length (vtab s) →
  length (wtab s') = length (wtab s) → tables_ok s → tables_ok s'.
Proof.
  unfold tables_ok, max_var_ok. intros -> -> -> -> ->. done.
Qed.

Lemma store_literals_watch_ok h lits s w :
  (∀ c, clauses s !! h = Some c → length lits = length (c_literals c)) →
  watch_ok s w → watch_ok (store_literals h lits s) w.
Proof.
  intros Hlen (Hb & c & Hc & H2). split; [exact Hb |]. simpl.
  destruct (base.decide (h = w_clause w)) as [Heq | Hne].
  - rewrite <- Heq in Hc |- *. exists (clause_set_literals lits c). split.
    + by rewrite list_lookup_alter_eq, Hc.
    + simpl. rewrite (Hlen c Hc). exact H2.
  - exists c. split; [by rewrite list_lookup_alter_ne | exact H2].
Qed.

Lemma store_literals_prop_ok h lits s :
  (∀ c, clauses s !! h = Some c → length lits = length (c_literals c)) →
  Forall (lit_ok s) lits →
  prop_ok s → prop_ok (store_literals h lits s).
Proof.
  intros Hlen Hlits [Ht Hc Hw Htr]. constructor; simpl.
  - exact Ht.
  - apply Forall_alter; [exact Hc |]. intros c _ _. exact Hlits.
  - eapply Forall_impl; [exact Hw |]. intros ws Hws.
    eapply Forall_impl; [exact Hws |]. intros w.
    by apply store_literals_watch_ok.
  - exact Htr.
Qed.

Lemma watch_literal_Some lit blit h s s' :
  watch_literal lit blit h s = Some s' →
  ∃ i ws, vlit s lit = Some i ∧ zlookup (wtab s) i = Some ws ∧
          s' = set_wtab (<[Z.to_nat i := ws ++ [mkWatch blit h]]> (wtab s)) s.
Proof.
  unfold watch_literal. intros H.
  apply bind_Some in H as (i & Hi & H).
  apply bind_Some in H as (ws & Hws & H).
  apply bind_Some in H as (wtab' & Hwtab & H).
  apply zupdate_Some in Hwtab as [_ ->]. injection H as <-. eauto.
Qed.

Lemma watch_literal_total lit blit h s :
  tables_ok s → lit_ok s lit → is_Some (watch_literal lit blit h s).
Proof.
  intros Ht Hl. unfold watch_literal.
  destruct Ht as (Hm & _ & _ & _ & Hw).
  rewrite vlit_lit_ok by done. simpl.
  assert (Hr : 0 <= 2 * Z.abs lit + b2z (lit <? 0) < Z.of_nat (length (wtab s))).
  { destruct Hl as (? & ? & ?). unfold b2z. destruct (lit <? 0); lia. }
  assert (Hx : is_Some (zlookup (wtab s) (2 * Z.abs lit + b2z (lit <? 0))))
    by (by apply zlookup_is_Some).
  destruct Hx as [ws ->]. simpl. rewrite zupdate_is_Some by done. simpl. eauto.
Qed.

Lemma watch_literal_prop_ok lit blit h s s' :
  watch_literal lit blit h s = Some s' → watch_ok s (mkWatch blit h) →
  prop_ok s → prop_ok s'.
Proof.
  intros (i & ws & Hi & Hws & ->)%watch_literal_Some Hw [Ht Hc Hwt Htr].
  constructor; simpl; try done.
  - eapply tables_ok_ext; [..| exact Ht]; try done. simpl. by rewrite length_insert.
  - apply Forall_insert; [exact Hwt |]. apply Forall_app. split.
    + apply zlookup_Some in Hws as [_ Hws]. by eapply Forall_lookup_1.
    + by apply Forall_singleton.
Qed.

Lemma assign_prop_ok lit r s s' :
  assign lit r s = Some s' → prop_ok s → prop_ok s'.
Proof.
  intros (v & Hl & _ & _ & _ & ->)%assign_Some [Ht Hc Hw Htr].
  constructor; simpl; try done.
  - eapply tables_ok_ext; [..| exact Ht]; simpl; by rewrite ?length_insert.
  - apply Forall_app. split; [exact Htr |]. by apply Forall_singleton.
Qed.

Lemma find_replacement_total s lits pos :
  tables_ok s → Forall (lit_ok s) lits →
  is_Some (find_replacement s lits pos).
Proof.
  intros Ht Hl. revert pos. induction Hl as [| k rest Hk _ IH]; intros pos; simpl.
  - eauto.
  - destruct (val_is_Some s k Ht Hk) as [v ->]. simpl.
    destruct (v <? 0); [apply IH | eauto].
Qed.

Lemma find_replacement_Some s lits pos i k :
  find_replacement s lits pos = Some (Some (i, k)) →
  ∃ j, i = (pos + j)%nat ∧ lits !! j = Some k.
Proof.
  revert pos. induction lits as [| x rest IH]; intros pos H; simpl in H.
  - discriminate.
  - apply bind_Some in H as (v & Hv & H).
    destruct (v <? 0).
    + apply IH in H as (j & -> & Hj). exists (S j). split; [lia | done].
    + injection H as <- <-. exists 0%nat. split; [lia | done].
Qed.

Lemma prop_ok_set_conflict x s : prop_ok s → prop_ok (set_conflict x s).
Proof. intros [? ? ? ?]. constructor; done. Qed.

Lemma prop_ok_set_propagated x s : prop_ok s → prop_ok (set_propagated x s).
Proof. intros [? ? ? ?]. constructor; done. Qed.

(** The scan of a list of well-formed watches in a well-formed state
    succeeds, and what it leaves is well-formed again. *)
Lemma propagate_watches_total nl ws s :
  prop_ok s → Forall (watch_ok s) ws →
  ∃ ok kept s',
    propagate_watches nl ws s = Some (ok, kept, s') ∧
    prop_ok s' ∧ Forall (watch_ok s') kept ∧
    (∀ w, watch_ok s w → watch_ok s' w).
Proof.
  revert s. induction ws as [| w rest IH]; intros s Hok Hws.
  - exists true, [], s. simpl. eauto.
  - apply Forall_cons in Hws as [Hw Hrest].
    pose proof Hw as (Hblit & c & Hc & Hlen).
    pose proof (po_tables _ Hok) as Ht.
    simpl. destruct (val_is_Some s (w_blit w) Ht Hblit) as [b ->]. simpl.
    destruct (0 <? b).
    { destruct (IH s Hok Hrest) as (ok & kept & s' & -> & Hok' & Hkept & Hmono).
      simpl. exists ok, (w :: kept), s'. split; [done |]. split; [done |].
      split; [| done]. apply Forall_cons. split; [by apply Hmono | done]. }
    rewrite Hc. simpl. destruct (c_garbage c) eqn:Hg.
    { destruct (IH s Hok Hrest) as (ok & kept & s' & -> & Hok' & Hkept & Hmono).
      eauto 10. }
    specialize (Hlen eq_refl).
    destruct (c_literals c) as [| x0 [| x1 tl]] eqn:Hlits;
      [simpl in Hlen; lia | simpl in Hlen; lia |].
    assert (Hcl : Forall (lit_ok s) (x0 :: x1 :: tl)).
    { rewrite <- Hlits.
      exact (Forall_lookup_1 _ _ _ _ (po_clauses _ Hok) Hc). }
    apply Forall_cons in Hcl as [Hx0 Hcl]. apply Forall_cons in Hcl as [Hx1 Htl].
    set (c0 := if x0 =? nl then x1 else x0).
    set (c1 := if x0 =? nl then x0 else x1).
    assert (Hc0 : lit_ok s c0) by (unfold c0; by destruct (x0 =? nl)).
    assert (Hc1 : lit_ok s c1) by (unfold c1; by destruct (x0 =? nl)).
    set (s0 := store_literals (w_clause w) (c0 :: c1 :: tl) s).
    assert (Hlen0 : ∀ c', clauses s !! w_clause w = Some c' →
              length (c0 :: c1 :: tl) = length (c_literals c')).
    { intros c' Hc'. rewrite Hc in Hc'. injection Hc' as <-. by rewrite Hlits. }
    assert (Hok0 : prop_ok s0).
    { apply store_literals_prop_ok; [done | | done].
      repeat (apply Forall_cons; split; [done |]). done. }
    assert (Hmono0 : ∀ w', watch_ok s w' → watch_ok s0 w')
      by (intros w'; by apply store_literals_watch_ok).
    assert (Hrest0 : Forall (watch_ok s0) rest)
      by (eapply Forall_impl; [exact Hrest | exact Hmono0]).
    assert (Hc_s0 : clauses s0 !! w_clause w =
                    Some (clause_set_literals (c0 :: c1 :: tl) c)).
    { unfold s0. simpl. by rewrite list_lookup_alter_eq, Hc. }
    assert (Hwnew : ∀ blit, lit_ok s blit → watch_ok s0 (mkWatch blit (w_clause w))).
    { intros blit Hb. split; [exact Hb |]. eexists. split; [exact Hc_s0 |].
      simpl. lia. }
    destruct (val_is_Some s0 c0 (po_tables _ Hok0) Hc0) as [u Hu]. rewrite Hu. simpl.
    destruct (Z.ltb_spec 0 u) as [Hupos | Hunpos].
    { destruct (IH s0 Hok0 Hrest0) as (ok & kept & s' & -> & Hok' & Hkept & Hmono).
      simpl. exists ok, (mkWatch c0 (w_clause w) :: kept), s'.
      split; [done |]. split; [done |]. split; [| by auto].
      apply Forall_cons. split; [| done]. apply Hmono, Hwnew, Hc0. }
    destruct (find_replacement_total s0 tl 0 (po_tables _ Hok0) Htl) as [r Hr].
    rewrite Hr. simpl. destruct r as [[i k] |].
    { apply find_replacement_Some in Hr as (j & -> & Hj). simpl.
      assert (Hk : lit_ok s k) by exact (Forall_lookup_1 _ _ _ _ Htl Hj).
      set (s1 := store_literals (w_clause w) (c0 :: k :: <[j := c1]> tl) s0).
      assert (Hlen1 : ∀ c', clauses s0 !! w_clause w = Some c' →
                length (c0 :: k :: <[j := c1]> tl) = length (c_literals c')).
      { intros c' Hc'. rewrite Hc_s0 in Hc'. injection Hc' as <-. simpl.
        by rewrite length_insert. }
      assert (Hok1 : prop_ok s1).
      { apply store_literals_prop_ok; [done | | done].
        repeat (apply Forall_cons; split; [done |]). by apply Forall_insert. }
      assert (Hmono1 : ∀ w', watch_ok s0 w' → watch_ok s1 w')
        by (intros w'; by apply store_literals_watch_ok).
      destruct (watch_literal_total k c0 (w_clause w) s1 (po_tables _ Hok1) Hk)
        as [s2 Hs2].
      rewrite Hs2. simpl.
      assert (Hok2 : prop_ok s2).
      { eapply watch_literal_prop_ok; [exact Hs2 | | exact Hok1].
        apply Hmono1, Hwnew, Hc0. }
      assert (Hmono2 : ∀ w', watch_ok s1 w' → watch_ok s2 w').
      { apply watch_literal_Some in Hs2 as (? & ? & _ & _ & ->).
        intros w'. by apply watch_ok_ext. }
      destruct (IH s2 Hok2) as (ok & kept & s' & -> & Hok' & Hkept & Hmono).
      { eapply Forall_impl; [exact Hrest0 |]. auto. }
      exists ok, kept, s'. auto 10. }
    destruct (Z.ltb_spec u 0) as [Huneg | Hunneg].
    { eexists false, (w :: rest), _. split; [done |].
      split; [by apply prop_ok_set_conflict |]. split.
      - apply Forall_cons. split.
        + eapply (watch_ok_ext s0); [done | done |]. by apply Hmono0.
        + eapply Forall_impl; [exact Hrest0 |]. intros w'. by apply watch_ok_ext.
      - intros w' Hw'. eapply (watch_ok_ext s0); [done | done |]. by apply Hmono0. }
    assert (u = 0) as -> by lia.
    destruct (assign_total c0 (Some (w_clause w)) s0 (po_tables _ Hok0) Hu) as [s1 Hs1].
    rewrite Hs1. simpl.
    assert (Hok1 : prop_ok s1) by (by eapply assign_prop_ok).
    assert (Hmono1 : ∀ w', watch_ok s0 w' → watch_ok s1 w').
    { apply assign_Some in Hs1 as (? & _ & _ & _ & _ & ->).
      intros w'. by apply watch_ok_ext. }
    destruct (IH s1 Hok1) as (ok & kept & s' & -> & Hok' & Hkept & Hmono).
    { eapply Forall_impl; [exact Hrest0 |]. auto. }
    simpl. exists ok, (w :: kept), s'. split; [done |]. split; [done |].
    split; [| by auto]. apply Forall_cons. split; [| done]. auto.
Qed.

(** What the scan of the watches does to the trail, the pending
    literals and [conflict]: the trail grows by assignments of unassigned
    variables, [propagated] stays, and [conflict] is set exactly when the
    scan ends with [false]. *)
Lemma propagate_watches_effect nl ws s ok kept s' :
  propagate_watches nl ws s = Some (ok, kept, s') →
  (unassigned_count s' + length (trail s') =
   unassigned_count s + length (trail s))%nat ∧
  (length (trail s) ≤ length (trail s'))%nat ∧
  propagated s' = propagated s ∧ max_var s' = max_var s ∧
  (if ok then conflict s' = conflict s else ∃ h, conflict s' = Some h).
Proof.
  revert s ok kept s'. induction ws as [| w rest IH]; intros s ok kept s' H.
  - simpl in H. injection H as <- <- <-. repeat split; done.
  - simpl in H.
    apply bind_Some in H as (b & Hb & H).
    destruct (0 <? b).
    { apply bind_Some in H as ([[ok1 kept1] s1] & H1 & H).
      injection H as <- <- <-. by apply IH in H1. }
    apply bind_Some in H as (c & Hc & H).
    destruct (c_garbage c); [by apply IH in H |].
    destruct (c_literals c) as [| x0 [| x1 tl]]; [done | done |].
    set (c0 := if x0 =? nl then x1 else x0) in *.
    set (c1 := if x0 =? nl then x0 else x1) in *.
    apply bind_Some in H as (u & Hu & H).
    destruct (0 <? u).
    { apply bind_Some in H as ([[ok1 kept1] s1] & H1 & H).
      injection H as <- <- <-. by apply IH in H1. }
    apply bind_Some in H as (r & Hr & H).
    destruct r as [[i k] |].
    { apply bind_Some in H as (s2 & H2 & H).
      apply watch_literal_Some in H2 as (? & ? & _ & _ & ->).
      by apply IH in H. }
    destruct (u <? 0).
    { injection H as <- <- <-. simpl. repeat split; eauto. }
    apply bind_Some in H as (s1 & H1 & H).
    apply bind_Some in H as ([[ok1 kept1] s2] & H2 & H).
    injection H as <- <- <-.
    apply IH in H2 as (Hcnt & Hlen & Hp & Hm & Hcf).
    pose proof (assign_unassigned_count _ _ _ _ H1) as [Hc1 Ht1].
    apply assign_Some in H1 as (v & _ & _ & _ & _ & Hs1).
    rewrite Ht1, length_app in Hcnt, Hlen. simpl in Hcnt, Hlen.
    subst s1. unfold unassigned_count in *. simpl in *.
    repeat split; try lia; try done.
Qed.

Lemma propagate_literal_total lit s :
  prop_ok s → lit_ok s lit →
  ∃ ok s', propagate_literal lit s = Some (ok, s') ∧ prop_ok s'.
Proof.
  intros Hok Hl. unfold propagate_literal.
  pose proof (po_tables _ Hok) as Ht. pose proof Ht as (Hm & _ & _ & _ & Hw).
  assert (Hnl : lit_ok s (- lit)) by (by apply vidx_neg).
  rewrite vlit_lit_ok by done. simpl.
  set (i := 2 * Z.abs (- lit) + b2z (- lit <? 0)).
  assert (Hi : 0 <= i < Z.of_nat (length (wtab s))).
  { unfold i, b2z. destruct Hnl as (? & ? & ?). destruct (- lit <? 0); lia. }
  assert (Hx : is_Some (zlookup (wtab s) i)) by (by apply zlookup_is_Some).
  destruct Hx as [ws Hws]. rewrite Hws. simpl.
  assert (Hwsok : Forall (watch_ok s) ws).
  { apply zlookup_Some in Hws as [_ Hws].
    exact (Forall_lookup_1 _ _ _ _ (po_watches _ Hok) Hws). }
  destruct (propagate_watches_total (- lit) ws s Hok Hwsok)
    as (ok & kept & s1 & H1 & Hok1 & Hkept & _).
  rewrite H1. simpl.
  apply propagate_watches_effect in H1 as (_ & _ & _ & Hm1 & _).
  pose proof (po_tables _ Hok1) as (_ & _ & _ & _ & Hw1).
  assert (Hi1 : 0 <= i < Z.of_nat (length (wtab s1))).
  { unfold i, b2z. rewrite Hm1 in Hw1.
    destruct Hnl as (? & ? & ?). destruct (- lit <? 0); lia. }
  rewrite zupdate_is_Some by done. simpl.
  exists ok. eexists. split; [done |].
  destruct Hok1 as [Ht1 Hc1 Hwt1 Htr1]. constructor; simpl; try done.
  - eapply tables_ok_ext; [..| exact Ht1]; try done. simpl. by rewrite length_insert.
  - apply Forall_insert; [exact Hwt1 |]. eapply Forall_impl; [exact Hkept |].
    intros w. by apply watch_ok_ext.
Qed.

Lemma propagate_literal_effect lit s ok s' :
  propagate_literal lit s = Some (ok, s') →
  (unassigned_count s' + length (trail s') =
   unassigned_count s + length (trail s))%nat ∧
  (length (trail s) ≤ length (trail s'))%nat ∧
  propagated s' = propagated s ∧ max_var s' = max_var s ∧
  (if ok then conflict s' = conflict s else ∃ h, conflict s' = Some h).
Proof.
  unfold propagate_literal. intros H.
  apply bind_Some in H as (i & Hi & H).
  apply bind_Some in H as (ws & Hws & H).
  apply bind_Some in H as ([[ok1 kept] s1] & H1 & H).
  apply bind_Some in H as (wtab' & Hwtab & H).
  injection H as <- <-.
  by apply propagate_watches_effect in H1.
Qed.

(** The loop of [propagate] with enough fuel. *)
Lemma propagate_loop_total fuel s :
  prop_ok s → 0 <= propagated s <= Z.of_nat (length (trail s)) →
  (propagate_fuel s ≤ fuel)%nat →
  ∃ b s', propagate_loop fuel s = Some (b, s') ∧ prop_ok s' ∧
    0 <= propagated s' <= Z.of_nat (length (trail s')) ∧
    (if b then propagated s' = Z.of_nat (length (trail s')) ∧
               conflict s' = conflict s
     else ∃ h, conflict s' = Some h).
Proof.
  revert s. induction fuel as [| fuel IH]; intros s Hok Hp Hfuel.
  - simpl. destruct (Z.ltb_spec (propagated s) (Z.of_nat (length (trail s)))).
    + exfalso. unfold propagate_fuel in Hfuel. lia.
    + exists true, s. split; [done |]. split; [done |]. split; [lia |].
      split; [lia | done].
  - simpl. destruct (Z.ltb_spec (propagated s) (Z.of_nat (length (trail s)))) as [Hlt | Hge].
    2: { exists true, s. split; [done |]. split; [done |]. split; [lia |].
         split; [lia | done]. }
    assert (Hx : is_Some (zlookup (trail s) (propagated s)))
      by (apply zlookup_is_Some; lia).
    destruct Hx as [lit Hlit]. rewrite Hlit. simpl.
    assert (Hl : lit_ok s lit).
    { apply zlookup_Some in Hlit as [_ Hlit].
      exact (Forall_lookup_1 _ _ _ _ (po_trail _ Hok) Hlit). }
    destruct (propagate_literal_total lit (set_propagated (propagated s + 1) s))
      as (ok & s1 & H1 & Hok1); [by apply prop_ok_set_propagated | done |].
    rewrite H1.
    apply propagate_literal_effect in H1 as (Hcnt & Hlen & Hp1 & _ & Hcf).
    simpl in Hcnt, Hlen, Hp1, Hcf.
    destruct ok.
    + destruct (IH s1 Hok1) as (b & s' & -> & Hok' & Hp' & Hres).
      * lia.
      * unfold propagate_fuel in *. rewrite Hp1.
        change (unassigned_count (set_propagated (propagated s + 1) s))
          with (unassigned_count s) in Hcnt. lia.
      * exists b, s'. split; [done |]. split; [done |]. split; [done |].
        destruct b; [| done]. destruct Hres as [? ->]. done.
    + exists false, s1. split; [done |]. split; [done |]. split; [lia | done].
Qed.

Ltac solve_Forall tac :=
  repeat first [apply Forall_nil_2 | apply Forall_cons_2; [tac |]].

Ltac solve_lit_ok := vm_compute; repeat split; discriminate.

(** ** The steps of the core preserve the invariants *)

Lemma lit_level_core s l :
  lit_level s l = idx ← vidx s l; zlookup (v_level <$> vtab s) idx.
Proof.
  unfold lit_level, var. destruct (vidx s l) as [idx |]; [simpl | done].
  unfold zlookup. destruct (idx <? 0); [done |].
  rewrite list_lookup_fmap. by destruct (vtab s !! Z.to_nat idx).
Qed.

Lemma lit_level_ext s s' l :
  max_var s' = max_var s → v_level <$> vtab s' = v_level <$> vtab s →
  lit_level s' l = lit_level s l.
Proof.
  intros Hm Hv. rewrite !lit_level_core, Hv. unfold vidx. by rewrite Hm.
Qed.

Lemma control_lookup_ext (c c' : list Level) (k : nat) L' :
  l_trail <$> c' = l_trail <$> c → c' !! k = Some L' →
  ∃ L, c !! k = Some L ∧ l_trail L = l_trail L'.
Proof.
  intros Hc Hk.
  assert (H : (l_trail <$> c) !! k = Some (l_trail L'))
    by (by rewrite <- Hc, list_lookup_fmap, Hk).
  apply list_lookup_fmap_Some in H as (L & HL & ->). eauto.
Qed.

(** The invariant of trail and control stack is a property of the core. *)
Lemma control_ok_core s s' : core s' = core s → control_ok s → control_ok s'.
Proof.
  unfold core. intros [= Hm Hvals Hlv Hlevel Hctl Htrail _ _] Hck.
  assert (Hll : ∀ l, lit_level s' l = lit_level s l)
    by (intros l; by apply lit_level_ext).
  constructor.
  - rewrite Hlevel, <- (ck_size _ Hck).
    by rewrite <- (length_fmap l_trail (control s')), Hctl, length_fmap.
  - destruct (ck_root _ Hck) as (L & HL & H0).
    assert (H : (l_trail <$> control s') !! 0%nat = Some 0)
      by (by rewrite Hctl, list_lookup_fmap, HL, <- H0).
    apply list_lookup_fmap_Some in H as (L' & HL' & ?). eauto.
  - intros k L' (L & HL & <-)%(control_lookup_ext (control s)); [| done].
    rewrite Htrail. by eapply (ck_bound _ Hck).
  - intros j k Lj' Lk' Hjk (Lj & HLj & <-)%(control_lookup_ext (control s))
      (Lk & HLk & <-)%(control_lookup_ext (control s)); try done.
    by eapply (ck_sorted _ Hck j k).
  - intros k L' (L & HL & <-)%(control_lookup_ext (control s)) i l Hi; [| done].
    rewrite Htrail in Hi. rewrite Hll. exact (ck_starts _ Hck k L HL i l Hi).
  - intros l Hl. rewrite Htrail in Hl. rewrite Hll, Hlevel.
    exact (ck_levels _ Hck l Hl).
  - intros l Hl. rewrite Htrail in Hl. rewrite Hvals.
    exact (ck_assigned _ Hck l Hl).
  - rewrite Htrail. exact (ck_nodup _ Hck).
Qed.

Lemma new_level_control_ok s : control_ok s → control_ok (new_level s).
Proof.
  intros Hck. pose proof (ck_size _ Hck) as Hsz.
  assert (Hll : ∀ l, lit_level (new_level s) l = lit_level s l) by done.
  assert (Hlk : ∀ (k : nat) L,
            (control s ++ [mkLevel (Z.of_nat (length (trail s))) (q_search (queue s))])
              !! k = Some L →
            control s !! k = Some L ∨
            (k = length (control s) ∧ l_trail L = Z.of_nat (length (trail s)))).
  { intros k L [Hk | [Hk HL]]%lookup_app_Some; [by left | right].
    destruct (k - length (control s))%nat eqn:E; [| done].
    injection HL as <-. split; [lia | done]. }
  constructor; simpl.
  - rewrite length_app. simpl. lia.
  - destruct (ck_root _ Hck) as (L & HL & H0). exists L. split; [| done].
    by apply lookup_app_l_Some.
  - intros k L [Hk | [_ ->]]%Hlk; [by eapply (ck_bound _ Hck) | lia].
  - intros j k Lj Lk Hjk [Hj | [Hj HLj]]%Hlk [Hk | [Hk HLk]]%Hlk.
    + by eapply (ck_sorted _ Hck j k).
    + rewrite HLk. apply (ck_bound _ Hck) in Hj. lia.
    + apply lookup_lt_Some in Hk. lia.
    + lia.
  - intros k L [Hk | [Hk HL]]%Hlk i l Hi.
    + rewrite Hll. exact (ck_starts _ Hck k L Hk i l Hi).
    + rewrite Hll. destruct (ck_levels _ Hck l (list_elem_of_lookup_2 _ _ _ Hi))
        as (lv & Hlv & Hle).
      exists lv. split; [done |]. apply lookup_lt_Some in Hi. simpl in Hi. lia.
  - intros l Hl. destruct (ck_levels _ Hck l Hl) as (lv & Hlv & Hle).
    exists lv. split; [done | lia].
  - exact (ck_assigned _ Hck).
  - exact (ck_nodup _ Hck).
Qed.

Lemma assign_control_ok lit r s s' :
  assign lit r s = Some s' → control_ok s → control_ok s'.
Proof.
  intros (v & Hl & Hz & Hv & Hph & ->)%assign_Some Hck.
  pose proof (ck_size _ Hck) as Hsz.
  set (idx := Z.to_nat (Z.abs lit)).
  assert (Hidx : 0 <= Z.abs lit) by lia.
  assert (Hvt : (idx < length (vtab s))%nat).
  { apply zlookup_Some in Hv as [_ Hv]. by apply lookup_lt_Some in Hv. }
  assert (Hvl : (idx < length (vals s))%nat).
  { apply zlookup_Some in Hz as [_ Hz]. by apply lookup_lt_Some in Hz. }
  (* the variables on the trail differ from the variable assigned *)
  assert (Hne : ∀ l, l ∈ trail s → Z.abs l ≠ Z.abs lit).
  { intros l Hin Heq. destruct (ck_assigned _ Hck l Hin) as (x & Hx & Hx0).
    rewrite Heq, Hz in Hx. by injection Hx as <-. }
  set (s' := set_stats _ _).
  assert (Hold : ∀ l, l ∈ trail s → lit_level s' l = lit_level s l).
  { intros l Hin. rewrite !lit_level_core.
    change (vidx s' l) with (vidx s l).
    destruct (vidx s l) as [i |] eqn:Hi; [simpl | done].
    apply vidx_Some in Hi as [_ ->].
    unfold zlookup. destruct (Z.abs l <? 0); [done |].
    unfold s'. simpl. rewrite list_fmap_insert.
    apply list_lookup_insert_ne. specialize (Hne l Hin). lia. }
  assert (Hnew : lit_level s' lit = Some (level s)).
  { apply lit_level_Some. split; [exact Hl |]. eexists. split.
    - apply zlookup_Some. split; [lia |]. unfold s'. simpl.
      by apply list_lookup_insert_eq.
    - reflexivity. }
  assert (Hlk : ∀ (i : nat) l, (trail s ++ [lit]) !! i = Some l →
            (trail s !! i = Some l) ∨ (i = length (trail s) ∧ l = lit)).
  { intros i l [Hi | [Hi Hl']]%lookup_app_Some; [by left | right].
    destruct (i - length (trail s))%nat eqn:E; [| done].
    injection Hl' as <-. split; [lia | done]. }
  constructor.
  - exact Hsz.
  - exact (ck_root _ Hck).
  - intros k L Hk. apply (ck_bound _ Hck) in Hk. unfold s'. simpl.
    rewrite length_app. simpl. lia.
  - exact (ck_sorted _ Hck).
  - intros k L Hk i l [Hi | [-> ->]]%Hlk.
    + rewrite Hold by (by eapply list_elem_of_lookup_2).
      exact (ck_starts _ Hck k L Hk i l Hi).
    + exists (level s). split; [exact Hnew |].
      unfold s' in Hk. simpl in Hk.
      pose proof (lookup_lt_Some _ _ _ Hk). apply (ck_bound _ Hck) in Hk. lia.
  - intros l [Hin | ->%list_elem_of_singleton]%elem_of_app.
    + rewrite Hold by done. exact (ck_levels _ Hck l Hin).
    + exists (level s). split; [exact Hnew | ]. unfold s'. simpl. lia.
  - intros l [Hin | ->%list_elem_of_singleton]%elem_of_app.
    + destruct (ck_assigned _ Hck l Hin) as (x & Hx & Hx0). exists x.
      split; [| done]. rewrite <- Hx. unfold zlookup.
      destruct (Z.abs l <? 0); [done |]. unfold s'. simpl.
      apply list_lookup_insert_ne. specialize (Hne l Hin). lia.
    + eexists. split.
      * apply zlookup_Some. split; [lia |]. unfold s'. simpl.
        by apply list_lookup_insert_eq.
      * destruct (lit <? 0); lia.
  - unfold s'. simpl. rewrite fmap_app. apply NoDup_app.
    split; [exact (ck_nodup _ Hck) |]. split; [| apply NoDup_singleton].
    intros a (l & -> & Hin)%list_elem_of_fmap Ha.
    apply list_elem_of_singleton in Ha. by apply (Hne l Hin).
Qed.

(** Every step of the core keeps trail and control stack in step. *)
Lemma evolves_control_ok s s' : evolves s s' → control_ok s → control_ok s'.
Proof.
  induction 1 as [s s' Hc | lit r s s' Ha | k s s' Hb | s | s | s1 s2 s3 _ IH1 _ IH2];
    intros Hck.
  - by eapply control_ok_core.
  - by eapply assign_control_ok.
  - by eapply backtrack_control_ok.
  - by apply new_level_control_ok.
  - destruct Hck. by constructor.
  - auto.
Qed.

(** Every step of the core keeps or raises the counter of fixed variables
    and keeps a raised [unsat]. *)
Lemma evolves_monotone s s' :
  evolves s s' →
  st_fixed (stats s) <= st_fixed (stats s') ∧
  (unsat s = true → unsat s' = true).
Proof.
  induction 1 as [s s' Hc | lit r s s' Ha | k s s' Hb | s | s
                 | s1 s2 s3 _ IH1 _ IH2].
  - unfold core in Hc. injection Hc as _ _ _ _ _ _ -> ->. split; [lia | done].
  - apply assign_Some in Ha as (v & _ & _ & _ & _ & ->). simpl.
    destruct (level s =? 0); simpl; split; (lia || done).
  - apply backtrack_Some in Hb as (b & q & vs & _ & _ & _ & -> & _). simpl.
    split; [lia | done].
  - simpl. split; [lia | done].
  - simpl. split; [lia | done].
  - destruct IH1, IH2. split; [lia | auto].
Qed.

Lemma evolves_refl s : evolves s s.
Proof. by apply ev_frame. Qed.

(** ** The operations as sequences of steps of the core *)

Lemma ev_step_frame s1 s2 s3 : core s2 = core s1 → evolves s2 s3 → evolves s1 s3.
Proof. intros Hc H. eapply ev_trans; [by apply ev_frame | exact H]. Qed.

Lemma ev_frame_step s1 s2 s3 : evolves s1 s2 → core s3 = core s2 → evolves s1 s3.
Proof. intros H Hc. eapply ev_trans; [exact H | by apply ev_frame]. Qed.

Lemma update_var_Some idx f s s' :
  update_var idx f s = Some s' →
  ∃ v, zlookup (vtab s) idx = Some v ∧
       s' = set_vtab (<[Z.to_nat idx := f v]> (vtab s)) s.
Proof.
  unfold update_var. intros H.
  apply bind_Some in H as (v & Hv & H).
  apply bind_Some in H as (vtab' & Hvt & H).
  apply zupdate_Some in Hvt as [_ ->]. injection H as <-. eauto.
Qed.

(** An update of a variable that keeps its level and its reason. *)
Lemma update_var_rigid idx f s s' :
  (∀ v, v_level (f v) = v_level v ∧ v_reason (f v) = v_reason v) →
  update_var idx f s = Some s' → rigid s' = rigid s.
Proof.
  intros Hf (v & Hv & ->)%update_var_Some. unfold rigid. simpl.
  apply zlookup_Some in Hv as [_ Hv].
  rewrite length_insert, !list_fmap_insert.
  destruct (Hf v) as [-> ->].
  rewrite !list_insert_id; [done | |]; by rewrite list_lookup_fmap, Hv.
Qed.

Lemma rigid_core s s' : rigid s' = rigid s → core s' = core s.
Proof.
  unfold rigid, core. intros [= -> -> _ _ -> _ _ -> -> -> -> _ _ _ ->]. done.
Qed.

Lemma dequeue_rigid idx s s' : dequeue idx s = Some s' → rigid s' = rigid s.
Proof.
  unfold dequeue. intros H.
  apply bind_Some in H as (v & Hv & H).
  apply bind_Some in H as (s1 & H1 & H).
  assert (E1 : rigid s1 = rigid s).
  { destruct (v_prev v =? 0); [by injection H1 as <- |].
    by eapply update_var_rigid; [| exact H1]. }
  rewrite <- E1. destruct (v_next v =? 0); [by injection H as <- |].
  by eapply update_var_rigid; [| exact H].
Qed.

Lemma enqueue_rigid idx s s' : enqueue idx s = Some s' → rigid s' = rigid s.
Proof.
  unfold enqueue. intros H.
  apply bind_Some in H as (s1 & H1 & H).
  apply bind_Some in H as (s2 & H2 & H).
  injection H as <-.
  assert (E1 : rigid s1 = rigid s) by (by eapply update_var_rigid; [| exact H1]).
  assert (E2 : rigid s2 = rigid s1).
  { destruct (q_last (queue s) =? 0); [by injection H2 as <- |].
    by eapply update_var_rigid; [| exact H2]. }
  by rewrite <- E1, <- E2.
Qed.

Lemma bump_rigid idx s s' : bump idx s = Some s' → rigid s' = rigid s.
Proof.
  unfold bump. intros H.
  apply bind_Some in H as (s1 & H1 & H).
  apply bind_Some in H as (s2 & H2 & H).
  apply bind_Some in H as (s3 & H3 & H).
  injection H as <-.
  apply dequeue_rigid in H1. apply enqueue_rigid in H3.
  apply update_var_rigid in H2; [| done].
  change (rigid s3 = rigid s). by rewrite H3, H2.
Qed.

Lemma watch_literal_core lit blit h s s' :
  watch_literal lit blit h s = Some s' → core s' = core s.
Proof. by intros (i & ws & _ & _ & ->)%watch_literal_Some. Qed.

Lemma watch_clause_core h s s' : watch_clause h s = Some s' → core s' = core s.
Proof.
  unfold watch_clause. intros H.
  apply bind_Some in H as (c & Hc & H).
  destruct (c_literals c) as [| l0 [| l1 tl]]; [done | done |].
  apply bind_Some in H as (s1 & H1 & H).
  apply watch_literal_core in H1, H. by rewrite H, H1.
Qed.

Lemma analyze_literal_rigid q s b s' :
  analyze_literal q s = Some (b, s') → rigid s' = rigid s.
Proof.
  unfold analyze_literal. intros H.
  apply bind_Some in H as (idx & Hidx & H).
  apply bind_Some in H as (v & Hv & H).
  destruct (v_seen v); [by injection H as <- <- |].
  apply bind_Some in H as (s1 & H1 & H).
  apply bind_Some in H as (s2 & H2 & H).
  apply update_var_rigid in H1; [| done]. apply bump_rigid in H2.
  change (rigid s2 = rigid s1) in H2.
  destruct (v_level v =? level s); injection H as <- <-.
  - by rewrite H2.
  - change (rigid s2 = rigid s). by rewrite H2.
Qed.

Lemma resolve_literals_rigid lits s n s' :
  resolve_literals lits s = Some (n, s') → rigid s' = rigid s.
Proof.
  revert s n s'. induction lits as [| q rest IH]; intros s n s' H; simpl in H.
  - by injection H as <- <-.
  - apply bind_Some in H as ([b s1] & H1 & H).
    apply bind_Some in H as ([m s2] & H2 & H).
    injection H as <- <-.
    apply analyze_literal_rigid in H1. apply IH in H2. by rewrite H2.
Qed.

Lemma resolve_clause_rigid h s n s' :
  resolve_clause h s = Some (n, s') → rigid s' = rigid s.
Proof.
  unfold resolve_clause. intros H.
  apply bind_Some in H as (c & Hc & H).
  apply resolve_literals_rigid in H. rewrite H. by destruct (c_redundant c).
Qed.

Lemma analyze_loop_rigid rtrail open s uip s' :
  analyze_loop rtrail open s = Some (uip, s') → rigid s' = rigid s.
Proof.
  revert open s. induction rtrail as [| p rest IH]; intros open s H; simpl in H.
  - done.
  - apply bind_Some in H as (v & Hv & H).
    destruct (v_seen v); simpl in H; [| by eapply IH].
    destruct (open - 1 =? 0); [by injection H as <- <- |].
    apply bind_Some in H as (h & Hh & H).
    apply bind_Some in H as ([n s1] & H1 & H).
    apply resolve_clause_rigid in H1. apply IH in H. by rewrite H.
Qed.

Lemma update_vars_rigid lits f s s' :
  (∀ v, v_level (f v) = v_level v ∧ v_reason (f v) = v_reason v) →
  update_vars lits f s = Some s' → rigid s' = rigid s.
Proof.
  intros Hf. revert s. induction lits as [| l rest IH]; intros s H; simpl in H.
  - by injection H as <-.
  - apply bind_Some in H as (s1 & H1 & H).
    apply update_var_rigid in H1; [| done]. apply IH in H. by rewrite H.
Qed.

Lemma minimize_literal_rigid fuel top lit s res s' :
  minimize_literal fuel top lit s = Some (res, s') → rigid s' = rigid s.
Proof.
  revert top lit s res s'.
  induction fuel as [| fuel IH]; intros top lit s res s' H.
  - simpl in H. apply bind_Some in H as (v & Hv & H).
    destruct (v_level v =? 0); [by injection H as <- <- |].
    destruct (v_mark v); try (by injection H as <- <-).
    destruct (negb top && v_seen v); [by injection H as <- <- |].
    destruct (v_reason v); by injection H as <- <-.
  - simpl in H. apply bind_Some in H as (v & Hv & H).
    destruct (v_level v =? 0); [by injection H as <- <- |].
    destruct (v_mark v); try (by injection H as <- <-).
    destruct (negb top && v_seen v); [by injection H as <- <- |].
    destruct (v_reason v) as [h |]; [| by injection H as <- <-].
    apply bind_Some in H as (c & Hc & H).
    apply bind_Some in H as ([r s1] & H1 & H).
    apply bind_Some in H as (s2 & H2 & H).
    injection H as <- <-.
    apply update_var_rigid in H2; [| done].
    change (rigid s2 = rigid s). rewrite H2.
    clear H2 Hc Hv. revert s r s1 H1.
    induction (c_literals c) as [| o rest IHl]; intros s r s1 H1.
    + by injection H1 as <- <-.
    + destruct (Z.abs o =? Z.abs lit); [by eapply IHl |].
      apply bind_Some in H1 as ([r1 s3] & H3 & H1).
      apply IH in H3. destruct r1.
      * apply IHl in H1. by rewrite H1.
      * by injection H1 as <- <-.
Qed.

Lemma minimize_literals_rigid lits s kept s' :
  minimize_literals lits s = Some (kept, s') → rigid s' = rigid s.
Proof.
  revert s kept s'. induction lits as [| l rest IH]; intros s kept s' H; simpl in H.
  - by injection H as <- <-.
  - apply bind_Some in H as ([r s1] & H1 & H).
    apply bind_Some in H as ([k s2] & H2 & H).
    injection H as <- <-.
    apply minimize_literal_rigid in H1. apply IH in H2. by rewrite H2.
Qed.

Lemma minimize_clause_rigid s s' : minimize_clause s = Some s' → rigid s' = rigid s.
Proof.
  unfold minimize_clause. intros H.
  destruct (clause s) as [| first rest]; [by injection H as <- |].
  apply bind_Some in H as ([kept s1] & H1 & H).
  apply bind_Some in H as (s2 & H2 & H).
  injection H as <-.
  apply minimize_literals_rigid in H1. apply update_vars_rigid in H2; [| done].
  change (rigid s2 = rigid s). by rewrite H2.
Qed.

Lemma clear_seen_and_levels_rigid s s' :
  clear_seen_and_levels s = Some s' → rigid s' = rigid s.
Proof.
  unfold clear_seen_and_levels. intros H.
  apply bind_Some in H as (s1 & H1 & H). injection H as <-.
  apply update_vars_rigid in H1; [| done]. exact H1.
Qed.

Lemma analyze_learn_rigid s ln s' :
  analyze_learn s = Some (ln, s') → rigid s' = rigid s.
Proof.
  unfold analyze_learn. intros H.
  apply bind_Some in H as (h & Hh & H).
  apply bind_Some in H as ([n s1] & H1 & H).
  apply bind_Some in H as ([uip s2] & H2 & H).
  apply bind_Some in H as (jump & Hj & H).
  apply bind_Some in H as (s3 & H3 & H).
  apply bind_Some in H as (ls & Hls & H).
  injection H as <- <-.
  apply resolve_clause_rigid in H1. apply analyze_loop_rigid in H2.
  apply minimize_clause_rigid in H3.
  change (rigid s1 = rigid s) in H1. change (rigid s3 = rigid s2) in H3.
  change (rigid s3 = rigid s). by rewrite H3, H2.
Qed.

Lemma next_decision_variable_rigid s idx s' :
  next_decision_variable s = Some (idx, s') → rigid s' = rigid s.
Proof.
  unfold next_decision_variable. intros H.
  apply bind_Some in H as (i & Hi & H). by injection H as <- <-.
Qed.

Lemma propagate_watches_evolves nl ws s ok kept s' :
  propagate_watches nl ws s = Some (ok, kept, s') → evolves s s'.
Proof.
  revert s ok kept s'. induction ws as [| w rest IH]; intros s ok kept s' H.
  - simpl in H. injection H as <- <- <-. apply evolves_refl.
  - simpl in H.
    apply bind_Some in H as (b & Hb & H).
    destruct (0 <? b).
    { apply bind_Some in H as ([[ok1 kept1] s1] & H1 & H).
      injection H as <- <- <-. by eapply IH. }
    apply bind_Some in H as (c & Hc & H).
    destruct (c_garbage c); [by eapply IH |].
    destruct (c_literals c) as [| x0 [| x1 tl]]; [done | done |].
    set (c0 := if x0 =? nl then x1 else x0) in *.
    set (c1 := if x0 =? nl then x0 else x1) in *.
    apply bind_Some in H as (u & Hu & H).
    destruct (0 <? u).
    { apply bind_Some in H as ([[ok1 kept1] s1] & H1 & H).
      injection H as <- <- <-. eapply ev_step_frame; [| by eapply IH]. done. }
    apply bind_Some in H as (r & Hr & H).
    destruct r as [[i k] |].
    { apply bind_Some in H as (s2 & H2 & H).
      apply watch_literal_core in H2.
      eapply ev_step_frame; [| by eapply IH]. by rewrite H2. }
    destruct (u <? 0).
    { injection H as <- <- <-. by apply ev_frame. }
    apply bind_Some in H as (s1 & H1 & H).
    apply bind_Some in H as ([[ok1 kept1] s2] & H2 & H).
    injection H as <- <- <-.
    eapply ev_step_frame; [| eapply ev_trans; [by eapply ev_assign | by eapply IH]].
    done.
Qed.

Lemma propagate_literal_evolves lit s ok s' :
  propagate_literal lit s = Some (ok, s') → evolves s s'.
Proof.
  unfold propagate_literal. intros H.
  apply bind_Some in H as (i & Hi & H).
  apply bind_Some in H as (ws & Hws & H).
  apply bind_Some in H as ([[ok1 kept] s1] & H1 & H).
  apply bind_Some in H as (wtab' & Hwtab & H).
  injection H as <- <-.
  eapply ev_frame_step; [by eapply propagate_watches_evolves | done].
Qed.

Lemma propagate_loop_evolves fuel s b s' :
  propagate_loop fuel s = Some (b, s') → evolves s s'.
Proof.
  revert s. induction fuel as [| fuel IH]; intros s H; simpl in H.
  - destruct (propagated s <? _); [done |]. injection H as <- <-.
    apply evolves_refl.
  - destruct (propagated s <? _); [| injection H as <- <-; apply evolves_refl].
    apply bind_Some in H as (lit & Hlit & H).
    destruct (propagate_literal _ _) as [[[|] s1] |] eqn:H1; [| | done].
    + apply propagate_literal_evolves in H1.
      eapply ev_step_frame; [| eapply ev_trans; [exact H1 | by apply IH]]. done.
    + injection H as <- <-. apply propagate_literal_evolves in H1.
      eapply ev_step_frame; [| exact H1]. done.
Qed.

Lemma propagate_evolves s b s' : propagate s = Some (b, s') → evolves s s'.
Proof. apply propagate_loop_evolves. Qed.

Lemma learn_unit_clause_evolves lit s s' :
  learn_unit_clause lit s = Some s' → evolves s s'.
Proof.
  unfold learn_unit_clause. intros H.
  apply bind_Some in H as (s1 & H1 & H).
  apply bind_Some in H as (s2 & H2 & H). injection H as <-.
  eapply ev_trans; [by eapply ev_backtrack |].
  eapply ev_frame_step; [by eapply ev_assign | done].
Qed.

Lemma analyze_evolves s s' : analyze s = Some s' → evolves s s'.
Proof.
  unfold analyze. intros H.
  apply bind_Some in H as ([ln s1] & H1 & H).
  apply bind_Some in H as (s2 & H2 & H).
  apply bind_Some in H as (s4 & H4 & H). injection H as <-.
  apply analyze_learn_rigid, rigid_core in H1.
  apply clear_seen_and_levels_rigid, rigid_core in H2.
  apply (ev_frame_step _ s4); [| done].
  eapply (ev_step_frame _ (set_conflict None
            (set_stats (stats_inc_conflicts (stats s2)) s2)));
    [change (core s2 = core s); by rewrite H2 |].
  destruct (clause _) as [| u [| u' rest]].
  - injection H4 as <-. apply ev_unsat.
  - eapply learn_unit_clause_evolves. exact H4.
  - unfold new_learned_clause, new_clause in H4.
    apply bind_Some in H4 as (s5 & H5 & H4).
    apply bind_Some in H4 as (s6 & H6 & H4).
    apply watch_clause_core in H5.
    eapply ev_step_frame; [exact H5 |].
    eapply ev_trans; [by eapply ev_backtrack | by eapply ev_assign].
Qed.

Lemma decide_evolves s s' : decide s = Some s' → evolves s s'.
Proof.
  unfold decide. intros H.
  apply bind_Some in H as ([idx s1] & H1 & H).
  apply bind_Some in H as (ph & Hph & H).
  apply next_decision_variable_rigid, rigid_core in H1.
  eapply ev_step_frame; [exact H1 |].
  eapply ev_trans; [apply ev_new_level |].
  eapply ev_step_frame; [| by eapply ev_assign]. done.
Qed.

Lemma restart_evolves s s' : restart s = Some s' → evolves s s'.
Proof.
  unfold restart. intros H.
  apply bind_Some in H as (k & Hk & H).
  apply bind_Some in H as (s1 & H1 & H). injection H as <-.
  eapply ev_frame_step; [by eapply ev_backtrack | done].
Qed.

Lemma flush_clause_evolves h s s' : flush_clause h s = Some s' → evolves s s'.
Proof.
  unfold flush_clause. intros H.
  apply bind_Some in H as (c & Hc & H).
  destruct (c_garbage c); [injection H as <-; apply evolves_refl |].
  apply bind_Some in H as (f & Hf & H).
  destruct (0 <? f); [injection H as <-; by apply ev_frame |].
  destruct (f <? 0); [| injection H as <-; apply evolves_refl].
  apply bind_Some in H as (lits & Hlits & H).
  destruct lits as [| u [| u' rest]].
  - injection H as <-. eapply ev_step_frame; [| apply ev_unsat]. done.
  - eapply ev_step_frame; [| by eapply learn_unit_clause_evolves]. done.
  - injection H as <-. by apply ev_frame.
Qed.

Lemma flush_clauses_evolves hs s s' : flush_clauses hs s = Some s' → evolves s s'.
Proof.
  revert s. induction hs as [| h rest IH]; intros s H; simpl in H.
  - injection H as <-. apply evolves_refl.
  - apply bind_Some in H as (s1 & H1 & H).
    eapply ev_trans; [by eapply flush_clause_evolves | by apply IH].
Qed.

Lemma garbage_collection_core s : core (garbage_collection s) = core s.
Proof.
  unfold core, garbage_collection. simpl.
  by rewrite <- list_fmap_compose.
Qed.

Lemma watch_clauses_core hs s s' : watch_clauses hs s = Some s' → core s' = core s.
Proof.
  revert s. induction hs as [| h rest IH]; intros s H; simpl in H.
  - by injection H as <-.
  - apply bind_Some in H as (c & Hc & H).
    destruct (c_garbage c || _); [by apply IH |].
    apply bind_Some in H as (s1 & H1 & H).
    apply watch_clause_core in H1. apply IH in H. by rewrite H.
Qed.

Lemma setup_watches_core s s' : setup_watches s = Some s' → core s' = core s.
Proof. unfold setup_watches. by intros ->%watch_clauses_core. Qed.

Lemma reduce_evolves s s' : reduce s = Some s' → evolves s s'.
Proof.
  unfold reduce. intros H.
  apply bind_Some in H as (s1 & H1 & H).
  apply bind_Some in H as (s2 & H2 & H). injection H as <-.
  apply setup_watches_core in H2.
  rewrite garbage_collection_core in H2.
  change (core s2 = core s1) in H2.
  eapply (ev_frame_step _ s1).
  - eapply ev_step_frame; [| by eapply flush_clauses_evolves]. done.
  - change (core s2 = core s1). exact H2.
Qed.

Lemma add_new_original_clause_evolves lits s s' :
  add_new_original_clause lits s = Some s' → evolves s s'.
Proof.
  unfold add_new_original_clause. intros H.
  destruct lits as [| u [| u' rest]].
  - injection H as <-. apply ev_unsat.
  - apply bind_Some in H as (x & Hx & H).
    destruct (x =? 0); [by eapply ev_assign |].
    destruct (x <? 0); injection H as <-; by apply ev_frame.
  - unfold new_clause in H.
    apply bind_Some in H as (s2 & H2 & H). injection H as <-.
    apply watch_clause_core in H2. apply ev_frame.
    change (core s2 = core s). by rewrite H2.
Qed.

(** Every step of the solver is a sequence of steps of the core. *)
Lemma solver_step_evolves s s' : solver_step s s' → evolves s s'.
Proof.
  destruct 1.
  - by eapply add_new_original_clause_evolves.
  - by eapply propagate_evolves.
  - by apply analyze_evolves.
  - by eapply ev_backtrack.
  - by apply restart_evolves.
  - by apply reduce_evolves.
  - by apply decide_evolves.
Qed.

Lemma initial_control_ok s : initial s → control_ok s.
Proof.
  intros (Hl & Ht & q & Hc). constructor; rewrite ?Hl, ?Ht, ?Hc.
  - done.
  - eauto.
  - intros [| k] L H; [| done]. injection H as <-. simpl. lia.
  - intros [| j] [| k] Lj Lk _ Hj Hk; try done.
    injection Hj as <-. by injection Hk as <-.
  - intros k L _ i l Hi. rewrite Ht in Hi. done.
  - intros l Hin. by apply elem_of_nil in Hin.
  - intros l Hin. by apply elem_of_nil in Hin.
  - constructor.
Qed.

Lemma reachable_control_ok s : reachable s → control_ok s.
Proof.
  induction 1 as [s Hi | s s' _ IH Hstep].
  - by apply initial_control_ok.
  - eapply evolves_control_ok; [by apply solver_step_evolves | exact IH].
Qed.

(** C8. In every state between two operations the control stack has one
    entry per decision level, the root included: its size is
    [level + 1]; and entry [k] is the trail position at which level [k]
    began: the literals of the trail at and after that position are those
    of level [k] or higher. *)
Theorem control_stack_invariant (s : Solver) :
  reachable s →
  Z.of_nat (length (control s)) = level s + 1 ∧
  ∀ (k : nat) L, control s !! k = Some L →
    starts_level s (l_trail L) (Z.of_nat k).
Proof.
  intros Hck%reachable_control_ok. split.
  - exact (ck_size _ Hck).
  - exact (ck_starts _ Hck).
Qed.

Lemma add_new_original_clause_level lits s s' :
  add_new_original_clause lits s = Some s' → level s' = level s.
Proof.
  unfold add_new_original_clause. intros H.
  destruct lits as [| u [| u' rest]].
  - by injection H as <-.
  - apply bind_Some in H as (x & Hx & H).
    destruct (x =? 0).
    + by apply assign_Some in H as (v & _ & _ & _ & _ & ->).
    + destruct (x <? 0); by injection H as <-.
  - unfold new_clause in H.
    apply bind_Some in H as (s2 & H2 & H). injection H as <-.
    unfold watch_clause in H2.
    apply bind_Some in H2 as (c & Hc & H2).
    destruct (c_literals c) as [| l0 [| l1 tl]]; [done | done |].
    apply bind_Some in H2 as (s1 & H1 & H2).
    apply watch_literal_Some in H1 as (? & ? & _ & _ & ->).
    by apply watch_literal_Some in H2 as (? & ? & _ & _ & ->).
Qed.

(** The ingestion of a list of clauses at the root level. *)
Lemma reachable_add_clauses cs s s' :
  reachable s → level s = 0 → add_clauses cs s = Some s' → reachable s'.
Proof.
  revert s. induction cs as [| c rest IH]; intros s Hr Hl H; simpl in H.
  - by injection H as <-.
  - apply bind_Some in H as (s1 & H1 & H).
    apply (IH s1); [| | exact H].
    + eapply reach_step; [exact Hr |]. by eapply step_add_clause.
    + by rewrite (add_new_original_clause_level _ _ _ H1).
Qed.

Lemma s3_level1_reachable : reachable s3_level1.
Proof.
  apply (reach_step s3_decided);
    [| apply (step_propagate true); vm_compute; reflexivity].
  apply (reach_step s3_root); [| apply step_decide; vm_compute; reflexivity].
  apply (reachable_add_clauses s3_clauses (init_solver 4 default_options));
    [| reflexivity | vm_compute; reflexivity].
  apply reach_initial. split; [reflexivity |]. split; [reflexivity |].
  eexists. reflexivity.
Qed.

Lemma control_stack_invariant_witness :
  Z.of_nat (length (control s3_level1)) = level s3_level1 + 1 ∧
  ∀ (k : nat) L, control s3_level1 !! k = Some L →
    starts_level s3_level1 (l_trail L) (Z.of_nat k).
Proof.
  apply (control_stack_invariant s3_level1).
  exact s3_level1_reachable.
Defined.

Lemma s3_level1_control_ok : control_ok s3_level1.
Proof. apply reachable_control_ok, s3_level1_reachable. Qed.

Lemma backtrack_effect_witness :
  ∃ s' removed,
    backtrack 0 s3_level1 = Some s' ∧
    trail s3_level1 = trail s' ++ removed ∧
    (∀ l, l ∈ trail s' → ∃ lv, lit_level s' l = Some lv ∧ lv <= 0) ∧
    (∀ l, l ∈ removed → val s' l = Some 0) ∧
    phases s' = phases s3_level1 ∧
    propagated s' = Z.of_nat (length (trail s')) ∧
    conflict s' = None.
Proof.
  apply (backtrack_effect s3_level1 0).
  - exact s3_level1_control_ok.
  - vm_compute. eauto.
  - vm_compute. split; discriminate.
Defined.

(** ** The glue of a learned clause *)

Lemma add_level_spec l ls :
  (NoDup ls → NoDup (add_level l ls)) ∧
  (∀ x, x ∈ add_level l ls ↔ x = l ∨ x ∈ ls).
Proof.
  unfold add_level. destruct (bool_decide (l ∈ ls)) eqn:E.
  - apply bool_decide_eq_true in E. split; [done |].
    intros x. split; [by right | intros [-> | ?]; done].
  - apply bool_decide_eq_false in E. split.
    + intros Hnd. apply NoDup_app. split; [done |].
      split; [| apply NoDup_singleton].
      intros x Hx ->%list_elem_of_singleton. done.
    + intros x. rewrite elem_of_app, list_elem_of_singleton. tauto.
Qed.

(** The level set gathered from a list of literals holds each of their
    levels once. *)
Lemma collect_levels_spec lits acc s ls :
  collect_levels lits acc s = Some ls →
  ∃ lvls, Forall2 (λ l lv, lit_level s l = Some lv) lits lvls ∧
          (NoDup acc → NoDup ls) ∧
          (∀ x, x ∈ ls ↔ x ∈ lvls ∨ x ∈ acc).
Proof.
  revert acc. induction lits as [| l rest IH]; intros acc H; simpl in H.
  - injection H as <-. exists []. split; [constructor |]. split; [done |].
    intros x. rewrite elem_of_nil. tauto.
  - apply bind_Some in H as (v & Hv & H).
    apply IH in H as (lvls & Hf & Hnd & Hel).
    destruct (add_level_spec (v_level v) acc) as [Hnd' Hel'].
    exists (v_level v :: lvls). split; [| split].
    + constructor; [| done]. unfold lit_level. by rewrite Hv.
    + auto.
    + intros x. rewrite Hel, Hel', elem_of_cons. tauto.
Qed.

Lemma collect_levels_count lits s ls :
  collect_levels lits [] s = Some ls →
  ∃ lvls, Forall2 (λ l lv, lit_level s l = Some lv) lits lvls ∧
          length ls = length (remove_dups lvls).
Proof.
  intros (lvls & Hf & Hnd & Hel)%collect_levels_spec.
  exists lvls. split; [done |]. apply Permutation_length.
  apply NoDup_Permutation.
  - apply Hnd. constructor.
  - apply NoDup_remove_dups.
  - intros x. rewrite Hel, elem_of_remove_dups, elem_of_nil. tauto.
Qed.

Lemma watch_clause_clauses h s s' :
  watch_clause h s = Some s' → clauses s' = clauses s.
Proof.
  unfold watch_clause. intros H.
  apply bind_Some in H as (c & Hc & H).
  destruct (c_literals c) as [| l0 [| l1 tl]]; [done | done |].
  apply bind_Some in H as (s1 & H1 & H).
  apply watch_literal_Some in H1 as (? & ? & _ & _ & ->).
  by apply watch_literal_Some in H as (? & ? & _ & _ & ->).
Qed.

Lemma backtrack_clauses k s s' : backtrack k s = Some s' → clauses s' = clauses s.
Proof.
  by intros (b & q & vs & _ & _ & _ & -> & _)%backtrack_Some.
Qed.

Lemma assign_clauses lit r s s' : assign lit r s = Some s' → clauses s' = clauses s.
Proof. by intros (v & _ & _ & _ & _ & ->)%assign_Some. Qed.

Lemma rigid_clauses s s' : rigid s' = rigid s → clauses s' = clauses s.
Proof. unfold rigid. by intros [= _ _ _ _ _ _ _ _ _ _ _ _ -> _ _]. Qed.

Lemma rigid_lit_level s s' l : rigid s' = rigid s → lit_level s' l = lit_level s l.
Proof.
  intros H. apply rigid_core in H. unfold core in H.
  injection H as Hm _ Hl _ _ _ _ _. by apply lit_level_ext.
Qed.

Lemma update_vars_clause lits f s s' :
  update_vars lits f s = Some s' → clause s' = clause s.
Proof.
  revert s. induction lits as [| l rest IH]; intros s H; simpl in H.
  - by injection H as <-.
  - apply bind_Some in H as (s1 & H1 & H).
    apply update_var_Some in H1 as (v & _ & ->). by apply IH in H.
Qed.

(** The glue [analyze_learn] computes. *)
Lemma analyze_learn_glue s ln s1 :
  analyze_learn s = Some (ln, s1) →
  ∃ lvls, Forall2 (λ l lv, lit_level s l = Some lv) (clause s1) lvls ∧
          ln_glue ln = Z.of_nat (length (remove_dups lvls)).
Proof.
  intros H. pose proof (analyze_learn_rigid _ _ _ H) as Hr.
  unfold analyze_learn in H.
  apply bind_Some in H as (h & Hh & H).
  apply bind_Some in H as ([n s2] & H2 & H).
  apply bind_Some in H as ([uip s3] & H3 & H).
  apply bind_Some in H as (jump & Hj & H).
  apply bind_Some in H as (s4 & H4 & H).
  apply bind_Some in H as (ls & Hls & H).
  injection H as <- <-. simpl.
  apply collect_levels_count in Hls as (lvls & Hf & Hlen).
  exists lvls. split; [| by rewrite Hlen].
  eapply Forall2_impl; [exact Hf |]. intros l lv <-. symmetry.
  apply rigid_lit_level. exact Hr.
Qed.

(** C6. When [analyze] creates a learned clause, the glue passed to
    [new_learned_clause], which the clause records, is the number of
    distinct decision levels among the literals of the clause, read at
    the moment of learning. *)
Theorem learned_glue_counts_levels (s s' : Solver) (c : Clause) :
  analyze s = Some s' → clauses s' = clauses s ++ [c] →
  ∃ ln s1 lvls,
    analyze_learn s = Some (ln, s1) ∧
    c_literals c = clause s1 ∧ c_redundant c = true ∧
    c_glue c = ln_glue ln ∧
    Forall2 (λ l lv, lit_level s l = Some lv) (c_literals c) lvls ∧
    ln_glue ln = Z.of_nat (length (remove_dups lvls)).
Proof.
  intros H Hc. unfold analyze in H.
  apply bind_Some in H as ([ln s1] & H1 & H).
  apply bind_Some in H as (s2 & H2 & H).
  apply bind_Some in H as (s4 & H4 & H). injection H as <-. simpl in Hc.
  pose proof (analyze_learn_rigid _ _ _ H1) as Hr1%rigid_clauses.
  pose proof (clear_seen_and_levels_rigid _ _ H2) as Hr2%rigid_clauses.
  assert (Hcl2 : clause s2 = clause s1).
  { unfold clear_seen_and_levels in H2.
    apply bind_Some in H2 as (s3 & H3 & [= <-]). simpl.
    by apply update_vars_clause in H3. }
  destruct (analyze_learn_glue _ _ _ H1) as (lvls & Hf & Hg).
  simpl in H4. rewrite Hcl2 in H4.
  assert (Hneq : ∀ l : list Clause, l ≠ l ++ [c]).
  { intros l Hl. apply (f_equal length) in Hl. rewrite length_app in Hl.
    simpl in Hl. lia. }
  destruct (clause s1) as [| u [| u' rest]] eqn:Hcl.
  - injection H4 as <-. simpl in Hc. exfalso. apply (Hneq (clauses s)).
    by rewrite <- Hc, Hr2, Hr1.
  - unfold learn_unit_clause in H4.
    apply bind_Some in H4 as (s5 & H5 & H4).
    apply bind_Some in H4 as (s6 & H6 & H4). injection H4 as <-.
    apply backtrack_clauses in H5. apply assign_clauses in H6.
    simpl in Hc, H5. exfalso. apply (Hneq (clauses s)).
    by rewrite <- Hc, H6, H5, Hr2, Hr1.
  - unfold new_learned_clause, new_clause in H4.
    apply bind_Some in H4 as (s5 & H5 & H4).
    apply bind_Some in H4 as (s6 & H6 & H4).
    apply watch_clause_clauses in H5. apply backtrack_clauses in H6.
    apply assign_clauses in H4. simpl in H5.
    rewrite H4, H6, H5, Hr2, Hr1 in Hc.
    apply app_inv_head in Hc. injection Hc as <-. simpl.
    exists ln, s1, lvls. rewrite Hcl. done.
Qed.

Lemma learned_glue_counts_levels_witness :
  ∃ ln s1 lvls,
    analyze_learn uip_conflict = Some (ln, s1) ∧
    [3; 4] = clause s1 ∧ true = true ∧ 2 = ln_glue ln ∧
    Forall2 (λ l lv, lit_level uip_conflict l = Some lv) [3; 4] lvls ∧
    ln_glue ln = Z.of_nat (length (remove_dups lvls)).
Proof.
  apply (learned_glue_counts_levels uip_conflict uip_learned
           (mkClause [3; 4] true 2 0 false false)).
  - vm_compute. reflexivity.
  - vm_compute. reflexivity.
Defined.

(** ** Well-formedness is kept by every operation *)

Lemma clauses_lookup_shape (cs cs' : list Clause) (h : nat) c :
  c_literals <$> cs' = c_literals <$> cs → cs !! h = Some c →
  ∃ c', cs' !! h = Some c' ∧ c_literals c' = c_literals c.
Proof.
  intros Hs Hc.
  assert (H : (c_literals <$> cs') !! h = Some (c_literals c))
    by (by rewrite Hs, list_lookup_fmap, Hc).
  apply list_lookup_fmap_Some in H as (c' & Hc' & ->). eauto.
Qed.

Lemma store_ok_shape s s' :
  c_literals <$> clauses s' = c_literals <$> clauses s →
  store_ok s → store_ok s'.
Proof.
  unfold store_ok. intros Hs H.
  apply (Forall_fmap c_literals (λ l, (2 ≤ length l)%nat)).
  rewrite Hs. by apply Forall_fmap.
Qed.

(** Well-formedness is a property of the shape. *)
Lemma wf_shape s s' : shape s' = shape s → wf s → wf s'.
Proof.
  unfold shape. intros [= Hm Hv Hp Ht Hw Hc Htr Hpr] [[Htab Hcl Hwt Htl] Hst Hpo].
  assert (Hl : ∀ l, lit_ok s l → lit_ok s' l)
    by (intros l; unfold lit_ok; by rewrite Hm).
  assert (Hst' : store_ok s') by (by eapply store_ok_shape).
  constructor; [constructor | done |].
  - eapply tables_ok_ext; [.. | exact Htab]; try done. by rewrite Hw.
  - apply (Forall_fmap c_literals (λ ls, Forall (lit_ok s') ls)). rewrite Hc.
    apply Forall_fmap. eapply Forall_impl; [exact Hcl |]. simpl.
    intros c Hc'. eapply Forall_impl; [exact Hc' | exact Hl].
  - rewrite Hw. eapply Forall_impl; [exact Hwt |]. intros ws Hws.
    eapply Forall_impl; [exact Hws |]. intros w (Hb & c & Hc' & _).
    split; [by apply Hl |].
    destruct (clauses_lookup_shape _ _ _ _ Hc Hc') as (c' & Hc'' & _).
    exists c'. split; [done |]. intros _.
    exact (Forall_lookup_1 _ _ _ _ Hst' Hc'').
  - rewrite Htr. eapply Forall_impl; [exact Htl | exact Hl].
  - unfold propagated_ok. by rewrite Hpr, Htr.
Qed.

Lemma rigid_shape s s' : rigid s' = rigid s → shape s' = shape s.
Proof.
  unfold rigid, shape.
  intros [= -> -> -> -> _ _ -> _ _ _ -> -> -> _ _]. done.
Qed.

Lemma wf_rigid s s' : rigid s' = rigid s → wf s → wf s'.
Proof. intros H. apply wf_shape. by apply rigid_shape. Qed.

Lemma wf_assign lit r s s' : assign lit r s = Some s' → wf s → wf s'.
Proof.
  intros H [Hp Hs Hpo]. pose proof (assign_prop_ok _ _ _ _ H Hp) as Hp'.
  apply assign_Some in H as (v & _ & _ & _ & _ & ->).
  constructor; [done | done |].
  unfold propagated_ok in *. simpl. rewrite length_app. simpl. lia.
Qed.

Lemma wf_backtrack k s s' : backtrack k s = Some s' → wf s → wf s'.
Proof.
  intros (b & q & vs & _ & _ & Hb & -> & Hlen & _)%backtrack_Some
    [[Htab Hcl Hwt Htl] Hs Hpo].
  constructor; [constructor | done |]; simpl; try done.
  - eapply tables_ok_ext; [.. | exact Htab]; done.
  - by apply Forall_take.
  - unfold propagated_ok. simpl. rewrite length_take. lia.
Qed.

Lemma wf_set_wtab_valid wt s :
  length wt = length (wtab s) → Forall (Forall (watch_ok s)) wt →
  wf s → wf (set_wtab wt s).
Proof.
  intros Hlen Hw [[Htab Hcl _ Htl] Hs Hpo].
  constructor; [constructor | done | done]; simpl; try done.
  eapply tables_ok_ext; [.. | exact Htab]; done.
Qed.

Lemma wf_watch_literal lit blit h s s' :
  watch_literal lit blit h s = Some s' → watch_ok s (mkWatch blit h) →
  wf s → wf s'.
Proof.
  intros H Hw [Hp Hs Hpo].
  pose proof (watch_literal_prop_ok _ _ _ _ _ H Hw Hp) as Hp'.
  apply watch_literal_Some in H as (i & ws & _ & _ & ->).
  constructor; done.
Qed.

Lemma wf_store_literals h lits s :
  (2 ≤ length lits)%nat → Forall (lit_ok s) lits →
  wf s → wf (store_literals h lits s).
Proof.
  intros Hlen Hl [[Htab Hcl Hwt Htl] Hs Hpo].
  constructor; [constructor | | done]; simpl; try done.
  - apply Forall_alter; [exact Hcl |]. intros c _ _. exact Hl.
  - eapply Forall_impl; [exact Hwt |]. intros ws Hws.
    eapply Forall_impl; [exact Hws |]. intros w (Hb & c & Hc & _).
    split; [exact Hb |]. simpl.
    destruct (base.decide (h = w_clause w)) as [Heq | Hne].
    + rewrite <- Heq in Hc |- *. exists (clause_set_literals lits c).
      split; [by rewrite list_lookup_alter_eq, Hc | done].
    + exists c. split; [by rewrite list_lookup_alter_ne |].
      intros _. exact (Forall_lookup_1 _ _ _ _ Hs Hc).
  - apply Forall_alter; [exact Hs |]. intros c _ _. exact Hlen.
Qed.

(** A well-formed state makes every watch with a literal of the table and
    a handle of the store well-formed. *)
Lemma wf_watch_ok s blit h :
  wf s → lit_ok s blit → (h < length (clauses s))%nat →
  watch_ok s (mkWatch blit h).
Proof.
  intros [_ Hs _] Hb Hh. split; [exact Hb |].
  apply lookup_lt_is_Some in Hh as [c Hc]. exists c. split; [done |].
  intros _. exact (Forall_lookup_1 _ _ _ _ Hs Hc).
Qed.

Lemma wf_watch_clause h s s' : watch_clause h s = Some s' → wf s → wf s'.
Proof.
  unfold watch_clause. intros H Hwf.
  apply bind_Some in H as (c & Hc & H).
  destruct (c_literals c) as [| l0 [| l1 tl]] eqn:Hl; [done | done |].
  apply bind_Some in H as (s1 & H1 & H).
  pose proof (Forall_lookup_1 _ _ _ _ (po_clauses _ (wf_prop _ Hwf)) Hc) as Hlits.
  simpl in Hlits. rewrite Hl in Hlits.
  apply Forall_cons in Hlits as [Hl0 Hlits]. apply Forall_cons in Hlits as [Hl1 _].
  pose proof (lookup_lt_Some _ _ _ Hc) as Hh.
  assert (Hwf1 : wf s1).
  { eapply wf_watch_literal; [exact H1 | | exact Hwf]. by apply wf_watch_ok. }
  eapply wf_watch_literal; [exact H | | exact Hwf1].
  apply wf_watch_ok; [done | |].
  - apply watch_literal_Some in H1 as (? & ? & _ & _ & ->). exact Hl0.
  - apply watch_literal_Some in H1 as (? & ? & _ & _ & ->). exact Hh.
Qed.

Lemma store_ok_store_literals h lits s :
  (2 ≤ length lits)%nat → store_ok s → store_ok (store_literals h lits s).
Proof.
  intros Hlen Hs. unfold store_ok. simpl.
  apply Forall_alter; [exact Hs |]. intros c _ _. exact Hlen.
Qed.

(** The scan of the watches leaves [unsat] and [level] alone and keeps
    the two watched slots of every clause. *)
Lemma propagate_watches_frame nl ws s ok kept s' :
  propagate_watches nl ws s = Some (ok, kept, s') →
  (store_ok s → store_ok s') ∧ unsat s' = unsat s ∧ level s' = level s.
Proof.
  revert s ok kept s'. induction ws as [| w rest IH]; intros s ok kept s' H.
  - simpl in H. injection H as <- <- <-. done.
  - simpl in H.
    apply bind_Some in H as (b & Hb & H).
    destruct (0 <? b).
    { apply bind_Some in H as ([[ok1 kept1] s1] & H1 & H).
      injection H as <- <- <-. by apply IH in H1. }
    apply bind_Some in H as (c & Hc & H).
    destruct (c_garbage c); [by apply IH in H |].
    destruct (c_literals c) as [| x0 [| x1 tl]]; [done | done |].
    set (c0 := if x0 =? nl then x1 else x0) in *.
    set (c1 := if x0 =? nl then x0 else x1) in *.
    assert (Hst0 : store_ok s →
              store_ok (store_literals (w_clause w) (c0 :: c1 :: tl) s))
      by (apply store_ok_store_literals; simpl; lia).
    apply bind_Some in H as (u & Hu & H).
    destruct (0 <? u).
    { apply bind_Some in H as ([[ok1 kept1] s1] & H1 & H).
      injection H as <- <- <-. apply IH in H1 as (Hs1 & Hu1 & Hl1).
      split; [auto | done]. }
    apply bind_Some in H as (r & Hr & H).
    destruct r as [[i k] |].
    { apply bind_Some in H as (s2 & H2 & H).
      apply watch_literal_Some in H2 as (? & ? & _ & _ & ->).
      apply IH in H as (Hs1 & Hu1 & Hl1). split; [| done].
      intros Hs. apply Hs1. unfold store_ok. simpl.
      apply Forall_alter; [by apply Hst0 |]. intros ? _ _. simpl. lia. }
    destruct (u <? 0).
    { injection H as <- <- <-. split; [| done]. exact Hst0. }
    apply bind_Some in H as (s1 & H1 & H).
    apply bind_Some in H as ([[ok1 kept1] s2] & H2 & H).
    injection H as <- <- <-.
    apply IH in H2 as (Hs2 & Hu2 & Hl2).
    apply assign_Some in H1 as (v & _ & _ & _ & _ & ->).
    split; [| done]. intros Hs. apply Hs2. by apply Hst0.
Qed.

Lemma propagate_literal_frame lit s ok s' :
  propagate_literal lit s = Some (ok, s') →
  (store_ok s → store_ok s') ∧ unsat s' = unsat s ∧ level s' = level s.
Proof.
  unfold propagate_literal. intros H.
  apply bind_Some in H as (i & Hi & H).
  apply bind_Some in H as (ws & Hws & H).
  apply bind_Some in H as ([[ok1 kept] s1] & H1 & H).
  apply bind_Some in H as (wtab' & Hwtab & H).
  injection H as <- <-.
  by apply propagate_watches_frame in H1.
Qed.

Lemma propagate_loop_frame fuel s b s' :
  propagate_loop fuel s = Some (b, s') →
  (store_ok s → store_ok s') ∧ unsat s' = unsat s ∧ level s' = level s.
Proof.
  revert s. induction fuel as [| fuel IH]; intros s H; simpl in H.
  - destruct (propagated s <? _); [done |]. by injection H as <- <-.
  - destruct (propagated s <? _); [| by injection H as <- <-].
    apply bind_Some in H as (lit & Hlit & H).
    destruct (propagate_literal _ _) as [[[|] s1] |] eqn:H1; [| | done].
    + apply propagate_literal_frame in H1 as (Hs1 & Hu1 & Hl1).
      apply IH in H as (Hs2 & Hu2 & Hl2).
      split; [auto |]. split; [by rewrite Hu2 | by rewrite Hl2].
    + injection H as <- <-. by apply propagate_literal_frame in H1.
Qed.

(** [propagate] on a well-formed state. *)
Lemma propagate_wf s :
  wf s →
  ∃ b s', propagate s = Some (b, s') ∧ wf s' ∧
    unsat s' = unsat s ∧ level s' = level s ∧
    (if b then propagated s' = Z.of_nat (length (trail s')) ∧
               conflict s' = conflict s
     else ∃ h, conflict s' = Some h).
Proof.
  intros [Hp Hs Hpo].
  destruct (propagate_loop_total (propagate_fuel s) s Hp Hpo (le_n _))
    as (b & s' & H & Hp' & Hpo' & Hres).
  exists b, s'. split; [exact H |].
  apply propagate_loop_frame in H as (Hs' & Hu & Hl).
  split; [constructor; auto |]. done.
Qed.

(** Nothing is left to propagate: [propagate] returns at once. *)
Lemma propagate_nothing s :
  propagated s = Z.of_nat (length (trail s)) → propagate s = Some (true, s).
Proof.
  intros H. unfold propagate.
  destruct (propagate_fuel s); simpl; rewrite H, Z.ltb_irrefl; done.
Qed.

Lemma rigid_fields s s' :
  rigid s' = rigid s →
  max_var s' = max_var s ∧ unsat s' = unsat s ∧ level s' = level s ∧
  trail s' = trail s ∧ propagated s' = propagated s ∧
  clauses s' = clauses s ∧ conflict s' = conflict s.
Proof.
  unfold rigid. intros [= -> _ _ _ _ _ _ -> -> _ -> -> -> -> _]. done.
Qed.

Lemma decide_wf s s' :
  decide s = Some s' → wf s →
  wf s' ∧ conflict s' = conflict s ∧ unsat s' = unsat s.
Proof.
  unfold decide. intros H Hwf.
  apply bind_Some in H as ([idx s1] & H1 & H).
  apply bind_Some in H as (ph & Hph & H).
  apply next_decision_variable_rigid in H1.
  pose proof (rigid_fields _ _ H1) as (_ & Hu & _ & _ & _ & _ & Hc).
  assert (Hwf1 : wf (set_stats (stats_inc_decisions (stats s1)) (new_level s1))).
  { apply (wf_shape s1); [done |]. by apply (wf_rigid s). }
  split; [by eapply wf_assign |].
  apply assign_Some in H as (v & _ & _ & _ & _ & ->). simpl. done.
Qed.

Lemma restart_wf s s' :
  restart s = Some s' → wf s →
  wf s' ∧ conflict s' = None ∧ unsat s' = unsat s.
Proof.
  unfold restart. intros H Hwf.
  apply bind_Some in H as (k & Hk & H).
  apply bind_Some in H as (s1 & H1 & H). injection H as <-.
  pose proof (wf_backtrack _ _ _ H1 Hwf) as Hwf1.
  split; [by apply (wf_shape s1) |].
  apply backtrack_Some in H1 as (b & q & vs & _ & _ & _ & -> & _). done.
Qed.

Lemma learn_unit_clause_wf lit s s' :
  learn_unit_clause lit s = Some s' → wf s →
  wf s' ∧ conflict s' = None ∧ level s' = 0 ∧ unsat s' = unsat s.
Proof.
  unfold learn_unit_clause. intros H Hwf.
  apply bind_Some in H as (s1 & H1 & H).
  apply bind_Some in H as (s2 & H2 & H). injection H as <-.
  pose proof (wf_backtrack _ _ _ H1 Hwf) as Hwf1.
  pose proof (wf_assign _ _ _ _ H2 Hwf1) as Hwf2.
  split; [by apply (wf_shape s2) |].
  apply backtrack_Some in H1 as (b & q & vs & _ & _ & _ & -> & _).
  apply assign_Some in H2 as (v & _ & _ & _ & _ & ->). done.
Qed.

(** ** The literals of the learned clause *)

Lemma update_var_clause idx f s s' :
  update_var idx f s = Some s' → clause s' = clause s.
Proof. by intros (v & _ & ->)%update_var_Some. Qed.

Lemma bump_clause idx s s' : bump idx s = Some s' → clause s' = clause s.
Proof.
  unfold bump, enqueue, dequeue. intros H.
  apply bind_Some in H as (s1 & H1 & H).
  apply bind_Some in H as (s2 & H2 & H).
  apply bind_Some in H as (s3 & H3 & H). injection H as <-. simpl.
  apply bind_Some in H1 as (v & Hv & H1).
  apply bind_Some in H1 as (s4 & H4 & H1).
  assert (E4 : clause s4 = clause s).
  { destruct (v_prev v =? 0); [by injection H4 as <- |].
    by apply update_var_clause in H4. }
  assert (E1 : clause s1 = clause s4).
  { destruct (v_next v =? 0); [by injection H1 as <- |].
    by apply update_var_clause in H1. }
  apply update_var_clause in H2.
  apply bind_Some in H3 as (s5 & H5 & H3).
  apply bind_Some in H3 as (s6 & H6 & H3). injection H3 as <-. simpl.
  apply update_var_clause in H5.
  assert (E6 : clause s6 = clause s5).
  { destruct (q_last (queue s2) =? 0); [by injection H6 as <- |].
    by apply update_var_clause in H6. }
  by rewrite E6, H5, H2, E1, E4.
Qed.


Lemma clause_ok_ext s s' :
  max_var s' = max_var s → clause s' = clause s → clause_ok s → clause_ok s'.
Proof. unfold clause_ok, lit_ok. by intros -> ->. Qed.

Lemma analyze_literal_clause_ok q s b s' :
  analyze_literal q s = Some (b, s') → clause_ok s → clause_ok s'.
Proof.
  intros H Hok.
  pose proof (analyze_literal_rigid _ _ _ _ H) as (Hm & _)%rigid_fields.
  unfold analyze_literal in H.
  apply bind_Some in H as (idx & Hidx & H).
  apply vidx_Some in Hidx as [Hq _].
  apply bind_Some in H as (v & Hv & H).
  destruct (v_seen v); [by injection H as <- <- |].
  apply bind_Some in H as (s1 & H1 & H).
  apply bind_Some in H as (s2 & H2 & H).
  apply update_var_clause in H1. apply bump_clause in H2. simpl in H2.
  destruct (v_level v =? level s); injection H as <- <-.
  - apply (clause_ok_ext s); [done | by rewrite H2, H1 | done].
  - unfold clause_ok in *. simpl in *. rewrite H2, H1.
    assert (Hl : ∀ l, lit_ok s l → lit_ok s2 l)
      by (intros l; unfold lit_ok; by rewrite Hm).
    apply Forall_app. split.
    + eapply Forall_impl; [exact Hok | exact Hl].
    + apply Forall_singleton. by apply Hl.
Qed.

Lemma resolve_literals_clause_ok lits s n s' :
  resolve_literals lits s = Some (n, s') → clause_ok s → clause_ok s'.
Proof.
  revert s n s'. induction lits as [| q rest IH]; intros s n s' H Hok; simpl in H.
  - by injection H as <- <-.
  - apply bind_Some in H as ([b s1] & H1 & H).
    apply bind_Some in H as ([m s2] & H2 & H).
    injection H as <- <-.
    eapply IH; [exact H2 |]. by eapply analyze_literal_clause_ok.
Qed.

Lemma resolve_clause_clause_ok h s n s' :
  resolve_clause h s = Some (n, s') → clause_ok s → clause_ok s'.
Proof.
  unfold resolve_clause. intros H Hok.
  apply bind_Some in H as (c & Hc & H).
  eapply resolve_literals_clause_ok; [exact H |]. by destruct (c_redundant c).
Qed.

Lemma analyze_loop_clause_ok rtrail open s uip s' :
  analyze_loop rtrail open s = Some (uip, s') → clause_ok s →
  clause_ok s' ∧ lit_ok s uip.
Proof.
  revert open s. induction rtrail as [| p rest IH]; intros open s H Hok;
    simpl in H; [done |].
  apply bind_Some in H as (v & Hv & H).
  destruct (v_seen v); simpl in H; [| by eapply IH].
  destruct (open - 1 =? 0).
  - injection H as <- <-. split; [done |].
    unfold var in Hv. apply bind_Some in Hv as (idx & Hidx & _).
    by apply vidx_Some in Hidx as [? _].
  - apply bind_Some in H as (h & Hh & H).
    apply bind_Some in H as ([n s1] & H1 & H).
    pose proof (resolve_clause_rigid _ _ _ _ H1) as (Hm & _)%rigid_fields.
    apply resolve_clause_clause_ok in H1; [| done].
    apply IH in H as [Hok' Hu]; [| done].
    split; [done |]. unfold lit_ok in *. by rewrite <- Hm.
Qed.

Lemma minimize_literals_Forall (P : Z → Prop) lits s kept s' :
  minimize_literals lits s = Some (kept, s') → Forall P lits → Forall P kept.
Proof.
  revert s kept s'. induction lits as [| l rest IH]; intros s kept s' H HP;
    simpl in H.
  - by injection H as <- <-.
  - apply bind_Some in H as ([r s1] & H1 & H).
    apply bind_Some in H as ([k s2] & H2 & H).
    injection H as <- <-. apply Forall_cons in HP as [Hl Hrest].
    apply IH in H2; [| done]. destruct r; [done |]. by apply Forall_cons.
Qed.

Lemma minimize_clause_clause_ok s s' :
  minimize_clause s = Some s' → clause_ok s →
  clause_ok s' ∧ (clause s ≠ [] → clause s' ≠ []).
Proof.
  intros H Hok.
  pose proof (minimize_clause_rigid _ _ H) as (Hm & _)%rigid_fields.
  unfold minimize_clause in H. unfold clause_ok in *.
  destruct (clause s) as [| first rest] eqn:Hcl.
  - injection H as <-. rewrite Hcl. done.
  - apply bind_Some in H as ([kept s1] & H1 & H).
    apply bind_Some in H as (s2 & H2 & H). injection H as <-. simpl.
    split; [| done]. apply Forall_cons in Hok as [Hf Hrest].
    apply (minimize_literals_Forall _ _ _ _ _ H1) in Hrest.
    simpl in Hm.
    assert (Hl : ∀ l, lit_ok s l → lit_ok s2 l)
      by (intros l; unfold lit_ok; by rewrite Hm).
    apply Forall_cons. split; [by apply Hl |].
    eapply Forall_impl; [exact Hrest | exact Hl].
Qed.

(** The clause [analyze_learn] leaves in [clause] is not empty and its
    literals index the tables. *)
Lemma analyze_learn_clause s ln s1 :
  analyze_learn s = Some (ln, s1) → max_var_ok s →
  clause_ok s1 ∧ clause s1 ≠ [].
Proof.
  unfold analyze_learn. intros H Hmv.
  apply bind_Some in H as (h & Hh & H).
  apply bind_Some in H as ([n s2] & H2 & H).
  apply bind_Some in H as ([uip s3] & H3 & H).
  apply bind_Some in H as (jump & Hj & H).
  apply bind_Some in H as (s4 & H4 & H).
  apply bind_Some in H as (ls & Hls & H).
  injection H as <- <-.
  pose proof (resolve_clause_rigid _ _ _ _ H2) as (Hm2 & _)%rigid_fields.
  pose proof (analyze_loop_rigid _ _ _ _ _ H3) as (Hm3 & _)%rigid_fields.
  simpl in Hm2.
  apply resolve_clause_clause_ok in H2; [| by apply Forall_nil_2].
  apply analyze_loop_clause_ok in H3 as [Hok3 Hu]; [| done].
  apply minimize_clause_clause_ok in H4 as [Hok4 Hne].
  - split; [exact Hok4 |]. apply Hne. done.
  - unfold clause_ok. simpl. apply Forall_cons. split; [| exact Hok3].
    change (lit_ok s3 (- uip)). apply vidx_neg.
    + unfold max_var_ok in *. by rewrite Hm3, Hm2.
    + revert Hu. unfold lit_ok. by rewrite Hm3.
Qed.

Lemma wf_new_clause c s :
  Forall (lit_ok s) (c_literals c) → (2 ≤ length (c_literals c))%nat →
  wf s → wf (set_clauses (clauses s ++ [c]) s).
Proof.
  intros Hl Hlen [[Htab Hcl Hwt Htl] Hs Hpo].
  constructor; [constructor | | done]; simpl; try done.
  - apply Forall_app. split; [exact Hcl |]. by apply Forall_singleton.
  - eapply Forall_impl; [exact Hwt |]. intros ws Hws.
    eapply Forall_impl; [exact Hws |]. intros w (Hb & c' & Hc' & H2).
    split; [exact Hb |]. exists c'. split; [| exact H2].
    by apply lookup_app_l_Some.
  - apply Forall_app. split; [exact Hs |]. by apply Forall_singleton.
Qed.

Lemma backtrack_fields k s s' :
  backtrack k s = Some s' →
  conflict s' = None ∧ unsat s' = unsat s ∧ level s' = k ∧
  propagated s' = Z.of_nat (length (trail s')).
Proof.
  intros (b & q & vs & _ & _ & Hb & -> & _)%backtrack_Some. simpl.
  rewrite length_take. repeat split; try done. lia.
Qed.

Lemma assign_fields lit r s s' :
  assign lit r s = Some s' →
  conflict s' = conflict s ∧ unsat s' = unsat s ∧ level s' = level s ∧
  propagated s' = propagated s.
Proof. by intros (v & _ & _ & _ & _ & ->)%assign_Some. Qed.

Lemma watch_clause_fields h s s' :
  watch_clause h s = Some s' →
  conflict s' = conflict s ∧ unsat s' = unsat s.
Proof.
  unfold watch_clause. intros H.
  apply bind_Some in H as (c & Hc & H).
  destruct (c_literals c) as [| l0 [| l1 tl]]; [done | done |].
  apply bind_Some in H as (s1 & H1 & H).
  apply watch_literal_Some in H1 as (? & ? & _ & _ & ->).
  by apply watch_literal_Some in H as (? & ? & _ & _ & ->).
Qed.

(** [analyze] keeps a state well-formed, resets [conflict] and never
    raises [unsat]: the clause it learns has the negated UIP in it. *)
Lemma analyze_wf s s' :
  analyze s = Some s' → wf s →
  wf s' ∧ conflict s' = None ∧ unsat s' = unsat s.
Proof.
  unfold analyze. intros H Hwf.
  apply bind_Some in H as ([ln s1] & H1 & H).
  apply bind_Some in H as (s2 & H2 & H).
  apply bind_Some in H as (s4 & H4 & H). injection H as <-.
  pose proof (analyze_learn_rigid _ _ _ H1) as Hr1.
  pose proof (clear_seen_and_levels_rigid _ _ H2) as Hr2.
  pose proof (rigid_fields _ _ Hr1) as (Hm1 & Hu1 & _).
  pose proof (rigid_fields _ _ Hr2) as (Hm2 & Hu2 & _).
  assert (Hmv : max_var_ok s) by (by destruct Hwf as [[[? _] _ _ _] _ _]).
  destruct (analyze_learn_clause _ _ _ H1 Hmv) as [Hok1 Hne1].
  assert (Hcl2 : clause s2 = clause s1).
  { unfold clear_seen_and_levels in H2.
    apply bind_Some in H2 as (s3 & H3 & [= <-]). simpl.
    by apply update_vars_clause in H3. }
  set (s3 := set_conflict None (set_stats (stats_inc_conflicts (stats s2)) s2)) in *.
  assert (Hwf3 : wf s3).
  { apply (wf_shape s2); [done |]. apply (wf_rigid s1); [done |].
    by apply (wf_rigid s). }
  assert (Hok3 : Forall (lit_ok s3) (clause s3)).
  { unfold s3. simpl. rewrite Hcl2. eapply Forall_impl; [exact Hok1 |].
    intros l. unfold lit_ok. simpl. by rewrite Hm2. }
  assert (Hu3 : unsat s3 = unsat s) by (unfold s3; simpl; by rewrite Hu2).
  assert (Hgoal : wf s4 ∧ conflict s4 = None ∧ unsat s4 = unsat s).
  { destruct (clause s3) as [| u [| u' rest]] eqn:Hcl.
    - unfold s3 in Hcl. simpl in Hcl. by rewrite Hcl2 in Hcl.
    - apply learn_unit_clause_wf in H4 as (? & ? & _ & ?); [| done].
      split; [done |]. split; [done | congruence].
    - unfold new_learned_clause, new_clause in H4. rewrite Hcl in H4.
      apply bind_Some in H4 as (s5 & H5 & H4).
      apply bind_Some in H4 as (s6 & H6 & H4).
      assert (Hwf5 : wf s5).
      { eapply wf_watch_clause; [exact H5 |].
        apply wf_new_clause; [exact Hok3 | simpl; lia | done]. }
      pose proof (wf_backtrack _ _ _ H6 Hwf5) as Hwf6.
      split; [by eapply wf_assign |].
      apply watch_clause_fields in H5 as (_ & Hu5).
      apply backtrack_fields in H6 as (Hc6 & Hu6 & _).
      apply assign_fields in H4 as (Hc4 & Hu4 & _).
      split; [congruence |]. simpl in Hu5. congruence. }
  destruct Hgoal as (Hwf4 & Hc4 & Hu4).
  split; [by apply (wf_shape s4) | done].
Qed.

(** ** Reduction keeps a state well-formed *)

Lemma alter_flags_literals (f : Clause → Clause) h (cs : list Clause) :
  (∀ c, c_literals (f c) = c_literals c) →
  c_literals <$> alter f h cs = c_literals <$> cs.
Proof.
  intros Hf. rewrite (list_fmap_alter _ _ id).
  - by apply list_alter_id.
  - apply Forall_forall. intros c _. apply Hf.
Qed.

Lemma foldr_alter_flags_literals {A} (f : A → Clause → Clause) (g : A → nat)
    (xs : list A) (cs : list Clause) :
  (∀ a c, c_literals (f a c) = c_literals c) →
  c_literals <$> foldr (λ a, alter (f a) (g a)) cs xs = c_literals <$> cs.
Proof.
  intros Hf. induction xs as [| a xs IH]; [done |]. simpl.
  rewrite alter_flags_literals; [exact IH | apply Hf].
Qed.

Lemma protect_reasons_shape s : shape (protect_reasons s) = shape s.
Proof.
  unfold shape, protect_reasons. simpl.
  by rewrite (foldr_alter_flags_literals (λ _, clause_set_flags false true) id).
Qed.

Lemma mark_garbage_shape h s : shape (mark_garbage h s) = shape s.
Proof.
  unfold shape, mark_garbage. simpl. by rewrite alter_flags_literals.
Qed.

Lemma unprotect_reasons_shape s : shape (unprotect_reasons s) = shape s.
Proof.
  unfold shape, unprotect_reasons. simpl. by rewrite <- list_fmap_compose.
Qed.

Lemma mark_useless_shape s :
  shape (mark_useless_redundant_clauses_as_garbage s) = shape s.
Proof.
  unfold shape, mark_useless_redundant_clauses_as_garbage. simpl.
  by rewrite (foldr_alter_flags_literals (λ _, clause_mark_garbage) fst).
Qed.

Lemma flush_falsified_literals_Forall (P : Z → Prop) lits s r :
  flush_falsified_literals lits s = Some r → Forall P lits → Forall P r.
Proof.
  revert r. induction lits as [| l rest IH]; intros r H HP; simpl in H.
  - by injection H as <-.
  - apply bind_Some in H as (f & Hf & H).
    apply bind_Some in H as (r' & Hr' & H). injection H as <-.
    apply Forall_cons in HP as [Hl Hrest]. specialize (IH r' Hr' Hrest).
    destruct (f <? 0); [done | by apply Forall_cons].
Qed.


Lemma reduce_ok_shape s s' :
  shape s' = shape s → conflict s' = conflict s → level s' = level s →
  reduce_ok s → reduce_ok s'.
Proof.
  intros Hs Hc Hl (Hwf & Hcf & Hj). pose proof Hs as Hs'. unfold shape in Hs'.
  injection Hs' as _ _ _ _ _ _ Htr Hpr.
  split; [by eapply wf_shape |]. split; [congruence |].
  rewrite Hl, Hpr, Htr. exact Hj.
Qed.

Lemma flush_clause_reduce_ok h s s' :
  flush_clause h s = Some s' → reduce_ok s → reduce_ok s'.
Proof.
  unfold flush_clause. intros H Hok.
  apply bind_Some in H as (c & Hc & H).
  destruct (c_garbage c); [by injection H as <- |].
  apply bind_Some in H as (f & Hf & H).
  assert (Hmg : reduce_ok (mark_garbage h s))
    by (apply (reduce_ok_shape s); [apply mark_garbage_shape | done | done | done]).
  destruct (0 <? f); [by injection H as <- |].
  destruct (f <? 0); [| by injection H as <-].
  apply bind_Some in H as (lits & Hlits & H).
  destruct lits as [| u [| u' rest]].
  - injection H as <-. by apply (reduce_ok_shape (mark_garbage h s)).
  - destruct Hmg as (Hwf & _ & _).
    apply learn_unit_clause_wf in H as (Hwf' & Hc' & Hl' & _); [| done].
    split; [done |]. split; [done | by left].
  - injection H as <-. destruct Hok as (Hwf & Hcf & Hj).
    split; [| done]. apply wf_store_literals; [simpl; lia | | done].
    eapply flush_falsified_literals_Forall; [exact Hlits |].
    exact (Forall_lookup_1 _ _ _ _ (po_clauses _ (wf_prop _ Hwf)) Hc).
Qed.

Lemma flush_clauses_reduce_ok hs s s' :
  flush_clauses hs s = Some s' → reduce_ok s → reduce_ok s'.
Proof.
  revert s. induction hs as [| h rest IH]; intros s H Hok; simpl in H.
  - by injection H as <-.
  - apply bind_Some in H as (s1 & H1 & H).
    eapply IH; [exact H |]. by eapply flush_clause_reduce_ok.
Qed.

Lemma watch_clause_set_wtab h s s' :
  watch_clause h s = Some s' → ∃ wt, s' = set_wtab wt s.
Proof.
  unfold watch_clause. intros H.
  apply bind_Some in H as (c & Hc & H).
  destruct (c_literals c) as [| l0 [| l1 tl]]; [done | done |].
  apply bind_Some in H as (s1 & H1 & H).
  apply watch_literal_Some in H1 as (? & ? & _ & _ & ->).
  apply watch_literal_Some in H as (? & ? & _ & _ & ->). by eexists.
Qed.

Lemma watch_clauses_set_wtab hs s s' :
  watch_clauses hs s = Some s' → ∃ wt, s' = set_wtab wt s.
Proof.
  revert s. induction hs as [| h rest IH]; intros s H; simpl in H.
  - injection H as <-. exists (wtab s). by destruct s.
  - apply bind_Some in H as (c & Hc & H).
    destruct (c_garbage c || _); [by apply IH |].
    apply bind_Some in H as (s1 & H1 & H).
    apply watch_clause_set_wtab in H1 as (wt1 & ->).
    apply IH in H as (wt & ->). by eexists.
Qed.

Lemma watch_clauses_wf hs s s' : watch_clauses hs s = Some s' → wf s → wf s'.
Proof.
  revert s. induction hs as [| h rest IH]; intros s H Hwf; simpl in H.
  - by injection H as <-.
  - apply bind_Some in H as (c & Hc & H).
    destruct (c_garbage c || _); [by eapply IH |].
    apply bind_Some in H as (s1 & H1 & H).
    eapply IH; [exact H |]. by eapply wf_watch_clause.
Qed.

Lemma Forall_filter_1 {A} (P Q : A → Prop) `{∀ x, Decision (Q x)} (l : list A) :
  Forall P l → Forall P (filter Q l).
Proof.
  rewrite !Forall_forall. intros HP x [_ Hx]%list_elem_of_filter. by apply HP.
Qed.

(** The collection, with the watch lists emptied for the rebuild. *)
Lemma garbage_collection_wf s :
  wf s →
  wf (set_wtab (replicate (length (wtab (garbage_collection (flush_watches s)))) [])
        (garbage_collection (flush_watches s))).
Proof.
  intros [[Htab Hcl _ Htl] Hs Hpo].
  constructor; [constructor | |]; simpl.
  - eapply tables_ok_ext; [.. | exact Htab]; simpl; try done.
    + by rewrite length_fmap.
    + by rewrite length_replicate, !length_fmap.
  - by apply Forall_filter_1.
  - apply Forall_replicate. constructor.
  - exact Htl.
  - by apply Forall_filter_1.
  - exact Hpo.
Qed.

Lemma garbage_collection_reduce_ok s :
  reduce_ok s →
  reduce_ok
    (set_wtab (replicate (length (wtab (garbage_collection (flush_watches s)))) [])
       (garbage_collection (flush_watches s))).
Proof.
  intros (Hwf & Hc & Hj). split; [by apply garbage_collection_wf |].
  simpl. rewrite Hc. done.
Qed.

Lemma watch_clauses_reduce_ok hs s s' :
  watch_clauses hs s = Some s' → reduce_ok s → reduce_ok s'.
Proof.
  intros H (Hwf & Hc & Hj).
  split; [by eapply watch_clauses_wf |].
  by apply watch_clauses_set_wtab in H as (wt & ->).
Qed.

Lemma reduce_finish_ok s :
  reduce_ok s → reduce_ok (update_reduce_limit (unprotect_reasons s)).
Proof.
  intros Hok. apply (reduce_ok_shape (unprotect_reasons s)); [done | done | done |].
  apply (reduce_ok_shape s); [apply unprotect_reasons_shape | done | done | done].
Qed.

Lemma setup_watches_reduce_ok s s' :
  setup_watches s = Some s' →
  reduce_ok (set_wtab (replicate (length (wtab s)) []) s) → reduce_ok s'.
Proof.
  unfold setup_watches. intros H Hok. eapply watch_clauses_reduce_ok; [exact H | exact Hok].
Qed.

(** [reduce], entered as the loop of [search] enters it, keeps the state
    well-formed and without a conflict, and leaves it at the root level
    or propagated to the end of the trail. *)
Lemma reduce_reduce_ok s s' : reduce s = Some s' → reduce_ok s → reduce_ok s'.
Proof.
  unfold reduce. intros H Hok.
  apply bind_Some in H as (s1 & H1 & H).
  apply bind_Some in H as (s2 & H2 & H). injection H as <-.
  apply reduce_finish_ok.
  eapply setup_watches_reduce_ok; [exact H2 |].
  apply garbage_collection_reduce_ok.
  apply (reduce_ok_shape s1); [apply mark_useless_shape | reflexivity | reflexivity |].
  eapply flush_clauses_reduce_ok; [exact H1 |].
  apply (reduce_ok_shape s); [apply protect_reasons_shape | reflexivity | reflexivity | exact Hok].
Qed.

(** ** The rounds of the search loop *)

Section SearchFacts.

Variable restarting : Solver → bool.
Variable terminate_requested : Solver → bool.

Local Abbreviation round := (search_round restarting terminate_requested).
Local Abbreviation run := (search restarting terminate_requested).
Local Abbreviation at_loop_head := (search_state restarting terminate_requested).

(** A round that does not return hands a state on that is fit for the
    head of the loop again. *)
Lemma search_round_loop_ok s s' :
  loop_ok s → round s = Some (Continue s') → loop_ok s'.
Proof.
  intros [Hwf Hcf Hun] H. unfold search_round in H.
  destruct (propagate_wf s Hwf) as (b & s1 & Hp & Hwf1 & Hu1 & Hl1 & Hres).
  rewrite Hp in H. simpl in H. destruct b; simpl in H.
  - destruct Hres as [Hpr1 Hc1]. rewrite Hcf in Hc1.
    destruct (unsat s1) eqn:Hus1; [done |].
    destruct (satisfied s1); [done |].
    destruct (terminate_requested s1); [done |].
    destruct (restarting s1).
    { apply bind_Some in H as (s2 & H2 & [= <-]).
      apply restart_wf in H2 as (? & ? & Hu2); [| done].
      constructor; [done | done |]. rewrite Hu2, Hus1. done. }
    destruct (reducing s1).
    { apply bind_Some in H as (s2 & H2 & [= <-]).
      apply reduce_reduce_ok in H2 as (? & ? & ?);
        [| split; [done | split; [done | by right]]].
      constructor; done. }
    apply bind_Some in H as (s2 & H2 & [= <-]).
    apply decide_wf in H2 as (? & Hc2 & Hu2); [| done].
    constructor; [done | congruence |]. rewrite Hu2, Hus1. done.
  - destruct (level s1 =? 0) eqn:Hlv; [done |].
    apply bind_Some in H as (s2 & H2 & [= <-]).
    apply analyze_wf in H2 as (? & ? & Hu2); [| done].
    constructor; [done | done |]. rewrite Hu2, Hu1. intros Hu.
    destruct (Hun Hu) as [Hl0 | Hpr].
    + apply Z.eqb_neq in Hlv. congruence.
    + rewrite (propagate_nothing s Hpr) in Hp. done.
Qed.

Lemma search_state_loop_ok s : at_loop_head s → loop_ok s.
Proof.
  induction 1 as [s Hwf Hcf Hl | s s' _ IH Hr].
  - constructor; [done | done | by left].
  - by eapply search_round_loop_ok.
Qed.

(** With [unsat] raised at the head of the loop the round returns UNSAT. *)
Lemma search_unsat s fuel :
  loop_ok s → unsat s = true →
  ∃ s', run (S fuel) s = Some (UNSATISFIABLE, s') ∧ unsat s' = true.
Proof.
  intros [Hwf Hcf Hun] Hu. simpl. unfold search_round.
  destruct (propagate_wf s Hwf) as (b & s1 & Hp & Hwf1 & Hu1 & Hl1 & Hres).
  rewrite Hp. simpl. destruct b; simpl.
  - rewrite Hu1, Hu. exists s1. split; [done | congruence].
  - destruct (Hun Hu) as [Hl0 | Hpr].
    + rewrite Hl1, Hl0. simpl. eexists. split; [done | done].
    + rewrite (propagate_nothing s Hpr) in Hp. done.
Qed.

(** C7. Across every step of the solver the counter [stats.fixed] never
    decreases and [unsat], once true, stays true; and when [unsat] is
    true at the head of the loop of [search], the search returns
    UNSAT. *)
Theorem unsat_and_fixed_monotone :
  (∀ s s', solver_step s s' →
     st_fixed (stats s) <= st_fixed (stats s') ∧
     (unsat s = true → unsat s' = true)) ∧
  (∀ s fuel, search_state restarting terminate_requested s →
     unsat s = true →
     ∃ s', search restarting terminate_requested (S fuel) s
             = Some (UNSATISFIABLE, s') ∧
           unsat s' = true).
Proof.
  split.
  - intros s s' Hstep. apply evolves_monotone. by apply solver_step_evolves.
  - intros s fuel Hs Hu. apply search_unsat; [| done].
    by apply search_state_loop_ok.
Qed.

End SearchFacts.

Lemma empty_clause_root_wf : wf empty_clause_root.
Proof.
  constructor; [constructor | |].
  - vm_compute. repeat split; discriminate.
  - norm (clauses empty_clause_root). constructor.
  - norm (wtab empty_clause_root). solve_Forall ltac:(apply Forall_nil_2).
  - norm (trail empty_clause_root). constructor.
  - unfold store_ok. norm (clauses empty_clause_root). constructor.
  - vm_compute. split; discriminate.
Qed.

Lemma unsat_and_fixed_monotone_witness :
  (st_fixed (stats s3_root) <= st_fixed (stats s3_decided) ∧
   (unsat s3_root = true → unsat s3_decided = true)) ∧
  (∃ s', search never never 1 empty_clause_root = Some (UNSATISFIABLE, s') ∧
         unsat s' = true).
Proof.
  destruct (unsat_and_fixed_monotone never never) as [Hstep Hsearch].
  split.
  - apply Hstep. apply step_decide. vm_compute. reflexivity.
  - apply Hsearch; [| reflexivity].
    apply ss_enter; [exact empty_clause_root_wf | reflexivity | reflexivity].
Defined.

(** ** More on the literal helpers *)

Lemma vidx_opp (s : Solver) (l : Z) :
  max_var_ok s → vidx s (- l) = vidx s l.
Proof.
  unfold max_var_ok, INT_MAX. intros Hm. unfold vidx, INT_MIN.
  rewrite Z.abs_opp.
  destruct (Z.eqb_spec l 0), (Z.eqb_spec (- l) 0); try lia; try done.
  destruct (Z.eqb_spec l (- 2 ^ 31)), (Z.eqb_spec (- l) (- 2 ^ 31)),
    (Z.leb_spec (Z.abs l) (max_var s)); try done; lia.
Qed.

Lemma vlit_Some (s : Solver) (l u : Z) :
  max_var_ok s →
  vlit s l = Some u ↔ lit_ok s l ∧ u = 2 * Z.abs l + b2z (l <? 0).
Proof.
  intros Hm. split.
  - intros H. unfold vlit in H.
    destruct (vidx s l) as [idx |] eqn:E; [| discriminate].
    apply vidx_Some in E as [Hl ->]. split; [done |].
    rewrite <- (vidx_lit_ok _ _ Hl) in H. fold (vlit s l) in H.
    rewrite vlit_lit_ok in H by done. congruence.
  - intros [Hl ->]. by apply vlit_lit_ok.
Qed.

Lemma b2z_range (b : bool) : 0 <= b2z b <= 1.
Proof. destruct b; simpl; lia. Qed.

Lemma b2z_Z (b : bool) : b2z b = Z.b2z b.
Proof. by destruct b. Qed.

Lemma lxor_lsb (a : Z) (b : bool) :
  Z.lxor (2 * a + Z.b2z b) 1 = 2 * a + Z.b2z (negb b).
Proof.
  apply Z.bits_inj'. intros n Hn. rewrite Z.lxor_spec.
  change 1 with (2 * 0 + Z.b2z true) at 1.
  destruct (Z.eq_dec n 0) as [-> | Hne].
  - rewrite !Z.testbit_0_r. by destruct b.
  - replace n with (Z.succ (n - 1)) by lia.
    rewrite !Z.testbit_succ_r by lia.
    rewrite Z.testbit_0_l. by destruct (Z.testbit a _).
Qed.

(** X1. The index [vidx] returns is the absolute value of the literal: it
    lies in [1 .. max_var], the negated literal has the same index, and
    the index is itself a literal with that index. *)
Theorem vidx_abs_idempotent (s : Solver) (l idx : Z) :
  max_var_ok s → vidx s l = Some idx →
  1 <= idx <= max_var s ∧ (idx = l ∨ idx = - l) ∧
  vidx s (- l) = Some idx ∧ vidx s idx = Some idx.
Proof.
  intros Hm H. rewrite vidx_opp by done.
  pose proof H as H'. apply vidx_Some in H' as [(H0 & Hmin & Hle) ->].
  split; [lia |]. split; [lia |]. split; [done |].
  apply vidx_Some. split; [| lia]. unfold lit_ok, INT_MIN. lia.
Qed.

Lemma vlit_inj (s : Solver) (a b u : Z) :
  max_var_ok s → vlit s a = Some u → vlit s b = Some u → a = b.
Proof.
  intros Hm Ha Hb.
  apply vlit_Some in Ha as [(Ha0 & _) Ha]; [| done].
  apply vlit_Some in Hb as [(Hb0 & _) Hb]; [| done].
  unfold b2z in *.
  destruct (Z.ltb_spec a 0), (Z.ltb_spec b 0); lia.
Qed.

(** X2. [vlit] is injective: two literals with the same index into the
    literal-indexed tables are the same literal. *)
Theorem vlit_injective (s : Solver) (a b u : Z) :
  max_var_ok s → vlit s a = Some u → vlit s b = Some u → a = b.
Proof.
  intros Hm Ha Hb.
  apply vlit_Some in Ha as [(Ha0 & _ & Hale) ->]; [| done].
  apply vlit_Some in Hb as [(Hb0 & _ & Hble) Hb]; [| done].
  pose proof (b2z_range (a <? 0)) as Hra. pose proof (b2z_range (b <? 0)) as Hrb.
  assert (Habs : Z.abs a = Z.abs b) by lia.
  assert (Hsgn : b2z (a <? 0) = b2z (b <? 0)) by lia.
  destruct (Z.ltb_spec a 0), (Z.ltb_spec b 0); simpl in Hsgn; lia.
Qed.

(** X3. The index [vlit] returns can be decoded: its least significant
    bit is the sign of the literal and the remaining bits are the variable
    index. *)
Theorem vlit_lsb_is_sign (s : Solver) (l u : Z) :
  max_var_ok s → vlit s l = Some u →
  vidx s l = Some (Z.shiftr u 1) ∧ Z.testbit u 0 = (l <? 0) ∧
  l = (if Z.testbit u 0 then - Z.shiftr u 1 else Z.shiftr u 1).
Proof.
  intros Hm H. apply vlit_Some in H as [Hl ->]; [| done].
  rewrite b2z_Z.
  assert (Hs : Z.shiftr (2 * Z.abs l + Z.b2z (l <? 0)) 1 = Z.abs l).
  { rewrite Z.shiftr_div_pow2 by lia. change (2 ^ 1) with 2.
    symmetry. apply (Z.div_unique _ 2 _ (Z.b2z (l <? 0))); [| lia].
    destruct (l <? 0); simpl; lia. }
  rewrite Hs, Z.testbit_0_r.
  split; [by apply vidx_lit_ok |]. split; [done |].
  destruct Hl as (? & _). destruct (Z.ltb_spec l 0); lia.
Qed.

(** X4. The two polarities of a variable have neighbouring indices: the
    index of the negated literal is the index of the literal with its
    least significant bit flipped, and both lie in [2 .. 2 * max_var + 1],
    so that the slots 0 and 1 of a literal-indexed table are never used. *)
Theorem vlit_negation_flips_lsb (s : Solver) (l u : Z) :
  max_var_ok s → vlit s l = Some u →
  vlit s (- l) = Some (Z.lxor u 1) ∧
  2 <= u <= 2 * max_var s + 1 ∧ 2 <= Z.lxor u 1 <= 2 * max_var s + 1.
Proof.
  intros Hm H. apply vlit_Some in H as [Hl ->]; [| done].
  pose proof (vidx_neg _ _ Hm Hl) as Hn.
  assert (Hx : Z.lxor (2 * Z.abs l + b2z (l <? 0)) 1
               = 2 * Z.abs l + b2z (- l <? 0)).
  { rewrite !b2z_Z, lxor_lsb. do 2 f_equal. destruct Hl as (H0 & _).
    destruct (Z.ltb_spec l 0), (Z.ltb_spec (- l) 0); try done; lia. }
  rewrite Hx. split.
  - apply vlit_Some; [done |]. split; [done |]. by rewrite Z.abs_opp.
  - destruct Hl as (H0 & _ & Hle).
    pose proof (b2z_range (l <? 0)). pose proof (b2z_range (- l <? 0)). lia.
Qed.

(** X5. [fixed] of the negated literal is the negated [fixed] of the
    literal. *)
Theorem fixed_negation (s : Solver) (l f : Z) :
  max_var_ok s → fixed s l = Some f → fixed s (- l) = Some (- f).
Proof.
  intros Hm H. unfold fixed in *. rewrite vidx_opp by done.
  destruct (vidx s l) as [idx |] eqn:E; [| discriminate]. simpl in *.
  apply vidx_Some in E as [(H0 & _) _].
  destruct (zlookup (vals s) idx) as [res |]; [| discriminate]. simpl in *.
  destruct (if res =? 0 then _ else _) as [res' |]; [| discriminate].
  simpl in *. injection H as <-. f_equal.
  destruct (Z.ltb_spec l 0), (Z.ltb_spec (- l) 0); lia.
Qed.

(** X6. A literal and its negation share one entry of the variable table:
    [var (-lit)] is [var (lit)], also where both fail. *)
Theorem var_negation (s : Solver) (l : Z) :
  max_var_ok s → var s (- l) = var s l.
Proof. intros Hm. unfold var. by rewrite vidx_opp. Qed.

(** X7. [var2idx] inverts [var]: the address of the entry [var (lit)]
    reads, [vtab + vidx (lit)], is mapped back to [vidx (lit)]; and
    [var2idx] accepts no other pointer: the null pointer, [vtab] itself
    and addresses beyond [vtab + max_var] are rejected, so that an index
    it returns is a literal whose entry is the one pointed to. *)
Theorem var2idx_inverts_var (s : Solver) :
  (∀ l idx, vidx s l = Some idx → var2idx s (var_at idx) = Some idx) ∧
  (∀ p idx, var2idx s p = Some idx →
     p = var_at idx ∧ vidx s idx = Some idx ∧
     var s idx = zlookup (vtab s) idx) ∧
  var2idx s var_null = None ∧ var2idx s (var_at 0) = None ∧
  var2idx s (var_at (max_var s + 1)) = None.
Proof.
  split; [| split; [| split; [| split]]].
  - intros l idx H. apply vidx_Some in H as [(H0 & _ & Hle) ->]. simpl.
    destruct (Z.ltb_spec 0 (Z.abs l)); [| lia].
    destruct (Z.leb_spec (Z.abs l) (max_var s)); [done | lia].
  - intros p idx. destruct p as [| off]; simpl; [discriminate |].
    destruct (Z.ltb_spec 0 off); [| discriminate].
    destruct (Z.leb_spec off (max_var s)); [| discriminate].
    intros [= <-]. split; [done |].
    assert (E : vidx s off = Some off).
    { apply vidx_Some. split; [| lia]. unfold lit_ok, INT_MIN. lia. }
    split; [done |]. unfold var. by rewrite E.
  - done.
  - done.
  - simpl. destruct (Z.ltb_spec 0 (max_var s + 1)); [| done].
    destruct (Z.leb_spec (max_var s + 1) (max_var s)); [lia | done].
Qed.

(** ** [watch_literal] *)

Lemma watch_literal_fields lit blit h s s' :
  watch_literal lit blit h s = Some s' →
  max_var s' = max_var s ∧ vals s' = vals s ∧ vtab s' = vtab s ∧
  phases s' = phases s ∧ trail s' = trail s ∧ stats s' = stats s ∧
  length (wtab s') = length (wtab s).
Proof.
  intros (i & ws & _ & _ & ->)%watch_literal_Some. simpl.
  rewrite length_insert. done.
Qed.

(** X8. [watch_literal] pushes the watch at the end of the watch list of
    its literal and touches the watch list of no other literal. *)
Theorem watch_literal_appends (s s' : Solver) (l b : Z) (c : handle) :
  max_var_ok s → watch_literal l b c s = Some s' →
  (∃ ws, watches s l = Some ws ∧
         watches s' l = Some (ws ++ [mkWatch b c])) ∧
  (∀ k, k ≠ l → watches s' k = watches s k).
Proof.
  intros Hm H. apply watch_literal_Some in H as (i & ws & Hi & Hws & ->).
  assert (Hr : 0 <= i < Z.of_nat (length (wtab s))).
  { apply zlookup_is_Some. eauto. }
  split.
  - exists ws. unfold watches. cbn [max_var set_wtab wtab].
    change (vlit (set_wtab ?w s) l) with (vlit s l). rewrite Hi. simpl.
    split; [done |]. apply zlookup_Some. split; [lia |].
    apply list_lookup_insert_eq. lia.
  - intros k Hk. unfold watches.
    change (vlit (set_wtab ?w s) k) with (vlit s k).
    destruct (vlit s k) as [j |] eqn:Hj; [| done]. simpl.
    assert (i ≠ j).
    { intros ->. apply Hk. by apply (vlit_inj s k l j). }
    unfold zlookup. destruct (Z.ltb_spec j 0); [done |].
    apply list_lookup_insert_ne. lia.
Qed.

Lemma watch_literal_is_Some (s : Solver) (l b : Z) (c : handle) :
  is_Some (watch_literal l b c s) ↔ is_Some (watches s l).
Proof.
  unfold watch_literal, watches.
  destruct (vlit s l) as [i |]; simpl; [| done].
  split.
  - intros [s' H]. destruct (zlookup (wtab s) i); [eauto | discriminate].
  - intros [ws Hws]. rewrite Hws. simpl.
    rewrite zupdate_is_Some; [simpl; eauto |].
    apply zlookup_is_Some. eauto.
Qed.

(** X9. [watch_literal] fails exactly where [watches] fails, on a literal
    that [vidx] rejects or whose index is outside of the watch table; with
    the tables allocated it fails exactly on the literals [vidx]
    rejects. *)
Theorem watch_literal_fails_as_watches (s : Solver) (l b : Z) (c : handle) :
  (is_Some (watch_literal l b c s) ↔ is_Some (watches s l)) ∧
  (tables_ok s → watch_literal l b c s = None ↔ vidx s l = None).
Proof.
  split; [apply watch_literal_is_Some |].
  intros Ht. rewrite !eq_None_not_Some, watch_literal_is_Some.
  split.
  - intros Hn [idx Hi]. apply Hn. apply vidx_Some in Hi as [Hl _].
    destruct Ht as (Hm & _ & _ & _ & Hw). unfold watches.
    rewrite vlit_lit_ok by done. simpl. apply zlookup_is_Some.
    destruct Hl as (? & ? & ?). pose proof (b2z_range (l <? 0)). lia.
  - intros Hn [ws Hws]. apply Hn. unfold watches, vlit in Hws.
    destruct (vidx s l); [eauto | discriminate].
Qed.

(** X10. [watch_literal] changes the watch table and nothing else: the
    state with the old watch table put back is the state before, the
    table keeps its size, and [val], [fixed], [var], [vlit], [satisfied]
    and [active_variables] give what they gave before. *)
Theorem watch_literal_only_wtab (s s' : Solver) (l b : Z) (c : handle) :
  watch_literal l b c s = Some s' →
  set_wtab (wtab s) s' = s ∧
  length (wtab s') = length (wtab s) ∧
  (∀ k, val s' k = val s k ∧ fixed s' k = fixed s k ∧
        var s' k = var s k ∧ vlit s' k = vlit s k) ∧
  satisfied s' = satisfied s ∧
  active_variables s' = active_variables s ∧
  (tables_ok s → tables_ok s').
Proof.
  intros H. pose proof (watch_literal_fields _ _ _ _ _ H)
    as (Hm & Hv & Ht & Hp & Htr & Hst & Hlen).
  split.
  { apply watch_literal_Some in H as (i & ws & _ & _ & ->). by destruct s. }
  split; [done |]. split.
  { intros k. unfold val, fixed, var, vlit, vidx. by rewrite Hm, Hv, Ht. }
  split; [unfold satisfied; by rewrite Hm, Htr |].
  split; [unfold active_variables; by rewrite Hm, Hst |].
  unfold tables_ok, max_var_ok. by rewrite Hm, Hv, Ht, Hp, Hlen.
Qed.

Lemma watch_literal_is_Some_ext lit blit h s s1 :
  max_var s1 = max_var s → length (wtab s1) = length (wtab s) →
  is_Some (watch_literal lit blit h s1) ↔ is_Some (watch_literal lit blit h s).
Proof.
  intros Hm Hlen.
  assert (Hv : vlit s1 lit = vlit s lit) by (unfold vlit, vidx; by rewrite Hm).
  rewrite !watch_literal_is_Some. unfold watches. rewrite Hv.
  destruct (vlit s lit) as [i |]; simpl; [| done].
  rewrite !zlookup_is_Some, Hlen. done.
Qed.

(** X11. Watches pushed for two different literals commute: either order
    gives the same state, or fails in both orders. *)
Theorem watch_literal_commute (s : Solver) (l1 l2 b1 b2 : Z) (c1 c2 : handle) :
  max_var_ok s → l1 ≠ l2 →
  (s1 ← watch_literal l1 b1 c1 s; watch_literal l2 b2 c2 s1) =
  (s2 ← watch_literal l2 b2 c2 s; watch_literal l1 b1 c1 s2).
Proof.
  intros Hm Hne.
  destruct (watch_literal l1 b1 c1 s) as [s1 |] eqn:E1;
    destruct (watch_literal l2 b2 c2 s) as [s2 |] eqn:E2; simpl.
  - pose proof (watch_literal_fields _ _ _ _ _ E1) as (Hm1 & _ & _ & _ & _ & _ & Hl1).
    pose proof (watch_literal_fields _ _ _ _ _ E2) as (Hm2 & _ & _ & _ & _ & _ & Hl2).
    apply watch_literal_Some in E1 as (i1 & ws1 & Hi1 & Hws1 & ->).
    apply watch_literal_Some in E2 as (i2 & ws2 & Hi2 & Hws2 & ->).
    assert (Hi : i1 ≠ i2).
    { intros ->. apply Hne. by apply (vlit_inj s l1 l2 i2). }
    apply zlookup_Some in Hws1 as [? Hws1]. apply zlookup_Some in Hws2 as [? Hws2].
    pose proof (lookup_lt_Some _ _ _ Hws1). pose proof (lookup_lt_Some _ _ _ Hws2).
    unfold watch_literal.
    change (vlit (set_wtab ?w s) ?l) with (vlit s l). rewrite Hi1, Hi2. simpl.
    unfold zlookup.
    destruct (Z.ltb_spec i1 0), (Z.ltb_spec i2 0); try lia.
    rewrite !list_lookup_insert_ne by lia. rewrite Hws1, Hws2. simpl.
    rewrite !zupdate_is_Some by (rewrite length_insert; lia). simpl.
    f_equal. unfold set_wtab. simpl. f_equal.
    apply list_insert_insert_ne. lia.
  - pose proof (watch_literal_fields _ _ _ _ _ E1) as (Hm1 & _ & _ & _ & _ & _ & Hl1).
    apply eq_None_not_Some. rewrite watch_literal_is_Some_ext by done.
    by apply eq_None_not_Some.
  - pose proof (watch_literal_fields _ _ _ _ _ E2) as (Hm2 & _ & _ & _ & _ & _ & Hl2).
    symmetry. apply eq_None_not_Some. rewrite watch_literal_is_Some_ext by done.
    by apply eq_None_not_Some.
  - done.
Qed.

(** ** [satisfied] and [active_variables] *)

Lemma elem_of_variables (s : Solver) (idx : Z) :
  idx ∈ variables s ↔ 1 <= idx <= max_var s.
Proof.
  unfold variables. rewrite list_elem_of_fmap. split.
  - intros (n & -> & Hn%elem_of_seq). lia.
  - intros H. exists (Z.to_nat idx). split; [lia |]. apply elem_of_seq. lia.
Qed.

Lemma NoDup_variables (s : Solver) : NoDup (variables s).
Proof.
  unfold variables. apply NoDup_fmap_2; [| apply NoDup_seq].
  intros x y. lia.
Qed.

Lemma length_variables (s : Solver) :
  0 <= max_var s → Z.of_nat (length (variables s)) = max_var s.
Proof. intros. unfold variables. rewrite length_fmap, length_seq. lia. Qed.

Lemma val_opp (s : Solver) (l x : Z) :
  max_var_ok s → val s l = Some x → val s (- l) = Some (- x).
Proof.
  intros Hm H. unfold val in *. rewrite vidx_opp by done.
  destruct (vidx s l) as [idx |] eqn:E; [| discriminate]. simpl in *.
  apply vidx_Some in E as [(H0 & _) _].
  destruct (zlookup (vals s) idx) as [res |]; [| discriminate]. simpl in *.
  injection H as <-. f_equal.
  destruct (Z.ltb_spec l 0), (Z.ltb_spec (- l) 0); lia.
Qed.

Lemma val_lit_ok (s : Solver) (l x : Z) : val s l = Some x → lit_ok s l.
Proof.
  unfold val. destruct (vidx s l) as [idx |] eqn:E; [| discriminate].
  intros _. by apply vidx_Some in E as [? _].
Qed.

(** X12. Where the trail lists the true literals, each once, [satisfied]
    tells whether the assignment is total: it is true exactly when every
    literal within range has the value 1 or -1. *)
Theorem satisfied_iff_total (s : Solver) :
  max_var_ok s →
  (∀ l, l ∈ trail s ↔ val s l = Some 1) →
  NoDup (trail s) →
  satisfied s = true ↔
  ∀ l, lit_ok s l → val s l = Some 1 ∨ val s l = Some (-1).
Proof.
  intros Hm Htr Hnd.
  assert (Habs : NoDup (Z.abs <$> trail s)).
  { apply NoDup_fmap_2_strong; [| done].
    intros x y Hx%Htr Hy%Htr Hxy.
    destruct (Z.eq_dec x y) as [| Hne]; [done | exfalso].
    assert (x = - y) as -> by lia.
    apply (val_opp _ _ _ Hm) in Hy. rewrite Hy in Hx. discriminate. }
  assert (Hin : ∀ x, x ∈ Z.abs <$> trail s → x ∈ variables s).
  { intros x (t & -> & Ht%Htr%val_lit_ok)%list_elem_of_fmap.
    apply elem_of_variables. destruct Ht as (? & ? & ?). lia. }
  assert (Hsub : Z.abs <$> trail s ⊆+ variables s)
    by (by apply NoDup_submseteq).
  assert (Hlen : length (Z.abs <$> trail s) = length (trail s))
    by apply length_fmap.
  pose proof (length_variables s (proj1 Hm)) as Hlv.
  assert (Hsat : satisfied s = true ↔ Z.of_nat (length (trail s)) = max_var s).
  { unfold satisfied, wrap64. unfold max_var_ok, INT_MAX in Hm.
    rewrite Z.mod_small by lia. apply Z.eqb_eq. }
  rewrite Hsat. split.
  - intros Hfull l Hl.
    assert (Hp : Z.abs <$> trail s ≡ₚ variables s)
      by (apply submseteq_length_Permutation; [done | lia]).
    assert (Hv : Z.abs l ∈ Z.abs <$> trail s).
    { rewrite Hp. apply elem_of_variables. destruct Hl as (? & ? & ?). lia. }
    apply list_elem_of_fmap in Hv as (t & Ht & Hv%Htr).
    destruct (Z.eq_dec t l) as [-> | Hne]; [by left | right].
    assert (t = - l) as -> by lia.
    apply (val_opp _ _ _ Hm) in Hv. by rewrite Z.opp_involutive in Hv.
  - intros Htot.
    assert (Hsup : variables s ⊆+ Z.abs <$> trail s).
    { apply NoDup_submseteq; [apply NoDup_variables |].
      intros idx Hidx%elem_of_variables.
      assert (Hl : lit_ok s idx) by (unfold lit_ok, INT_MIN; lia).
      destruct (Htot idx Hl) as [Hv | Hv].
      - apply Htr in Hv. apply list_elem_of_fmap. exists idx. split; [lia | done].
      - apply (val_opp _ _ _ Hm) in Hv. apply Htr in Hv.
        apply list_elem_of_fmap. exists (- idx). split; [lia | done]. }
    apply submseteq_length in Hsub, Hsup. lia.
Qed.

(** X13. Where [stats.fixed] counts the variables that [fixed] reports a
    value for, [active_variables] counts the other variables: it is the
    number of variables whose [fixed] is 0, it lies between 0 and
    [max_var], and it is 0 exactly when [fixed] is nonzero on every
    variable. *)
Theorem active_variables_counts_unfixed (s : Solver) :
  max_var_ok s →
  st_fixed (stats s) =
    Z.of_nat (length (filter (λ idx, fixed s idx ≠ Some 0) (variables s))) →
  active_variables s =
    Z.of_nat (length (filter (λ idx, fixed s idx = Some 0) (variables s))) ∧
  0 <= active_variables s <= max_var s ∧
  (active_variables s = 0 ↔
   ∀ idx, 1 <= idx <= max_var s → fixed s idx ≠ Some 0).
Proof.
  intros Hm Hfix. unfold active_variables. rewrite Hfix.
  pose proof (length_variables s (proj1 Hm)) as Hlv.
  pose proof (filter_app_complement (λ idx, fixed s idx = Some 0) (variables s))
    as Hp.
  apply Permutation_length in Hp. rewrite length_app in Hp.
  assert (E : max_var s -
              Z.of_nat (length (filter (λ idx, fixed s idx ≠ Some 0) (variables s)))
              = Z.of_nat (length (filter (λ idx, fixed s idx = Some 0) (variables s))))
    by lia.
  rewrite E. split; [done |]. split; [lia |]. split.
  - intros Hz idx Hidx%elem_of_variables Hf.
    assert (Hin : idx ∈ filter (λ idx, fixed s idx = Some 0) (variables s))
      by (by apply list_elem_of_filter).
    destruct (filter (λ idx, fixed s idx = Some 0) (variables s));
      [by apply elem_of_nil in Hin | simpl in Hz; lia].
  - intros Hall.
    destruct (filter (λ idx, fixed s idx = Some 0) (variables s)) as [| x l] eqn:Ef;
      [done | exfalso].
    assert (Hx : x ∈ filter (λ idx, fixed s idx = Some 0) (variables s))
      by (rewrite Ef; left).
    apply list_elem_of_filter in Hx as [Hx0 Hx%elem_of_variables].
    by apply (Hall x).
Qed.

(** ** The further facts on example states *)

Lemma s3_level1_max_var_ok : max_var_ok s3_level1.
Proof. vm_compute. split; discriminate. Qed.

Lemma s3_rewatched_eq :
  watch_literal (-2) 4 2%nat s3_level1 = Some s3_rewatched.
Proof. vm_compute. reflexivity. Qed.

Lemma s3_level1_trail_true (l : Z) :
  l ∈ trail s3_level1 ↔ val s3_level1 l = Some 1.
Proof.
  split.
  - norm (trail s3_level1). intros H. elem_cases H; vm_compute; reflexivity.
  - intros H. pose proof (val_lit_ok _ _ _ H) as (H0 & _ & Hle).
    norm_in (max_var s3_level1) Hle. norm (trail s3_level1).
    assert (Hc : l = -4 ∨ l = -3 ∨ l = -2 ∨ l = -1 ∨
                 l = 1 ∨ l = 2 ∨ l = 3 ∨ l = 4) by lia.
    destruct Hc as [-> | [-> | [-> | [-> | [-> | [-> | [-> | ->]]]]]]];
      first [by vm_compute in H | rewrite !elem_of_cons; auto 10].
Qed.

Lemma s3_level1_trail_NoDup : NoDup (trail s3_level1).
Proof.
  norm (trail s3_level1).
  repeat (apply NoDup_cons; split; [rewrite ?elem_of_cons, elem_of_nil; lia |]).
  apply NoDup_nil_2.
Qed.

Lemma unit_root_max_var_ok : max_var_ok unit_root.
Proof. vm_compute. split; discriminate. Qed.

Lemma vidx_abs_idempotent_witness :
  1 <= 2 <= max_var s3_level1 ∧ (2 = -2 ∨ 2 = - -2) ∧
  vidx s3_level1 (- -2) = Some 2 ∧ vidx s3_level1 2 = Some 2.
Proof.
  apply (vidx_abs_idempotent s3_level1 (-2) 2).
  - exact s3_level1_max_var_ok.
  - vm_compute. reflexivity.
Defined.

Lemma vlit_injective_witness : -2 = -2.
Proof.
  apply (vlit_injective s3_level1 (-2) (-2) 5).
  - exact s3_level1_max_var_ok.
  - vm_compute. reflexivity.
  - vm_compute. reflexivity.
Defined.

Lemma vlit_lsb_is_sign_witness :
  vidx s3_level1 (-2) = Some (Z.shiftr 5 1) ∧
  Z.testbit 5 0 = (-2 <? 0) ∧
  -2 = (if Z.testbit 5 0 then - Z.shiftr 5 1 else Z.shiftr 5 1).
Proof.
  apply (vlit_lsb_is_sign s3_level1 (-2) 5).
  - exact s3_level1_max_var_ok.
  - vm_compute. reflexivity.
Defined.

Lemma vlit_negation_flips_lsb_witness :
  vlit s3_level1 (- -2) = Some (Z.lxor 5 1) ∧
  2 <= 5 <= 2 * max_var s3_level1 + 1 ∧
  2 <= Z.lxor 5 1 <= 2 * max_var s3_level1 + 1.
Proof.
  apply (vlit_negation_flips_lsb s3_level1 (-2) 5).
  - exact s3_level1_max_var_ok.
  - vm_compute. reflexivity.
Defined.

Lemma fixed_negation_witness : fixed unit_root (- -2) = Some (- -1).
Proof.
  apply (fixed_negation unit_root (-2) (-1)).
  - exact unit_root_max_var_ok.
  - vm_compute. reflexivity.
Defined.

Lemma var_negation_witness : var s3_level1 (- -2) = var s3_level1 (-2).
Proof. apply (var_negation s3_level1 (-2)). exact s3_level1_max_var_ok. Defined.

Lemma watch_literal_appends_witness :
  (∃ ws, watches s3_level1 (-2) = Some ws ∧
         watches s3_rewatched (-2) = Some (ws ++ [mkWatch 4 2])) ∧
  (∀ k, k ≠ -2 → watches s3_rewatched k = watches s3_level1 k).
Proof.
  apply (watch_literal_appends s3_level1 s3_rewatched (-2) 4 2%nat).
  - exact s3_level1_max_var_ok.
  - exact s3_rewatched_eq.
Defined.

Lemma watch_literal_fails_as_watches_witness :
  watch_literal 5 1 0%nat s3_level1 = None ↔ vidx s3_level1 5 = None.
Proof.
  apply (watch_literal_fails_as_watches s3_level1 5 1 0%nat).
  exact s3_level1_tables_ok.
Defined.

Lemma watch_literal_only_wtab_witness :
  set_wtab (wtab s3_level1) s3_rewatched = s3_level1 ∧
  length (wtab s3_rewatched) = length (wtab s3_level1) ∧
  (∀ k, val s3_rewatched k = val s3_level1 k ∧
        fixed s3_rewatched k = fixed s3_level1 k ∧
        var s3_rewatched k = var s3_level1 k ∧
        vlit s3_rewatched k = vlit s3_level1 k) ∧
  satisfied s3_rewatched = satisfied s3_level1 ∧
  active_variables s3_rewatched = active_variables s3_level1 ∧
  (tables_ok s3_level1 → tables_ok s3_rewatched).
Proof.
  apply (watch_literal_only_wtab s3_level1 s3_rewatched (-2) 4 2%nat).
  exact s3_rewatched_eq.
Defined.

Lemma watch_literal_commute_witness :
  (s1 ← watch_literal (-2) 4 2%nat s3_level1; watch_literal 3 (-1) 1%nat s1) =
  (s2 ← watch_literal 3 (-1) 1%nat s3_level1; watch_literal (-2) 4 2%nat s2).
Proof.
  apply (watch_literal_commute s3_level1 (-2) 3 4 (-1) 2%nat 1%nat).
  - exact s3_level1_max_var_ok.
  - discriminate.
Defined.

Lemma satisfied_iff_total_witness :
  satisfied s3_level1 = true ↔
  ∀ l, lit_ok s3_level1 l →
       val s3_level1 l = Some 1 ∨ val s3_level1 l = Some (-1).
Proof.
  apply (satisfied_iff_total s3_level1).
  - exact s3_level1_max_var_ok.
  - exact s3_level1_trail_true.
  - exact s3_level1_trail_NoDup.
Defined.

Lemma active_variables_counts_unfixed_witness :
  active_variables unit_root =
    Z.of_nat (length (filter (λ idx, fixed unit_root idx = Some 0)
                             (variables unit_root))) ∧
  0 <= active_variables unit_root <= max_var unit_root ∧
  (active_variables unit_root = 0 ↔
   ∀ idx, 1 <= idx <= max_var unit_root → fixed unit_root idx ≠ Some 0).
Proof.
  apply (active_variables_counts_unfixed unit_root).
  - exact unit_root_max_var_ok.
  - vm_compute. reflexivity.
Defined.

(** ** The conflict of the propagator *)

Lemma val_ext s s' k :
  max_var s' = max_var s → vals s' = vals s → val s' k = val s k.
Proof. intros Hm Hv. unfold val, vidx. by rewrite Hm, Hv. Qed.

Lemma watches_ext s s' m :
  max_var s' = max_var s → wtab s' = wtab s → watches s' m = watches s m.
Proof. intros Hm Hw. unfold watches, vlit, vidx. by rewrite Hm, Hw. Qed.

Lemma falsified_ext s s' c :
  max_var s' = max_var s → vals s' = vals s → falsified s c → falsified s' c.
Proof.
  intros Hm Hv H. unfold falsified. eapply Forall_impl; [exact H |].
  intros k Hk. simpl. by rewrite (val_ext s s').
Qed.

Lemma watches_lit_ext s s' lit w :
  clauses s' !! w_clause w = clauses s !! w_clause w →
  watches_lit s lit w → watches_lit s' lit w.
Proof. intros E H c Hc. rewrite E in Hc. by apply H. Qed.

(** What [assign] does to the values. *)
Lemma assign_val lit r s s1 :
  assign lit r s = Some s1 →
  val s1 lit = Some 1 ∧
  (∀ k v, val s k = Some v → v ≠ 0 → val s1 k = Some v) ∧
  (vals_ok s → vals_ok s1) ∧
  clauses s1 = clauses s ∧ wtab s1 = wtab s ∧ max_var s1 = max_var s ∧
  trail s1 = trail s ++ [lit] ∧ conflict s1 = conflict s.
Proof.
  intros H. apply assign_Some in H as (v0 & Hl & Hz & _ & _ & ->). simpl.
  pose proof Hz as Hz'. apply zlookup_Some in Hz' as [Hge Hz'].
  pose proof (lookup_lt_Some _ _ _ Hz') as Hlt.
  split; [| split; [| split; [| done]]].
  - apply val_Some. split; [exact Hl |]. simpl.
    exists (if lit <? 0 then -1 else 1). split.
    + apply zlookup_Some. split; [done |]. by apply list_lookup_insert_eq.
    + destruct (lit <? 0); done.
  - intros k v Hk Hv. apply val_Some in Hk as (Hkl & r0 & Hr0 & ->).
    apply val_Some. split; [exact Hkl |]. exists r0. split; [| done]. simpl.
    apply zlookup_Some in Hr0 as [Hk0 Hr0]. apply zlookup_Some. split; [done |].
    rewrite list_lookup_insert_ne; [done |].
    intros E. rewrite E in Hz'. rewrite Hz' in Hr0. injection Hr0 as <-.
    destruct (k <? 0); lia.
  - unfold vals_ok. simpl. intros Hok. apply Forall_insert; [done |].
    destruct (lit <? 0); lia.
Qed.

Lemma watch_literal_lookup s s' l b c :
  max_var_ok s → watch_literal l b c s = Some s' →
  (∃ ws, watches s l = Some ws ∧
         watches s' l = Some (ws ++ [mkWatch b c])) ∧
  (∀ k, k ≠ l → watches s' k = watches s k) ∧
  clauses s' = clauses s ∧ max_var s' = max_var s ∧ vals s' = vals s ∧
  trail s' = trail s ∧ conflict s' = conflict s.
Proof.
  intros Hm H. apply watch_literal_Some in H as (i & ws & Hi & Hws & ->).
  assert (Hr : 0 <= i < Z.of_nat (length (wtab s))).
  { apply zlookup_is_Some. eauto. }
  split; [| split; [| done]].
  - exists ws. unfold watches. cbn [max_var set_wtab wtab].
    change (vlit (set_wtab ?w s) l) with (vlit s l). rewrite Hi. simpl.
    split; [done |]. apply zlookup_Some. split; [lia |].
    apply list_lookup_insert_eq. lia.
  - intros k Hk. unfold watches.
    change (vlit (set_wtab ?w s) k) with (vlit s k).
    destruct (vlit s k) as [j |] eqn:Hj; [| done]. simpl.
    assert (i ≠ j).
    { intros ->. apply Hk. by apply (vlit_inj s k l j). }
    unfold zlookup. destruct (Z.ltb_spec j 0); [done |].
    apply list_lookup_insert_ne. lia.
Qed.

Lemma find_replacement_None s lits pos :
  find_replacement s lits pos = Some None →
  Forall (λ k, ∃ v, val s k = Some v ∧ v < 0) lits.
Proof.
  revert pos. induction lits as [| x rest IH]; intros pos H; simpl in H.
  - constructor.
  - apply bind_Some in H as (v & Hv & H).
    destruct (Z.ltb_spec v 0); [| discriminate].
    constructor; [eauto | by eapply IH].
Qed.

Lemma find_replacement_val s lits pos i k :
  find_replacement s lits pos = Some (Some (i, k)) →
  ∃ v, val s k = Some v ∧ 0 <= v.
Proof.
  revert pos. induction lits as [| x rest IH]; intros pos H; simpl in H.
  - discriminate.
  - apply bind_Some in H as (v & Hv & H).
    destruct (Z.ltb_spec v 0); [by eapply IH |].
    injection H as <- <-. eauto.
Qed.

Lemma vals_ok_val s k v :
  vals_ok s → val s k = Some v → v = -1 ∨ v = 0 ∨ v = 1.
Proof.
  intros Hok (_ & r & Hr & ->)%val_Some.
  apply zlookup_Some in Hr as [_ Hr].
  pose proof (Forall_lookup_1 _ _ _ _ Hok Hr) as Hr3. simpl in Hr3.
  destruct (k <? 0); lia.
Qed.

Lemma insert_swap_Permutation (tl : list Z) (j : nat) (k c1 : Z) :
  tl !! j = Some k → k :: <[j := c1]> tl ≡ₚ c1 :: tl.
Proof.
  revert j. induction tl as [| x tl IH]; intros j Hj; [done |].
  destruct j as [| j]; simpl in *.
  - injection Hj as ->. apply perm_swap.
  - rewrite perm_swap. rewrite (IH _ Hj). apply perm_swap.
Qed.

Lemma scan_inv_tail s nl w rest :
  scan_inv s nl (w :: rest) →
  scan_inv s nl rest ∧ (w_clause w ∉ (w_clause <$> rest)) ∧
  watches_lit s nl w.
Proof.
  intros [Hm Hv Ht Hn Hf [Hnd Hl] Ho].
  rewrite fmap_cons in Hnd. apply NoDup_cons in Hnd as [Hnotin Hnd].
  apply Forall_cons in Hl as [Hw Hl].
  split; [| done]. constructor; try done.
Qed.

Lemma watches_lit_store s h c lits' m w :
  clauses s !! h = Some c →
  watches_lit s m w →
  (w_clause w = h → c_garbage c = false →
   ∀ x0 x1 tl, c_literals c = x0 :: x1 :: tl → x0 = m ∨ x1 = m →
     ∃ y0 y1 tl', lits' = y0 :: y1 :: tl' ∧ (y0 = m ∨ y1 = m)) →
  watches_lit (store_literals h lits' s) m w.
Proof.
  intros Hc Hw Hreq c' Hc' Hg. simpl in Hc'.
  destruct (base.decide (h = w_clause w)) as [E | E].
  - subst h. rewrite list_lookup_alter_eq, Hc in Hc'. simpl in Hc'.
    injection Hc' as <-. simpl in *.
    destruct (Hw c Hc Hg) as (x0 & x1 & tl & Hlits & Hx).
    by apply (Hreq eq_refl Hg x0 x1 tl).
  - rewrite list_lookup_alter_ne in Hc' by done. by apply Hw.
Qed.

(** The literals of a clause stored in another order: the invariant of
    the scan stays where every literal watching the clause keeps a
    watched position. *)
Lemma store_literals_scan_inv s nl ws h c lits' :
  scan_inv s nl ws → clauses s !! h = Some c → lits' ≡ₚ c_literals c →
  (c_garbage c = false →
   ∀ m x0 x1 tl, c_literals c = x0 :: x1 :: tl → x0 = m ∨ x1 = m →
     (m = nl → h ∈ (w_clause <$> ws)) →
     ∃ y0 y1 tl', lits' = y0 :: y1 :: tl' ∧ (y0 = m ∨ y1 = m)) →
  scan_inv (store_literals h lits' s) nl ws.
Proof.
  intros [Hm Hv Ht Hn Hf [Hnd Hl] Ho] Hc Hp Hreq. constructor.
  - exact Hm.
  - exact Hv.
  - exact Ht.
  - unfold clauses_nodup. simpl. apply Forall_alter; [exact Hn |].
    intros c' Hc' _. rewrite Hc in Hc'. injection Hc' as <-. simpl.
    rewrite Hp. exact (Forall_lookup_1 _ _ _ _ Hn Hc).
  - exact Hf.
  - split; [exact Hnd |]. apply Forall_forall. intros w Hw.
    apply (watches_lit_store s h c); [done | |].
    + exact (proj1 (Forall_forall _ _) Hl w Hw).
    + intros E Hg x0 x1 tl Hlits Hx.
      apply (Hreq Hg nl x0 x1 tl Hlits Hx). intros _. subst h.
      by apply list_elem_of_fmap_2.
  - intros m wl Hmn Hwl.
    change (watches (store_literals h lits' s) m) with (watches s m) in Hwl.
    destruct (Ho m wl Hmn Hwl) as [Hnd' Hl'].
    split; [exact Hnd' |]. apply Forall_forall. intros w Hw.
    apply (watches_lit_store s h c); [done | |].
    + exact (proj1 (Forall_forall _ _) Hl' w Hw).
    + intros E Hg x0 x1 tl Hlits Hx.
      apply (Hreq Hg m x0 x1 tl Hlits Hx). intros ->. done.
Qed.

(** One more watch, for a literal other than the one scanned. *)
Lemma watch_literal_scan_inv s s' nl ws k b h :
  scan_inv s nl ws → watch_literal k b h s = Some s' → k ≠ nl →
  watches_lit s k (mkWatch b h) →
  (∀ wl, watches s k = Some wl → h ∉ (w_clause <$> wl)) →
  scan_inv s' nl ws.
Proof.
  intros [Hm Hv Ht Hn Hf [Hnd Hl] Ho] Hw Hk Hnew Hfresh.
  destruct (watch_literal_lookup _ _ _ _ _ Hm Hw)
    as ((wk & Hwk & Hwk') & Hother & Hcl & Hmv & Hvals & Htr & _).
  assert (Hval : ∀ l, val s' l = val s l) by (intros l; by apply val_ext).
  assert (Hwl : ∀ m w, watches_lit s m w → watches_lit s' m w).
  { intros m w. apply watches_lit_ext. by rewrite Hcl. }
  constructor.
  - unfold max_var_ok. by rewrite Hmv.
  - unfold vals_ok. by rewrite Hvals.
  - unfold trail_true. rewrite Htr. eapply Forall_impl; [exact Ht |].
    intros l Hl'. simpl. by rewrite Hval.
  - unfold clauses_nodup. by rewrite Hcl.
  - by rewrite Hval.
  - split; [exact Hnd |]. eapply Forall_impl; [exact Hl |]. intros w. apply Hwl.
  - intros m wl Hmn Hwm.
    destruct (Z.eq_dec m k) as [-> | Hmk].
    + rewrite Hwk' in Hwm. injection Hwm as <-.
      destruct (Ho k wk Hk Hwk) as [Hnd' Hl'].
      split.
      * rewrite fmap_app. apply NoDup_app. split; [exact Hnd' |].
        split; [| apply NoDup_singleton].
        intros x Hx Hx'. apply list_elem_of_singleton in Hx'. simpl in Hx'.
        subst x. by apply (Hfresh wk).
      * apply Forall_app. split.
        -- eapply Forall_impl; [exact Hl' |]. intros w. apply Hwl.
        -- apply Forall_singleton. by apply Hwl.
    + rewrite Hother in Hwm by done.
      destruct (Ho m wl Hmn Hwm) as [Hnd' Hl'].
      split; [exact Hnd' |]. eapply Forall_impl; [exact Hl' |].
      intros w. apply Hwl.
Qed.

(** The assignment of an unassigned literal. *)
Lemma assign_scan_inv s s' nl ws lit r :
  scan_inv s nl ws → assign lit r s = Some s' → scan_inv s' nl ws.
Proof.
  intros [Hm Hv Ht Hn Hf [Hnd Hl] Ho] Ha.
  destruct (assign_val _ _ _ _ Ha)
    as (Hlit & Hkeep & Hvok & Hcl & Hwt & Hmv & Htr & _).
  assert (Hwl : ∀ m w, watches_lit s m w → watches_lit s' m w).
  { intros m w. apply watches_lit_ext. by rewrite Hcl. }
  constructor.
  - unfold max_var_ok. by rewrite Hmv.
  - by apply Hvok.
  - unfold trail_true. rewrite Htr. apply Forall_app. split.
    + eapply Forall_impl; [exact Ht |]. intros l Hl'. simpl.
      by apply (Hkeep l 1).
    + by apply Forall_singleton.
  - unfold clauses_nodup. by rewrite Hcl.
  - by apply (Hkeep nl (-1)).
  - split; [exact Hnd |]. eapply Forall_impl; [exact Hl |]. intros w. apply Hwl.
  - intros m wl Hmn Hwm. rewrite (watches_ext s s') in Hwm by done.
    destruct (Ho m wl Hmn Hwm) as [Hnd' Hl'].
    split; [exact Hnd' |]. eapply Forall_impl; [exact Hl' |].
    intros w. apply Hwl.
Qed.

Lemma scan_res_drop s s1 nl w rest ok kept s' :
  (∀ h, h ≠ w_clause w → clauses s1 !! h = clauses s !! h) →
  scan_res s1 nl rest ok kept s' →
  scan_res s nl (w :: rest) ok kept s'.
Proof.
  intros Hfr (Hframe & Hsub & Hres). split; [| split; [| done]].
  - intros h Hh. rewrite fmap_cons in Hh. apply not_elem_of_cons in Hh as [Hne Hh].
    rewrite Hframe by done. by apply Hfr.
  - intros w' Hw'. rewrite fmap_cons. apply list_elem_of_further. by apply Hsub.
Qed.

Lemma scan_res_keep s s1 nl w w' rest ok kept s' :
  (∀ h, h ≠ w_clause w → clauses s1 !! h = clauses s !! h) →
  w_clause w' = w_clause w →
  w_clause w ∉ (w_clause <$> rest) →
  watches_lit s1 nl w' →
  scan_res s1 nl rest ok kept s' →
  scan_res s nl (w :: rest) ok (w' :: kept) s'.
Proof.
  intros Hfr Hh Hnotin Hw (Hframe & Hsub & Hres). split; [| split].
  - intros h Hh'. rewrite fmap_cons in Hh'.
    apply not_elem_of_cons in Hh' as [Hne Hh'].
    rewrite Hframe by done. by apply Hfr.
  - intros w2 Hw2. rewrite fmap_cons. apply elem_of_cons in Hw2 as [-> | Hw2].
    + rewrite Hh. apply list_elem_of_here.
    + apply list_elem_of_further. by apply Hsub.
  - destruct ok; [| done].
    destruct Hres as [Hm Hv Ht Hn Hf [Hnd Hl] Ho]. constructor; try done.
    split.
    + rewrite fmap_cons. apply NoDup_cons. split; [| done].
      rewrite Hh. intros Hin. apply Hnotin.
      apply list_elem_of_fmap in Hin as (w2 & -> & Hw2). by apply Hsub.
    + apply Forall_cons. split; [| done].
      eapply watches_lit_ext; [| exact Hw]. rewrite Hh. by apply Hframe.
Qed.

(** The scan of the watches of a false literal keeps the invariant or
    ends with a clause all of whose literals are false. *)
Lemma propagate_watches_scan nl ws s ok kept s' :
  scan_inv s nl ws →
  propagate_watches nl ws s = Some (ok, kept, s') →
  scan_res s nl ws ok kept s'.
Proof.
  revert s ok kept s'. induction ws as [| w rest IH]; intros s ok kept s' Hinv H.
  - simpl in H. injection H as <- <- <-.
    split; [done |]. split; [| done]. intros w Hw. by apply elem_of_nil in Hw.
  - destruct (scan_inv_tail _ _ _ _ Hinv) as (Hinv_rest & Hnotin & Hw).
    simpl in H.
    apply bind_Some in H as (b & Hb & H).
    destruct (0 <? b).
    { apply bind_Some in H as ([[ok1 kept1] s1] & H1 & H).
      injection H as <- <- <-.
      apply (scan_res_keep s s); [done | done | done | done |]. by apply IH. }
    apply bind_Some in H as (c & Hc & H).
    destruct (c_garbage c) eqn:Hg.
    { apply (scan_res_drop s s); [done |]. by apply IH. }
    destruct (c_literals c) as [| x0 [| x1 tl]] eqn:Hlits; [done | done |].
    destruct (Hw c Hc Hg) as (y0 & y1 & tl' & Hy & Hnl).
    rewrite Hlits in Hy. injection Hy as <- <- <-.
    set (c0 := if x0 =? nl then x1 else x0) in *.
    set (c1 := if x0 =? nl then x0 else x1) in *.
    assert (Hc1 : c1 = nl).
    { unfold c1. destruct (Z.eqb_spec x0 nl); [done |]. by destruct Hnl. }
    assert (Hperm0 : c0 :: c1 :: tl ≡ₚ x0 :: x1 :: tl).
    { unfold c0, c1. destruct (x0 =? nl); [apply perm_swap | done]. }
    set (s0 := store_literals (w_clause w) (c0 :: c1 :: tl) s) in *.
    assert (Hinv0 : scan_inv s0 nl (w :: rest)).
    { apply (store_literals_scan_inv s nl (w :: rest) (w_clause w) c);
        [done | done | by rewrite Hlits |].
      intros _ m z0 z1 tl0 Hz Hm _. rewrite Hlits in Hz.
      injection Hz as <- <- <-. exists c0, c1, tl. split; [done |].
      unfold c0, c1. destruct (x0 =? nl); tauto. }
    assert (Hc_s0 : clauses s0 !! w_clause w =
                    Some (clause_set_literals (c0 :: c1 :: tl) c)).
    { unfold s0. simpl. by rewrite list_lookup_alter_eq, Hc. }
    assert (Hfr0 : ∀ h, h ≠ w_clause w → clauses s0 !! h = clauses s !! h).
    { intros h Hh. unfold s0. simpl. by rewrite list_lookup_alter_ne. }
    destruct (scan_inv_tail _ _ _ _ Hinv0) as (Hinv0_rest & _ & Hw0).
    assert (Hnd0 : NoDup (c0 :: c1 :: tl)).
    { rewrite Hperm0, <- Hlits.
      exact (Forall_lookup_1 _ _ _ _ (si_nodup _ _ _ Hinv) Hc). }
    apply bind_Some in H as (u & Hu & H).
    destruct (Z.ltb_spec 0 u) as [Hupos | Hunpos].
    { apply bind_Some in H as ([[ok1 kept1] s1] & H1 & H).
      injection H as <- <- <-.
      apply (scan_res_keep s s0 nl w); [done | done | done | | by apply IH].
      intros c' Hc' Hg'. change (clauses s0 !! w_clause w = Some c') in Hc'.
      rewrite Hc_s0 in Hc'.
      injection Hc' as <-. simpl. exists c0, c1, tl. split; [done |]. by right. }
    apply bind_Some in H as (r & Hr & H).
    destruct r as [[i k] |].
    { pose proof (find_replacement_val _ _ _ _ _ Hr) as (vk & Hvk & Hvk0).
      apply find_replacement_Some in Hr as (j & -> & Hj). simpl in H.
      set (s1 := store_literals (w_clause w) (c0 :: k :: <[j := c1]> tl) s0) in *.
      apply bind_Some in H as (s2 & H2 & H).
      assert (Hkin : k ∈ tl) by (by eapply list_elem_of_lookup_2).
      assert (Hknl : k ≠ nl).
      { intros ->. rewrite (si_false _ _ _ Hinv0) in Hvk. injection Hvk as <-. lia. }
      assert (Hkc0 : k ≠ c0).
      { intros ->. apply NoDup_cons in Hnd0 as [Hnot _]. apply Hnot.
        by apply list_elem_of_further. }
      assert (Hinv1 : scan_inv s1 nl rest).
      { apply (store_literals_scan_inv s0 nl rest (w_clause w)
                 (clause_set_literals (c0 :: c1 :: tl) c));
          [done | done | |].
        - simpl. apply perm_skip. by apply insert_swap_Permutation.
        - simpl. intros _ m z0 z1 tl0 Hz Hm Hmnl. injection Hz as <- <- <-.
          exists c0, k, (<[j := c1]> tl). split; [done |].
          destruct Hm as [<- | <-]; [by left |].
          exfalso. apply Hnotin. by apply Hmnl. }
      assert (Hfr1 : ∀ h, h ≠ w_clause w → clauses s1 !! h = clauses s !! h).
      { intros h Hh. unfold s1. simpl. rewrite list_lookup_alter_ne by done.
        by apply Hfr0. }
      assert (Hinv2 : scan_inv s2 nl rest).
      { apply (watch_literal_scan_inv s1 s2 nl rest k c0 (w_clause w));
          [done | done | done | |].
        - intros c' Hc' Hg'.
          change (alter (clause_set_literals (c0 :: k :: <[j := c1]> tl))
                    (w_clause w) (clauses s0) !! w_clause w = Some c') in Hc'.
          rewrite list_lookup_alter_eq, Hc_s0 in Hc'. simpl in Hc'.
          injection Hc' as <-. simpl. eexists _, _, _. split; [done |]. by right.
        - intros wl Hwl Hin.
          change (watches s1 k) with (watches s0 k) in Hwl.
          destruct (si_others _ _ _ Hinv0 k wl Hknl Hwl) as [_ Hl0].
          apply list_elem_of_fmap in Hin as (w2 & Hw2 & Hin).
          pose proof (proj1 (Forall_forall _ _) Hl0 w2 Hin) as Hw2l.
          assert (Hc2 : clauses s0 !! w_clause w2 =
                        Some (clause_set_literals (c0 :: c1 :: tl) c))
            by (rewrite <- Hw2; exact Hc_s0).
          destruct (Hw2l _ Hc2 Hg) as (z0 & z1 & tl0 & Hz & Hk).
          simpl in Hz. injection Hz as <- <- <-.
          destruct Hk as [Hk | Hk]; [by apply Hkc0 | congruence]. }
      assert (Hfr2 : ∀ h, h ≠ w_clause w → clauses s2 !! h = clauses s !! h).
      { intros h Hh.
        destruct (watch_literal_lookup _ _ _ _ _ (si_max_var _ _ _ Hinv1) H2)
          as (_ & _ & -> & _). by apply Hfr1. }
      apply (scan_res_drop s s2); [done |]. by apply IH. }
    destruct (Z.ltb_spec u 0) as [Huneg | Hunneg].
    { injection H as <- <- <-. split; [| split].
      - intros h Hh. rewrite fmap_cons in Hh.
        apply not_elem_of_cons in Hh as [Hne _]. by apply Hfr0.
      - intros w' Hw'. by apply list_elem_of_fmap_2.
      - exists (w_clause w), (clause_set_literals (c0 :: c1 :: tl) c).
        split; [done |]. split; [exact Hc_s0 |].
        unfold falsified. simpl.
        assert (Hneg : ∀ k v, val s0 k = Some v → v < 0 → val s0 k = Some (-1)).
        { intros k v Hk Hv.
          destruct (vals_ok_val _ _ _ (si_vals _ _ _ Hinv0) Hk) as [-> | [-> | ->]];
            [done | lia | lia]. }
        apply Forall_cons. split; [by apply (Hneg c0 u) |].
        apply Forall_cons. split; [rewrite Hc1; exact (si_false _ _ _ Hinv0) |].
        apply find_replacement_None in Hr.
        eapply Forall_impl; [exact Hr |]. intros k (v & Hk & Hv). simpl.
        by apply (Hneg k v). }
    apply bind_Some in H as (s1 & H1 & H).
    apply bind_Some in H as ([[ok1 kept1] s2] & H2 & H).
    injection H as <- <- <-.
    pose proof (assign_scan_inv _ _ _ _ _ _ Hinv0 H1) as Hinv1.
    destruct (assign_val _ _ _ _ H1) as (_ & _ & _ & Hcl1 & _).
    destruct (scan_inv_tail _ _ _ _ Hinv1) as (Hinv1_rest & _ & Hw1).
    apply (scan_res_keep s s1 nl w); [| done | done | done | by apply IH].
    intros h Hh. rewrite Hcl1. by apply Hfr0.
Qed.

Lemma watch_inv_ext s s' :
  max_var s' = max_var s → vals s' = vals s → trail s' = trail s →
  clauses s' = clauses s → wtab s' = wtab s →
  watch_inv s → watch_inv s'.
Proof.
  intros Hm Hv Ht Hc Hw [Hmv Hvo Htr Hn Hwa]. constructor.
  - unfold max_var_ok. by rewrite Hm.
  - unfold vals_ok. by rewrite Hv.
  - unfold trail_true. rewrite Ht. eapply Forall_impl; [exact Htr |].
    intros l Hl. simpl. by rewrite (val_ext s s').
  - unfold clauses_nodup. by rewrite Hc.
  - intros m wl Hwl. rewrite (watches_ext s s') in Hwl by done.
    destruct (Hwa m wl Hwl) as [Hnd Hl]. split; [done |].
    eapply Forall_impl; [exact Hl |]. intros w. apply watches_lit_ext.
    by rewrite Hc.
Qed.

(** The watches of the negation of a true literal scanned and written
    back. *)
Lemma propagate_literal_inv lit s ok s' :
  watch_inv s → val s lit = Some 1 →
  propagate_literal lit s = Some (ok, s') →
  if ok then watch_inv s'
  else ∃ h c, conflict s' = Some h ∧ clauses s' !! h = Some c ∧
              falsified s' c.
Proof.
  intros Hinv Hlit H. unfold propagate_literal in H.
  apply bind_Some in H as (i & Hi & H).
  apply bind_Some in H as (ws & Hws & H).
  apply bind_Some in H as ([[ok1 kept] s1] & H1 & H).
  apply bind_Some in H as (wtab' & Hwtab & H).
  injection H as <- <-.
  pose proof Hinv as [Hmv Hvo Htr Hn Hwa].
  assert (Hwnl : watches s (- lit) = Some ws).
  { unfold watches. rewrite Hi. done. }
  assert (Hsi : scan_inv s (- lit) ws).
  { constructor; try done.
    - apply (val_opp _ _ _ Hmv) in Hlit. exact Hlit.
    - by apply Hwa.
    - intros m wl _ Hwl. by apply Hwa. }
  pose proof (propagate_watches_effect _ _ _ _ _ _ H1) as (_ & _ & _ & Hm1 & _).
  apply (propagate_watches_scan _ _ _ _ _ _ Hsi) in H1 as (_ & _ & Hres).
  apply zupdate_Some in Hwtab as [Hr ->].
  destruct ok1.
  - destruct Hres as [Hmv1 Hvo1 Htr1 Hn1 Hf1 Hl1 Ho1]. constructor; try done.
    intros m wl Hwl.
    assert (Hi1 : vlit s1 (- lit) = Some i).
    { unfold vlit, vidx in *. by rewrite Hm1. }
    assert (Hext : ∀ m' w, watches_lit s1 m' w →
              watches_lit (set_wtab (<[Z.to_nat i := kept]> (wtab s1)) s1) m' w).
    { intros m' w. by apply watches_lit_ext. }
    destruct (Z.eq_dec m (- lit)) as [-> | Hne].
    + unfold watches in Hwl.
      change (vlit (set_wtab ?w s1) ?l) with (vlit s1 l) in Hwl.
      rewrite Hi1 in Hwl. simpl in Hwl.
      apply zlookup_Some in Hwl as [_ Hwl].
      rewrite list_lookup_insert_eq in Hwl by lia. injection Hwl as <-.
      destruct Hl1 as [Hnd Hl]. split; [done |].
      eapply Forall_impl; [exact Hl |]. intros w. apply Hext.
    + assert (Hwl1 : watches s1 m = Some wl).
      { unfold watches in *.
        change (vlit (set_wtab ?w s1) ?l) with (vlit s1 l) in Hwl.
        destruct (vlit s1 m) as [j |] eqn:Hj; [| done]. simpl in *.
        assert (i ≠ j).
        { intros ->. apply Hne. by apply (vlit_inj s1 m (- lit) j). }
        apply zlookup_Some in Hwl as [Hj0 Hwl]. apply zlookup_Some.
        split; [done |]. rewrite list_lookup_insert_ne in Hwl by lia. done. }
      destruct (Ho1 m wl Hne Hwl1) as [Hnd Hl]. split; [done |].
      eapply Forall_impl; [exact Hl |]. intros w. apply Hext.
  - destruct Hres as (h & c & Hcf & Hc & Hfa). exists h, c.
    split; [done |]. split; [done |]. by apply (falsified_ext s1).
Qed.

Lemma propagate_loop_inv fuel s b s' :
  watch_inv s → propagate_loop fuel s = Some (b, s') →
  if b then watch_inv s'
  else ∃ h c, conflict s' = Some h ∧ clauses s' !! h = Some c ∧
              falsified s' c.
Proof.
  revert s. induction fuel as [| fuel IH]; intros s Hinv H; simpl in H.
  - destruct (propagated s <? Z.of_nat (length (trail s))); [discriminate |].
    by injection H as <- <-.
  - destruct (propagated s <? Z.of_nat (length (trail s)));
      [| by injection H as <- <-].
    apply bind_Some in H as (lit & Hlit & H).
    destruct (propagate_literal lit (set_propagated (propagated s + 1) s))
      as [[ok s1] |] eqn:H1; [| discriminate].
    assert (Hval : val s lit = Some 1).
    { apply zlookup_Some in Hlit as [_ Hlit].
      exact (Forall_lookup_1 _ _ _ _ (wi_trail _ Hinv) Hlit). }
    apply propagate_literal_inv in H1;
      [| by apply (watch_inv_ext s) | exact Hval].
    destruct ok.
    + by apply (IH s1).
    + by injection H as <- <-.
Qed.

(** The propagator does not read [conflict]. *)

Lemma assign_set_conflict x lit r s :
  assign lit r (set_conflict x s) = set_conflict x <$> assign lit r s.
Proof.
  unfold assign.
  change (vidx (set_conflict x s) lit) with (vidx s lit).
  change (val (set_conflict x s) lit) with (val s lit).
  destruct (vidx s lit) as [idx |]; [simpl | done].
  destruct (val s lit) as [cur |]; [simpl | done].
  destruct (negb (cur =? 0)); [done |].
  change (vtab (set_conflict x s)) with (vtab s).
  change (vals (set_conflict x s)) with (vals s).
  change (phases (set_conflict x s)) with (phases s).
  destruct (zlookup (vtab s) idx) as [v |]; [simpl | done].
  destruct (zupdate (vals s) idx _) as [vals' |]; [simpl | done].
  destruct (zupdate (phases s) idx _) as [phases' |]; [simpl | done].
  destruct (zupdate (vtab s) idx _) as [vtab' |]; [simpl | done].
  reflexivity.
Qed.

Lemma watch_literal_set_conflict x k b h s :
  watch_literal k b h (set_conflict x s) =
  set_conflict x <$> watch_literal k b h s.
Proof.
  unfold watch_literal.
  change (vlit (set_conflict x s) k) with (vlit s k).
  change (wtab (set_conflict x s)) with (wtab s).
  destruct (vlit s k) as [i |]; [simpl | done].
  destruct (zlookup (wtab s) i) as [ws |]; [simpl | done].
  destruct (zupdate (wtab s) i _) as [wtab' |]; [simpl | done].
  reflexivity.
Qed.

Lemma find_replacement_set_conflict x s lits pos :
  find_replacement (set_conflict x s) lits pos = find_replacement s lits pos.
Proof.
  revert pos. induction lits as [| k rest IH]; intros pos; simpl; [done |].
  change (val (set_conflict x s) k) with (val s k).
  destruct (val s k) as [v |]; [simpl | done].
  destruct (v <? 0); [apply IH | done].
Qed.

Lemma propagate_watches_set_conflict x nl ws s :
  propagate_watches nl ws (set_conflict x s) =
  (λ r, (r.1, restore_conflict x r.1.1 r.2)) <$> propagate_watches nl ws s.
Proof.
  revert s. induction ws as [| w rest IH]; intros s; [done |].
  simpl.
  change (val (set_conflict x s) (w_blit w)) with (val s (w_blit w)).
  destruct (val s (w_blit w)) as [b |]; [simpl | done].
  destruct (0 <? b).
  { rewrite IH. destruct (propagate_watches nl rest s) as [[[ok kept] s1] |];
      done. }
  change (clauses (set_conflict x s)) with (clauses s).
  destruct (clauses s !! w_clause w) as [c |]; [simpl | done].
  destruct (c_garbage c); [apply IH |].
  destruct (c_literals c) as [| x0 [| x1 tl]]; [done | done |].
  set (c0 := if x0 =? nl then x1 else x0).
  set (c1 := if x0 =? nl then x0 else x1).
  change (store_literals (w_clause w) (c0 :: c1 :: tl) (set_conflict x s))
    with (set_conflict x (store_literals (w_clause w) (c0 :: c1 :: tl) s)).
  set (s0 := store_literals (w_clause w) (c0 :: c1 :: tl) s).
  change (val (set_conflict x s0) c0) with (val s0 c0).
  destruct (val s0 c0) as [u |]; [simpl | done].
  destruct (0 <? u).
  { rewrite IH. destruct (propagate_watches nl rest s0) as [[[ok kept] s1] |];
      done. }
  rewrite find_replacement_set_conflict.
  destruct (find_replacement s0 tl 0) as [r |]; [simpl | done].
  destruct r as [[i k] |].
  { change (store_literals (w_clause w) (c0 :: k :: <[i := c1]> tl)
              (set_conflict x s0))
      with (set_conflict x (store_literals (w_clause w)
                              (c0 :: k :: <[i := c1]> tl) s0)).
    rewrite watch_literal_set_conflict.
    destruct (watch_literal k c0 (w_clause w) _) as [s2 |]; [simpl | done].
    apply IH. }
  destruct (u <? 0); [done |].
  rewrite assign_set_conflict.
  destruct (assign c0 (Some (w_clause w)) s0) as [s1 |]; [simpl | done].
  rewrite IH. destruct (propagate_watches nl rest s1) as [[[ok kept] s2] |];
    done.
Qed.

Lemma propagate_literal_set_conflict x lit s :
  propagate_literal lit (set_conflict x s) =
  (λ r, (r.1, restore_conflict x r.1 r.2)) <$> propagate_literal lit s.
Proof.
  unfold propagate_literal.
  change (vlit (set_conflict x s) (- lit)) with (vlit s (- lit)).
  change (wtab (set_conflict x s)) with (wtab s).
  destruct (vlit s (- lit)) as [i |]; [simpl | done].
  destruct (zlookup (wtab s) i) as [ws |]; [simpl | done].
  rewrite propagate_watches_set_conflict.
  destruct (propagate_watches (- lit) ws s) as [[[ok kept] s1] |];
    [simpl | done].
  destruct ok; simpl.
  - change (wtab (set_conflict x s1)) with (wtab s1).
    destruct (zupdate (wtab s1) i kept); done.
  - destruct (zupdate (wtab s1) i kept); done.
Qed.

Lemma propagate_loop_set_conflict x fuel s :
  propagate_loop fuel (set_conflict x s) =
  (λ r, (r.1, restore_conflict x r.1 r.2)) <$> propagate_loop fuel s.
Proof.
  revert s. induction fuel as [| fuel IH]; intros s; simpl.
  - change (propagated (set_conflict x s)) with (propagated s).
    change (trail (set_conflict x s)) with (trail s).
    destruct (propagated s <? Z.of_nat (length (trail s))); done.
  - change (propagated (set_conflict x s)) with (propagated s).
    change (trail (set_conflict x s)) with (trail s).
    destruct (propagated s <? Z.of_nat (length (trail s))); [| done].
    destruct (zlookup (trail s) (propagated s)) as [lit |]; [simpl | done].
    change (set_propagated (propagated s + 1) (set_conflict x s))
      with (set_conflict x (set_propagated (propagated s + 1) s)).
    rewrite propagate_literal_set_conflict.
    destruct (propagate_literal lit _) as [[ok s1] |]; [simpl | done].
    destruct ok; simpl; [| done].
    rewrite IH. destruct (propagate_loop fuel s1) as [[b s2] |]; [simpl | done].
    by destruct b.
Qed.

Lemma propagate_set_conflict x s :
  propagate (set_conflict x s) =
  (λ r, (r.1, restore_conflict x r.1 r.2)) <$> propagate s.
Proof. apply propagate_loop_set_conflict. Qed.

Lemma set_conflict_same s : set_conflict (conflict s) s = s.
Proof. by destruct s. Qed.

Lemma stable_set_conflict x s : stable s → stable (set_conflict x s).
Proof.
  intros [Hp Hw]. split; [by apply prop_ok_set_conflict |].
  by apply (watch_inv_ext s).
Qed.

(** [propagate] called in a stable state without a conflict. *)
Lemma propagate_fresh s :
  stable s → conflict s = None →
  0 <= propagated s <= Z.of_nat (length (trail s)) →
  ∃ b s', propagate s = Some (b, s') ∧
    if b then propagated s' = Z.of_nat (length (trail s')) ∧ conflict s' = None
    else ∃ h c, conflict s' = Some h ∧ clauses s' !! h = Some c ∧
                falsified s' c.
Proof.
  intros [Hok Hinv] Hcf Hp.
  destruct (propagate_loop_total (propagate_fuel s) s Hok Hp (le_n _))
    as (b & s' & H & _ & _ & Hres).
  exists b, s'. split; [exact H |].
  apply (propagate_loop_inv _ _ _ _ Hinv) in H.
  destruct b; [| exact H].
  destruct Hres as [Hp' Hc']. by rewrite Hcf in Hc'.
Qed.

(** C1. [propagate ()], called in a stable state, returns, with true or
    with false.  It returns true exactly when it ends with [propagated]
    equal to [trail.size ()] and finds no conflict, and then it leaves
    [conflict] as it was; it returns false exactly when it finds a
    conflict, and then [conflict] is set to the clause found, a clause of
    the store all of whose literals are false.  A call with [conflict]
    empty finds what it leaves in [conflict]. *)
Theorem propagate_outcome (s : Solver) :
  stable s →
  0 <= propagated s <= Z.of_nat (length (trail s)) →
  ∃ b s', propagate s = Some (b, s') ∧
    (b = true ↔ propagated s' = Z.of_nat (length (trail s')) ∧
                conflict_found s = Some None) ∧
    (b = false ↔ ∃ h c, conflict_found s = Some (Some h) ∧
                        conflict s' = Some h ∧
                        clauses s' !! h = Some c ∧ falsified s' c) ∧
    (b = true → conflict s' = conflict s) ∧
    (conflict s = None → conflict_found s = Some (conflict s')).
Proof.
  intros Hst Hp.
  destruct (propagate_fresh (set_conflict None s))
    as (b & s0 & H0 & Hres); [by apply stable_set_conflict | done | done |].
  pose proof (propagate_set_conflict (conflict s) (set_conflict None s)) as H.
  change (set_conflict (conflict s) (set_conflict None s))
    with (set_conflict (conflict s) s) in H.
  rewrite set_conflict_same, H0 in H. simpl in H.
  assert (Hfound : conflict_found s = Some (conflict s0)).
  { unfold conflict_found. by rewrite H0. }
  exists b, (restore_conflict (conflict s) b s0). split; [exact H |].
  rewrite Hfound. destruct b; simpl.
  - destruct Hres as [Hp0 Hc0]. rewrite Hc0.
    split; [| split; [| split]].
    + split; [done | done].
    + split; [done |]. by intros (h & c & [=] & _).
    + done.
    + by intros ->.
  - destruct Hres as (h & c & Hcf & Hc & Hfa). rewrite Hcf.
    split; [| split; [| split]].
    + split; [done |]. by intros [_ [=]].
    + split; [| done]. intros _. by exists h, c.
    + done.
    + done.
Qed.

(** A stable state stays stable where [propagate] finds no conflict. *)
Lemma propagate_stable s s' :
  stable s → 0 <= propagated s <= Z.of_nat (length (trail s)) →
  propagate s = Some (true, s') → stable s'.
Proof.
  intros [Hok Hinv] Hp H.
  destruct (propagate_loop_total (propagate_fuel s) s Hok Hp (le_n _))
    as (b & s1 & H1 & Hok1 & _).
  unfold propagate in H. rewrite H in H1. injection H1 as <- <-.
  split; [done |]. by apply (propagate_loop_inv _ _ _ _ Hinv) in H.
Qed.

Ltac solve_watches_lit :=
  let c := fresh "c" in let Hc := fresh "Hc" in
  intros c Hc _; vm_compute in Hc; injection Hc as <-;
  eexists _, _, _; split; [reflexivity | auto].

Ltac solve_NoDup :=
  repeat (apply NoDup_cons; split;
          [rewrite ?elem_of_cons, elem_of_nil; lia |]);
  apply NoDup_nil_2.

Ltac solve_watch_ok_in s :=
  split;
  [solve_lit_ok
  | norm (clauses s); eexists; split;
    [reflexivity | intros _; cbn [c_literals length]; lia]].

Lemma uip_decided_prop_ok : prop_ok uip_decided.
Proof.
  constructor.
  - vm_compute. repeat split; discriminate.
  - norm (clauses uip_decided). solve_Forall ltac:(solve_Forall solve_lit_ok).
  - norm (wtab uip_decided).
    solve_Forall ltac:(solve_Forall ltac:(solve_watch_ok_in uip_decided)).
  - norm (trail uip_decided). solve_Forall solve_lit_ok.
Qed.

Lemma uip_decided_watched_ok : watched_ok uip_decided.
Proof.
  intros lit ws H.
  assert (Hl : lit_ok uip_decided lit).
  { unfold watches, vlit in H.
    destruct (vidx uip_decided lit) as [idx |] eqn:E; [| discriminate].
    by apply vidx_Some in E as [? _]. }
  destruct Hl as (H0 & _ & Hle). norm_in (max_var uip_decided) Hle.
  assert (Hc : lit = -4 ∨ lit = -3 ∨ lit = -2 ∨ lit = -1 ∨
               lit = 1 ∨ lit = 2 ∨ lit = 3 ∨ lit = 4) by lia.
  destruct Hc as [-> | [-> | [-> | [-> | [-> | [-> | [-> | ->]]]]]]];
    vm_compute in H; injection H as <-;
    (split; [simpl; solve_NoDup | solve_Forall solve_watches_lit]).
Qed.

Lemma uip_decided_stable : stable uip_decided.
Proof.
  split; [exact uip_decided_prop_ok |]. constructor.
  - vm_compute. split; discriminate.
  - unfold vals_ok. norm (vals uip_decided). solve_Forall lia.
  - unfold trail_true. norm (trail uip_decided).
    solve_Forall ltac:(vm_compute; reflexivity).
  - unfold clauses_nodup. norm (clauses uip_decided).
    solve_Forall ltac:(cbn [c_literals]; solve_NoDup).
  - exact uip_decided_watched_ok.
Qed.

Lemma propagate_outcome_witness :
  ∃ b s', propagate uip_decided = Some (b, s') ∧
    (b = true ↔ propagated s' = Z.of_nat (length (trail s')) ∧
                conflict_found uip_decided = Some None) ∧
    (b = false ↔ ∃ h c, conflict_found uip_decided = Some (Some h) ∧
                        conflict s' = Some h ∧
                        clauses s' !! h = Some c ∧ falsified s' c) ∧
    (b = true → conflict s' = conflict uip_decided) ∧
    (conflict uip_decided = None →
     conflict_found uip_decided = Some (conflict s')).
Proof.
  apply (propagate_outcome uip_decided).
  - exact uip_decided_stable.
  - vm_compute. split; discriminate.
Defined.
